(** * WordStress: a shallow embedding of the stress-position classifier

    The development follows the two notebooks under [WordStress/]:
    [Test] (bidirectional encoder, class count taken from the data) and
    [Test-Copy1] (unidirectional encoder with dropout, class count left at
    the constructor default).

    Conventions of the embedding.
    - A Python [str] is a list of code points ([N]); a Python [int] is [Z].
    - A Python [dict] keyed by strings is a [gmap (list N) Z].
    - A raised exception is the [Raise] branch of [result]; nothing in the
      notebooks catches one, so a [Raise] anywhere aborts the run.
    - Finite floating-point scores are idealised as real numbers; the one
      non-finite value the loss can produce without raising (the NaN of an
      all-ignored mean) is kept as [NaN]. In the same way the encoder is
      idealised as exact arithmetic on each example's own row: the
      batched floating-point kernels of the library may differ from it in
      the last bit, depending on what else the batch holds.
    - The numeric interior of the network (embedding rows, the LSTM cell,
      the linear layer, dropout noise, the optimiser, the shuffling
      sampler) is the interface [Backend]; the shapes of the tensors, the
      control flow around them and the error behaviour are modelled.
    - The files a run reads and writes are explicit: the two CSV files are
      arguments of [main], the checkpoint lives in a [World], and the rows
      of the submission are returned.

    Limits of the embedding. Some refusals of the library are left out:
    the 64-bit range of an integer tensor, the validation of the
    optimiser's learning rate, the least width of a layer, and the
    refusal of an empty batch or of an empty data set by a shuffling
    sampler; rows are taken as parsed, so a word may be empty here where
    the CSV reader never yields one. The properties that conclude that a
    run returns carry the corresponding hypotheses. *)

From Stdlib Require Import ZArith QArith List Reals Lra Lia Permutation.
From stdpp Require Import gmap strings list sorting.
Import ListNotations.

Local Open Scope Z_scope.
#[local] Set Warnings "-clear-no-such-hyp".

(** ** Exceptions *)

Inductive exn : Set :=
  | ValueError | IndexError | RuntimeError | ZeroDivisionError
  | FileNotFoundError | KeyError | AttributeError.

Inductive result (A : Type) : Type :=
  | Ok (a : A)
  | Raise (e : exn).
Arguments Ok {A} a.
Arguments Raise {A} e.

#[global] Instance result_ret : MRet result := λ A a, Ok a.
#[global] Instance result_bind : MBind result := λ A B k r,
  match r with Ok a => k a | Raise e => Raise e end.

Definition is_Raise {A} (r : result A) : Prop :=
  match r with Raise _ => True | Ok _ => False end.

(** [for x in l: acc = f acc x], stopping at the first exception. *)
Fixpoint for_each {A S} (f : S → A → result S) (s : S) (l : list A) : result S :=
  match l with
  | [] => Ok s
  | x :: l' => s' ← f s x; for_each f s' l'
  end.

(** [[f(x) for x in l]] where [f] may raise. *)
Fixpoint map_result {A B} (f : A → result B) (l : list A) : result (list B) :=
  match l with
  | [] => Ok []
  | x :: l' => y ← f x; ys ← map_result f l'; Ok (y :: ys)
  end.

(** ** Vocabulary *)

Module Vocab.

(** A one-character string, the key under which a character is stored. *)
Definition key (ch : N) : list N := [ch].

(** The literal ['<PAD>']. *)
Definition PAD : list N := [60; 80; 65; 68; 62]%N.

(** [chars = set(); for word in words: for ch in word: chars.add(ch)] *)
Definition collect_chars (words : list (list N)) : gset N :=
  foldl (λ chars word, foldl (λ chars ch, {[ch]} ∪ chars) chars word) ∅ words.

(** [sorted(...)] on characters: ascending code point order. *)
Definition sorted (l : list N) : list N := merge_sort N.le l.

(** [enumerate(l, start)] *)
Fixpoint enumerate_from {A} (start : Z) (l : list A) : list (Z * A) :=
  match l with
  | [] => []
  | x :: l' => (start, x) :: enumerate_from (start + 1) l'
  end.

Definition enumerate {A} (l : list A) : list (Z * A) := enumerate_from 0 l.

(** The body of the comprehension [{ch: idx + 1 for idx, ch in ...}]. *)
Definition add_char (d : gmap (list N) Z) (p : Z * N) : gmap (list N) Z :=
  <[key p.2 := p.1 + 1]> d.

(** [{ch: idx + 1 for idx, ch in enumerate(chars)}] *)
Definition index_chars (chars : list N) : gmap (list N) Z :=
  foldl add_char ∅ (enumerate chars).

(** [{idx: ch for ch, idx in char2idx.items()}], the items given in
    insertion order. *)
Definition invert (items : list (list N * Z)) : gmap Z (list N) :=
  foldl (λ d p, <[p.2 := p.1]> d) ∅ items.

Definition items_of (chars : list N) : list (list N * Z) :=
  ((λ p : Z * N, (key p.2, p.1 + 1)) <$> enumerate chars) ++ [(PAD, 0)].

Definition build_vocab (words : list (list N))
  : gmap (list N) Z * gmap Z (list N) :=
  let chars := sorted (elements (collect_chars words)) in
  let char2idx := index_chars chars in
  let char2idx := <[PAD := 0]> char2idx in
  let idx2char := invert (items_of chars) in
  (char2idx, idx2char).

(** [[char2idx.get(ch, 0) for ch in word]] *)
Definition encode_word (word : list N) (char2idx : gmap (list N) Z) : list Z :=
  (λ ch, default 0 (char2idx !! key ch)) <$> word.

(** [len(char2idx)] *)
Definition len (char2idx : gmap (list N) Z) : Z := Z.of_nat (size char2idx).

End Vocab.

#[global] Instance R_inhabited : Inhabited R := populate 0%R.

(** ** Library primitives the notebooks call

    Each is written from the documented behaviour of the Python or PyTorch
    operation of the same name. *)

Module Torch.

(** A loss value: a finite number, or the NaN that a mean over no element
    yields. *)
Inductive fval : Type :=
  | Fin (r : R)
  | NaN.

Definition fadd (a b : fval) : fval :=
  match a, b with Fin x, Fin y => Fin (x + y) | _, _ => NaN end.

(** Division of a loss value by a positive count. *)
Definition fdiv (a : fval) (n : nat) : fval :=
  match a with Fin x => Fin (x / INR n) | NaN => NaN end.

(** [v[:n]]: a negative bound counts from the end, a bound beyond the end
    is clipped to it. *)
Definition slice_to {A} (v : list A) (n : Z) : list A :=
  take (Z.to_nat (if n <? 0 then Z.of_nat (length v) + n else n)) v.

(** The scan behind [torch.argmax] on a 1-d tensor: the running best is
    replaced only by a strictly larger entry, so the first maximum wins. *)
Fixpoint argmax_from (best_i : nat) (best : R) (i : nat) (v : list R) : nat :=
  match v with
  | [] => best_i
  | x :: v' =>
      if Rlt_dec best x then argmax_from i x (S i) v'
      else argmax_from best_i best (S i) v'
  end.

(** [torch.argmax(v).item()]; an empty tensor has no argmax. *)
Definition argmax (v : list R) : result Z :=
  match v with
  | [] => Raise IndexError
  | x :: v' => Ok (Z.of_nat (argmax_from 0 x 1 v'))
  end.

Definition sum_exp (v : list R) : R := foldr (λ x acc, (exp x + acc)%R) 0%R v.

(** The default [ignore_index] of [cross_entropy]. *)
Definition ignore_index : Z := -100.

(** [nn.functional.cross_entropy(v.unsqueeze(0), torch.tensor([t]))] with the
    default arguments: a target equal to [ignore_index] is left out of the
    mean, which is then a mean over nothing; any other target must index
    [v]. *)
Definition cross_entropy (v : list R) (t : Z) : result fval :=
  if bool_decide (t = ignore_index) then Ok NaN
  else if bool_decide (0 ≤ t) then
    match v !! Z.to_nat t with
    | Some x => Ok (Fin (ln (sum_exp v) - x))
    | None => Raise IndexError
    end
  else Raise IndexError.

(** [nn.utils.rnn.pad_sequence(seqs, batch_first=True, padding_value=0)] *)
Definition pad_sequence (seqs : list (list Z)) : list (list Z) :=
  let width := foldr (λ s m, Nat.max (length s) m) 0%nat seqs in
  (λ s, s ++ replicate (width - length s) 0) <$> seqs.

(** [t[i].item()] on a 1-d integer tensor. *)
Definition item (t : list Z) (i : nat) : result Z :=
  match t !! i with Some x => Ok x | None => Raise IndexError end.

End Torch.

(** [max(l)] on a list of integers. *)
Definition py_max (l : list Z) : result Z :=
  match l with
  | [] => Raise ValueError
  | x :: l' => Ok (foldl Z.max x l')
  end.

(** ** Data set and batches *)

(** One row of [train.csv] or [test.csv]; the latter has no [stress]
    column. *)
Record Row : Type := {
  row_id : Z;
  row_word : list N;
  row_num_syllables : Z;
  row_stress : option Z
}.

Inductive Mode : Set := ModeTrain | ModeTest.

Record StressDataset : Type := {
  mode : Mode;
  words : list (list N);
  stresses : option (list Z);
  num_syllables : list Z;
  ids : list Z;
  char2idx : gmap (list N) Z;
  encoded_words : list (list Z)
}.

(** [StressDataset(csv_file, char2idx, mode)] *)
Definition StressDataset_init (data : list Row)
    (vocab : option (gmap (list N) Z)) (m : Mode) : result StressDataset :=
  let ws := row_word <$> data in
  sts ← match m with
        | ModeTrain =>
            l ← map_result (λ r, match row_stress r with
                                  | Some s => Ok s
                                  | None => Raise KeyError
                                  end) data;
            Ok (Some l)
        | ModeTest => Ok None
        end;
  let c2i := match vocab with
             | None => (Vocab.build_vocab ws).1
             | Some c => c
             end in
  Ok {| mode := m; words := ws; stresses := sts;
        num_syllables := row_num_syllables <$> data;
        ids := row_id <$> data;
        char2idx := c2i;
        encoded_words := (λ w, Vocab.encode_word w c2i) <$> ws |}.

(** What [__getitem__] returns. *)
Record Item : Type := {
  item_id : Z;
  item_word : list N;
  item_encoded : list Z;
  item_num_syllables : Z;
  item_stress : option Z
}.

Definition getitem (ds : StressDataset) (idx : nat) : result Item :=
  match ids ds !! idx, words ds !! idx, encoded_words ds !! idx,
        num_syllables ds !! idx with
  | Some i, Some w, Some e, Some k =>
      match mode ds with
      | ModeTrain =>
          match stresses ds with
          | Some sts =>
              match sts !! idx with
              | Some s =>
                  Ok {| item_id := i; item_word := w; item_encoded := e;
                        item_num_syllables := k; item_stress := Some s |}
              | None => Raise IndexError
              end
          | None => Raise AttributeError
          end
      | ModeTest =>
          Ok {| item_id := i; item_word := w; item_encoded := e;
                item_num_syllables := k; item_stress := None |}
      end
  | _, _, _, _ => Raise IndexError
  end.

Record Batch : Type := {
  b_id : list Z;
  b_encoded : list (list Z);
  b_lengths : list nat;
  b_num_syllables : list Z;
  b_stress : option (list Z)
}.

(** [collate_fn(batch)]: the stress column is present exactly when the
    first item carries a label. *)
Definition collate_fn (batch : list Item) : result Batch :=
  let encoded_seqs := item_encoded <$> batch in
  match batch with
  | [] => Raise IndexError
  | b0 :: _ =>
      sts ← match item_stress b0 with
            | Some _ =>
                l ← map_result (λ b, match item_stress b with
                                      | Some s => Ok s
                                      | None => Raise KeyError
                                      end) batch;
                Ok (Some l)
            | None => Ok None
            end;
      Ok {| b_id := item_id <$> batch;
            b_encoded := Torch.pad_sequence encoded_seqs;
            b_lengths := length <$> encoded_seqs;
            b_num_syllables := item_num_syllables <$> batch;
            b_stress := sts |}
  end.

(** Consecutive groups of [n] elements, the last one possibly shorter. *)
Fixpoint chunks_aux {A} (fuel n : nat) (l : list A) : list (list A) :=
  match fuel with
  | O => []
  | S fuel' =>
      match l with
      | [] => []
      | _ => take n l :: chunks_aux fuel' n (drop n l)
      end
  end.

Definition chunks {A} (n : nat) (l : list A) : list (list A) :=
  chunks_aux (length l) n l.

(** The batch built from one group of sampled indices. *)
Definition load_group (ds : StressDataset) (group : list nat) : result Batch :=
  items ← map_result (getitem ds) group; collate_fn items.

(** [range(len(ds))], the order of a sampler that does not shuffle. *)
Definition sequential (ds : StressDataset) : list nat :=
  seq 0 (length (words ds)).

(** Iterating [DataLoader(ds, batch_size, shuffle, collate_fn)], the
    sampler visiting the indices in the order [idxs]. The batches are
    listed at once; the loops that consume them take them in order. *)
Definition DataLoader (ds : StressDataset) (batch_size : Z)
    (idxs : list nat) : result (list Batch) :=
  if bool_decide (batch_size ≤ 0) then Raise ValueError
  else
    map_result (load_group ds) (chunks (Z.to_nat batch_size) idxs).

(** ** The classifier, its training loop and the two run modes *)

(** Which notebook: [Test] builds a bidirectional encoder and sizes the
    classifier from the data; [TestCopy1] builds a unidirectional encoder
    with dropout and leaves the class count at the constructor default. *)
Inductive Notebook : Set := Test | TestCopy1.

Record Args : Type := {
  args_mode : string;
  batch_size : Z;
  epochs : Z;
  lr : Q;
  embed_dim : Z;
  hidden_size : Z;
  model_path : string;
  output : string
}.

(** The default of the [num_classes] argument of [StressModel.__init__]. *)
Definition default_num_classes : Z := 6.

(** A model: its shape, its mode and the contents [W] of its parameter
    tensors. *)
Record StressModel (W : Type) : Type := {
  vocab_size : Z;
  m_embed_dim : Z;
  m_hidden_size : Z;
  num_classes : Z;
  bidirectional : bool;
  training : bool;
  params : W
}.
Arguments vocab_size {W} _.
Arguments m_embed_dim {W} _.
Arguments m_hidden_size {W} _.
Arguments num_classes {W} _.
Arguments bidirectional {W} _.
Arguments training {W} _.
Arguments params {W} _.

(** The numeric interior of PyTorch that the notebooks rely on and that
    the embedding leaves open. *)
Class Backend : Type := {
  (** Numeric vectors (embedding rows, hidden and cell states). *)
  vec : Type;
  (** The contents of all parameter tensors of a model. *)
  weights : Type;
  (** The state of the optimiser and of the random generator. *)
  opt_state : Type;
  generator : Type;
  (** Random initialisation of the parameters of a model of a given
      shape. *)
  init_params : generator → Z → Z → Z → Z → bool → weights * generator;
  (** Row [i] of the embedding table. *)
  embedding_row : weights → Z → vec;
  (** One step of the LSTM over [(h, c)]; the flag selects the reverse
      direction's weights. *)
  lstm_cell : weights → bool → vec * vec → vec → vec * vec;
  (** The all-zero initial state of a given width. *)
  zeros : Z → vec;
  (** Output unit [j] of the linear layer on the concatenated summary. *)
  linear : weights → Z → list vec → R;
  (** Training-mode dropout on one summary vector. *)
  dropout : generator → vec → vec * generator;
  (** [optim.Adam(model.parameters(), lr)]. *)
  adam_init : Q → weights → opt_state;
  (** One round of [zero_grad(); loss.backward(); optimizer.step()]. *)
  adam_step : opt_state → StressModel weights → Batch → opt_state * weights;
  (** The order in which a shuffling sampler visits the indices: each
      index once. *)
  shuffle : generator → list nat → list nat * generator;
  shuffle_perm : ∀ g idxs, (shuffle g idxs).1 ≡ₚ idxs
}.

Section Network.

Context `{backend : Backend}.

Abbreviation Model := (StressModel weights).

Definition is_bidirectional (nb : Notebook) : bool :=
  match nb with Test => true | TestCopy1 => false end.

(** [StressModel(vocab_size, embed_dim, hidden_size, num_classes)]: the
    padding row must exist and no tensor has a negative dimension. *)
Definition StressModel_init (nb : Notebook) (g : generator)
    (V E H C : Z) : result (Model * generator) :=
  if bool_decide (1 ≤ V ∧ 0 ≤ E ∧ 0 ≤ H ∧ 0 ≤ C) then
    let '(w, g') := init_params g V E H C (is_bidirectional nb) in
    Ok ({| vocab_size := V; m_embed_dim := E; m_hidden_size := H;
           num_classes := C; bidirectional := is_bidirectional nb;
           training := true; params := w |}, g')
  else Raise RuntimeError.

Definition set_training (b : bool) (m : Model) : Model :=
  {| vocab_size := vocab_size m; m_embed_dim := m_embed_dim m;
     m_hidden_size := m_hidden_size m; num_classes := num_classes m;
     bidirectional := bidirectional m; training := b; params := params m |}.

Definition set_params (w : weights) (m : Model) : Model :=
  {| vocab_size := vocab_size m; m_embed_dim := m_embed_dim m;
     m_hidden_size := m_hidden_size m; num_classes := num_classes m;
     bidirectional := bidirectional m; training := training m; params := w |}.

(** Names and shapes of the tensors of [model.state_dict()]. *)
Definition lstm_shapes (suffix : string) (E H : Z) : list (string * list Z) :=
  [("lstm.weight_ih_l0" +:+ suffix, [4 * H; E]);
   ("lstm.weight_hh_l0" +:+ suffix, [4 * H; H]);
   ("lstm.bias_ih_l0" +:+ suffix, [4 * H]);
   ("lstm.bias_hh_l0" +:+ suffix, [4 * H])].

Definition param_shapes (m : Model) : list (string * list Z) :=
  let E := m_embed_dim m in
  let H := m_hidden_size m in
  [("embedding.weight"%string, [vocab_size m; E])]
  ++ lstm_shapes "" E H
  ++ (if bidirectional m then lstm_shapes "_reverse" E H else [])
  ++ [("fc.weight"%string,
       [num_classes m; if bidirectional m then H * 2 else H]);
      ("fc.bias"%string, [num_classes m])].

Record StateDict : Type := {
  sd_shapes : list (string * list Z);
  sd_data : weights
}.

Definition state_dict (m : Model) : StateDict :=
  {| sd_shapes := param_shapes m; sd_data := params m |}.

(** [model.load_state_dict(sd)] (strict): every tensor must be present
    with the shape the model expects. *)
Definition load_state_dict (m : Model) (sd : StateDict)
  : result Model :=
  if bool_decide (sd_shapes sd = param_shapes m) then Ok (set_params (sd_data sd) m)
  else Raise RuntimeError.

(** [self.embedding(x)] on one row of indices. *)
Definition embedding (m : Model) (row : list Z) : result (list vec) :=
  map_result (λ i, if bool_decide (0 ≤ i < vocab_size m)
                   then Ok (embedding_row (params m) i)
                   else Raise IndexError) row.

(** [pack_padded_sequence(embedded, lengths, batch_first=True,
    enforce_sorted=False)]: each row is cut to its reported length, which
    must be positive and within the padded width. *)
Fixpoint pack_padded_sequence (embedded : list (list vec)) (lengths : list nat)
  : result (list (list vec)) :=
  match embedded, lengths with
  | [], [] => Ok []
  | row :: embedded', n :: lengths' =>
      if bool_decide (0 < n ≤ length row)%nat then
        rest ← pack_padded_sequence embedded' lengths';
        Ok (take n row :: rest)
      else Raise RuntimeError
  | _, _ => Raise RuntimeError
  end.

(** The final hidden state of one direction over one packed row. *)
Definition lstm_final (m : Model) (reverse : bool) (row : list vec) : vec :=
  let z := zeros (m_hidden_size m) in
  fst (foldl (lstm_cell (params m) reverse) (z, z)
             (if reverse then rev row else row)).

(** [self.fc(h)]: one score per class. *)
Definition fc (m : Model) (h : list vec) : list R :=
  (λ j, linear (params m) (Z.of_nat j) h) <$> seq 0 (Z.to_nat (num_classes m)).

(** [self.dp(h)] on the rows of a batch. *)
Fixpoint dp (m : Model) (g : generator) (hs : list vec) : list vec * generator :=
  match hs with
  | [] => ([], g)
  | h :: hs' =>
      if training m then
        let '(h', g1) := dropout g h in
        let '(rest, g2) := dp m g1 hs' in
        (h' :: rest, g2)
      else
        let '(rest, g2) := dp m g hs' in
        (h :: rest, g2)
  end.

(** [StressModel.forward(x, lengths)]. The summary of an example is
    computed from its own packed row, in exact arithmetic. *)
Definition forward (m : Model) (g : generator) (x : list (list Z))
    (lengths : list nat) : result (list (list R) * generator) :=
  embedded ← map_result (embedding m) x;
  packed ← pack_padded_sequence embedded lengths;
  if bidirectional m then
    Ok ((λ row, fc m [lstm_final m false row; lstm_final m true row]) <$> packed, g)
  else
    let '(hs, g') := dp m g (lstm_final m false <$> packed) in
    Ok ((λ h, fc m [h]) <$> hs, g').

(** One round of the loop in [masked_cross_entropy_loss]. *)
Definition loss_example (logits_i : list R) (stress_i valid_len : Z)
  : result Torch.fval :=
  let logit_i := Torch.slice_to logits_i valid_len in
  let target := stress_i - 1 in
  Torch.cross_entropy logit_i target.

(** The body of that loop: [batch_loss += loss_i]. *)
Definition loss_step (logits : list (list R)) (stresses num_syllables : list Z)
    (batch_loss : Torch.fval) (i : nat) : result Torch.fval :=
  valid_len ← Torch.item num_syllables i;
  stress_i ← Torch.item stresses i;
  loss_i ← loss_example (logits !!! i) stress_i valid_len;
  Ok (Torch.fadd batch_loss loss_i).

Definition masked_cross_entropy_loss (logits : list (list R))
    (stresses num_syllables : list Z) : result Torch.fval :=
  let batch_size := length logits in
  batch_loss ←
    for_each (loss_step logits stresses num_syllables)
             (Torch.Fin 0) (seq 0 batch_size);
  if bool_decide (batch_size = 0%nat) then Raise ZeroDivisionError
  else Ok (Torch.fdiv batch_loss batch_size).

(** The labels of a batch, as [batch['stress'].to(device)] needs them. *)
Definition batch_stress (b : Batch) : result (list Z) :=
  match b_stress b with Some s => Ok s | None => Raise AttributeError end.

Record TrainState : Type := {
  ts_model : Model;
  ts_opt : opt_state;
  ts_rng : generator;
  ts_total_loss : Torch.fval
}.

(** The body of the loop of [train_model]: one batch. *)
Definition train_step (st : TrainState) (batch : Batch) : result TrainState :=
  '(logits, g') ← forward (ts_model st) (ts_rng st)
                          (b_encoded batch) (b_lengths batch);
  stresses ← batch_stress batch;
  loss ← masked_cross_entropy_loss logits stresses (b_num_syllables batch);
  let '(o', w') := adam_step (ts_opt st) (ts_model st) batch in
  Ok {| ts_model := set_params w' (ts_model st); ts_opt := o';
        ts_rng := g';
        ts_total_loss := Torch.fadd (ts_total_loss st) loss |}.

(** [train_model(model, dataloader, optimizer, device)]: the mean batch
    loss, with the updated model, optimiser and generator. *)
Definition train_model (model : Model) (dataloader : list Batch)
    (optimizer : opt_state) (g : generator) : result (TrainState * Torch.fval) :=
  st ← for_each train_step
        {| ts_model := set_training true model; ts_opt := optimizer;
           ts_rng := g; ts_total_loss := Torch.Fin 0 |}
        dataloader;
  if bool_decide (dataloader = []) then Raise ZeroDivisionError
  else Ok (st, Torch.fdiv (ts_total_loss st) (length dataloader)).

(** The masked decode shared by [evaluate_model] (0-indexed) and
    [predict] (1-indexed). *)
Definition decode0 (logits_i : list R) (valid_len : Z) : result Z :=
  Torch.argmax (Torch.slice_to logits_i valid_len).

Definition decode (logits_i : list R) (valid_len : Z) : result Z :=
  p ← decode0 logits_i valid_len; Ok (p + 1).

(** [evaluate_model(model, dataloader, device)]: the model left in
    evaluation mode, and [correct / total]. *)
Definition evaluate_model (model : Model) (dataloader : list Batch) (g : generator)
  : result (Model * Q) :=
  let model := set_training false model in
  '(correct, total) ←
    for_each (λ '(correct, total) batch,
        '(logits, _) ← forward model g (b_encoded batch) (b_lengths batch);
        stresses ← batch_stress batch;
        for_each (λ '(correct, total) i,
            valid_len ← Torch.item (b_num_syllables batch) i;
            pred ← decode0 (logits !!! i) valid_len;
            s ← Torch.item stresses i;
            let true := s - 1 in
            Ok (if bool_decide (pred = true) then correct + 1 else correct,
                total + 1))
          (correct, total) (seq 0 (length logits)))
      (0, 0) dataloader;
  if bool_decide (total = 0) then Raise ZeroDivisionError
  else Ok (model, Qmake correct (Z.to_pos total)).

(** The inner loop of [predict]: one prediction per row of the logits. *)
Definition predict_rows (logits : list (list R)) (num_syllables : list Z)
    (predictions : list Z) : result (list Z) :=
  for_each (λ predictions i,
      valid_len ← Torch.item num_syllables i;
      pred ← decode (logits !!! i) valid_len;
      Ok (predictions ++ [pred]))
    predictions (seq 0 (length logits)).

(** The body of the outer loop of [predict]: one batch. *)
Definition predict_step (model : Model) (g : generator)
    (acc : list Z * list Z) (batch : Batch) : result (list Z * list Z) :=
  '(logits, _) ← forward model g (b_encoded batch) (b_lengths batch);
  predictions ← predict_rows logits (b_num_syllables batch) acc.2;
  Ok (acc.1 ++ b_id batch, predictions).

(** [predict(model, dataloader, device)] *)
Definition predict (model : Model) (dataloader : list Batch) (g : generator)
  : result (list Z * list Z) :=
  let model := set_training false model in
  for_each (predict_step model g) ([], []) dataloader.

(** What [torch.save] writes and [torch.load] reads back. *)
Record Checkpoint : Type := {
  model_state_dict : StateDict;
  ckpt_char2idx : gmap (list N) Z
}.

(** The part of the outside world a run reads and changes: the random
    generator and the checkpoint files. *)
Record World : Type := {
  rng : generator;
  files : gmap string Checkpoint
}.

Definition torch_save (c : Checkpoint) (path : string) (wd : World) : World :=
  {| rng := rng wd; files := <[path := c]> (files wd) |}.

Definition torch_load (path : string) (wd : World) : result Checkpoint :=
  match files wd !! path with Some c => Ok c | None => Raise FileNotFoundError end.

(** The class count the train branch asks for: the largest syllable count
    of the training data in [Test], the constructor default in
    [TestCopy1]. *)
Definition train_num_classes (nb : Notebook) (ds : StressDataset) : result Z :=
  match nb with
  | Test => py_max (num_syllables ds)
  | TestCopy1 => Ok default_num_classes
  end.

(** The epoch loop of the train branch. *)
Fixpoint epoch_loop (n : nat) (ds : StressDataset) (bs : Z)
    (model : Model) (opt : opt_state) (g : generator) : result (Model * generator) :=
  match n with
  | O => Ok (model, g)
  | S n' =>
      let '(order, g1) := shuffle g (sequential ds) in
      train_loader ← DataLoader ds bs order;
      '(st, train_loss) ← train_model model train_loader opt g1;
      val_loader ← DataLoader ds bs (sequential ds);
      '(model', val_acc) ← evaluate_model (ts_model st) val_loader (ts_rng st);
      epoch_loop n' ds bs model' (ts_opt st) (ts_rng st)
  end.

(** The first lines of the train branch of [main], up to the construction
    of the model. *)
Definition train_setup (nb : Notebook) (args : Args) (train_csv : list Row)
    (g : generator) : result (StressDataset * Model * generator) :=
  train_dataset ← StressDataset_init train_csv None ModeTrain;
  C ← train_num_classes nb train_dataset;
  let c2i := char2idx train_dataset in
  _ ← (if bool_decide (batch_size args ≤ 0) then Raise ValueError else Ok ());
  '(model, g) ← StressModel_init nb g (Vocab.len c2i)
                   (embed_dim args) (hidden_size args) C;
  Ok (train_dataset, model, g).

(** The train branch of [main]: the trained model, and the world with the
    checkpoint written. *)
Definition main_train (nb : Notebook) (args : Args) (train_csv : list Row)
    (wd : World) : result (Model * World) :=
  '(train_dataset, model, g) ← train_setup nb args train_csv (rng wd);
  let optimizer := adam_init (lr args) (params model) in
  '(model, g) ← epoch_loop (Z.to_nat (epochs args)) train_dataset
                   (batch_size args) model optimizer g;
  Ok (model,
      torch_save {| model_state_dict := state_dict model;
                    ckpt_char2idx := char2idx train_dataset |}
                 (model_path args) {| rng := g; files := files wd |}).

(** [model = StressModel(..., num_classes=C); model.load_state_dict(...)] *)
Definition restore_model (nb : Notebook) (args : Args) (checkpoint : Checkpoint)
    (C : Z) (g : generator) : result (Model * generator) :=
  '(model, g') ← StressModel_init nb g (Vocab.len (ckpt_char2idx checkpoint))
                    (embed_dim args) (hidden_size args) C;
  model ← load_state_dict model (model_state_dict checkpoint);
  Ok (model, g').

(** [pd.DataFrame({'id': ..., 'words': ..., 'stress': ...})]: the columns
    must have one length. *)
Definition submission (ids_all : list Z) (ws : list (list N)) (preds : list Z)
  : result (list (Z * list N * Z)) :=
  if bool_decide (length ids_all = length ws ∧ length ws = length preds)
  then Ok (zip (zip ids_all ws) preds)
  else Raise ValueError.

(** The predict branch of [main]: the model that was run, and the rows
    written to the output file. *)
Definition main_predict (nb : Notebook) (args : Args) (test_csv : list Row)
    (wd : World) : result (Model * list (Z * list N * Z)) :=
  checkpoint ← torch_load (model_path args) wd;
  let c2i := ckpt_char2idx checkpoint in
  match nb with
  | Test =>
      test_dataset ← StressDataset_init test_csv (Some c2i) ModeTest;
      test_loader ← DataLoader test_dataset (batch_size args) (sequential test_dataset);
      max_num_syllables ← py_max (num_syllables test_dataset);
      '(model, g) ← restore_model nb args checkpoint max_num_syllables (rng wd);
      '(ids_all, preds) ← predict model test_loader g;
      rows ← submission ids_all (words test_dataset) preds;
      Ok (model, rows)
  | TestCopy1 =>
      '(model, g) ← restore_model nb args checkpoint default_num_classes (rng wd);
      test_dataset ← StressDataset_init test_csv (Some c2i) ModeTest;
      test_loader ← DataLoader test_dataset (batch_size args) (sequential test_dataset);
      '(ids_all, preds) ← predict model test_loader g;
      rows ← submission ids_all (words test_dataset) preds;
      Ok (model, rows)
  end.

(** [main(args)]: any mode other than the two known ones does nothing. *)
Definition main (nb : Notebook) (args : Args) (train_csv test_csv : list Row)
    (wd : World) : result (World * option (list (Z * list N * Z))) :=
  if bool_decide (args_mode args = "train"%string) then
    '(_, wd') ← main_train nb args train_csv wd; Ok (wd', None)
  else if bool_decide (args_mode args = "predict"%string) then
    '(_, rows) ← main_predict nb args test_csv wd; Ok (wd, Some rows)
  else Ok (wd, None).

End Network.

(** A small backend over the integers, on which the definitions can be
    run: vectors and weights are integers, the cell adds its input to the
    hidden state, unit [j] of the linear layer returns [j] times the sum of
    its inputs, and the sampler visits the indices in reverse. *)
Definition integer_backend : Backend := {|
  vec := Z;
  weights := Z;
  opt_state := unit;
  generator := unit;
  init_params := λ g _ _ _ _ _, (1, g);
  embedding_row := λ w i, w * i;
  lstm_cell := λ w reverse hc x, (hc.1 + x + (if reverse then 1 else 0), hc.2);
  zeros := λ _, 0;
  linear := λ w j hs, IZR (j * foldr Z.add 0 hs);
  dropout := λ g h, (0, g);
  adam_init := λ _ _, tt;
  adam_step := λ o m _, (o, params m + 1);
  shuffle := λ g idxs, (rev idxs, g);
  shuffle_perm := λ _ idxs, Permutation_sym (Permutation_rev idxs)
|}.

(** * Specification-level definitions

    What the claims are stated with: the notions the specification uses,
    and a small corpus on which the notebooks are run. *)

(** A character occurs in a collection of words. *)
Definition occurs (c : N) (words : list (list N)) : Prop :=
  ∃ w, w ∈ words ∧ c ∈ w.

(** [j] is the lowest index at which [v] takes its maximum. *)
Definition first_max (v : list R) (j : nat) : Prop :=
  ∃ y, v !! j = Some y
       ∧ (∀ i x, v !! i = Some x → (x <= y)%R)
       ∧ (∀ i x, v !! i = Some x → (i < j)%nat → (x < y)%R).

(** The logit row of the worked example. *)
Definition example_logits : list R := [0.1; 5.0; 0.2; 9.9; 0.0; 0.0]%R.

(** The probability the softmax of [v] gives to class [t]. *)
Definition softmax_prob (v : list R) (t : nat) : R :=
  (exp (v !!! t) / Torch.sum_exp v)%R.

(** Categorical cross-entropy of the scores [v] against the class [t]: the
    negative log-likelihood of [t] under the softmax of [v]. *)
Definition categorical_cross_entropy (v : list R) (t : nat) : R :=
  (- ln (softmax_prob v t))%R.

Definition sum_list (l : list R) : R := foldr Rplus 0%R l.

(** Arithmetic mean. *)
Definition mean (l : list R) : R := (sum_list l / INR (length l))%R.

(** The loss of example [i] of a batch as the specification words it:
    cross-entropy between the first [k_i] logits and the target
    [s_i - 1]. *)
Definition example_loss (logits : list (list R)) (stresses syll : list Z)
    (i : nat) : R :=
  categorical_cross_entropy (take (Z.to_nat (syll !!! i)) (logits !!! i))
                            (Z.to_nat (stresses !!! i - 1)).

(** Every example of the batch has a label within its own syllable count,
    and a logit row at least that wide. *)
Definition well_labelled (logits : list (list R)) (stresses syll : list Z) : Prop :=
  length stresses = length logits ∧ length syll = length logits ∧
  Forall (λ p : list R * (Z * Z),
            1 ≤ p.2.1 ≤ p.2.2 ∧ p.2.2 ≤ Z.of_nat (length p.1))
         (zip logits (zip stresses syll)).

(** The number a loss result denotes, for differentiation. *)
Definition loss_value (r : result Torch.fval) : R :=
  match r with Ok (Torch.Fin x) => x | _ => 0%R end.

(** A batch of two examples: the first has two syllables and is stressed
    on the first, the second has three and is stressed on the second. *)
Definition example_batch_logits : list (list R) := [[1; 2; 3]; [0; 0; 0]]%R.

(** The label or the syllable count of an example breaks the contract
    [1 <= s <= k]. *)
Definition ill_labelled (s k : Z) : Prop := k = 0 ∨ ¬ (1 ≤ s ≤ k).


(** The class count the predict branch asks for. *)
Definition requested_classes (nb : Notebook) (test_csv : list Row) : result Z :=
  match nb with
  | Test => py_max (row_num_syllables <$> test_csv)
  | TestCopy1 => Ok default_num_classes
  end.

(** The data set the predict branch builds from [test.csv] and the
    vocabulary of the checkpoint. *)
Definition test_dataset (c2i : gmap (list N) Z) (test_csv : list Row) : StressDataset :=
  {| mode := ModeTest; words := row_word <$> test_csv; stresses := None;
     num_syllables := row_num_syllables <$> test_csv;
     ids := row_id <$> test_csv; char2idx := c2i;
     encoded_words := (λ w, Vocab.encode_word w c2i) <$> (row_word <$> test_csv) |}.

(** The corpus of the end-to-end scenario: cat, apple, banana. *)
Definition example_train_csv : list Row := [
  {| row_id := 1; row_word := [99; 97; 116]%N;
     row_num_syllables := 1; row_stress := Some 1 |};
  {| row_id := 2; row_word := [97; 112; 112; 108; 101]%N;
     row_num_syllables := 2; row_stress := Some 1 |};
  {| row_id := 3; row_word := [98; 97; 110; 97; 110; 97]%N;
     row_num_syllables := 3; row_stress := Some 2 |}
].

(** Inference data whose largest syllable count is 2: cat, apple. *)
Definition example_test_csv : list Row := [
  {| row_id := 7; row_word := [99; 97; 116]%N;
     row_num_syllables := 1; row_stress := None |};
  {| row_id := 8; row_word := [97; 112; 112; 108; 101]%N;
     row_num_syllables := 2; row_stress := None |}
].

(** Inference data whose largest syllable count is 3, as in training. *)
Definition example_test_csv3 : list Row := [
  {| row_id := 7; row_word := [99; 97; 116]%N;
     row_num_syllables := 1; row_stress := None |};
  {| row_id := 9; row_word := [98; 97; 110; 97; 110; 97]%N;
     row_num_syllables := 3; row_stress := None |}
].

Definition example_args : Args := {|
  args_mode := "train"; batch_size := 2; epochs := 2; lr := (1 # 1000)%Q;
  embed_dim := 4; hidden_size := 3;
  model_path := "stress_model.pth"; output := "submission.csv"
|}.

(** The word cat, encoded with the vocabulary of the example corpus. *)
Definition item_cat : Item :=
  {| item_id := 1; item_word := [99; 97; 116]%N; item_encoded := [3; 1; 8];
     item_num_syllables := 1; item_stress := None |}.

Definition item_banana : Item :=
  {| item_id := 3; item_word := [98; 97; 110; 97; 110; 97]%N;
     item_encoded := [2; 1; 6; 1; 6; 1];
     item_num_syllables := 3; item_stress := None |}.

Section SpecModel.

Context `{backend : Backend}.

Abbreviation Model := (StressModel weights).

(** Everything about a model that fixes the shapes of its tensors. *)
Definition shape (m : StressModel weights) : Z * Z * Z * Z * bool :=
  (vocab_size m, m_embed_dim m, m_hidden_size m, num_classes m, bidirectional m).

(** The logits of one encoded word processed on its own, with dropout
    inactive. *)
Definition word_logits (m : Model) (enc : list Z) : list R :=
  let row := embedding_row (params m) <$> enc in
  if bidirectional m
  then fc m [lstm_final m false row; lstm_final m true row]
  else fc m [lstm_final m false row].

(** An item the encoder accepts: a non-empty word whose indices are rows
    of the embedding table. *)
Definition encodable (m : Model) (it : Item) : Prop :=
  item_encoded it ≠ [] ∧ Forall (λ i, 0 ≤ i < vocab_size m) (item_encoded it).

(** The rows a model held in memory predicts for [test.csv], the words
    encoded with the vocabulary [c2i]. *)
Definition predict_with (m : StressModel weights) (c2i : gmap (list N) Z)
    (args : Args) (test_csv : list Row) (g : generator)
  : result (list (Z * list N * Z)) :=
  let ds := test_dataset c2i test_csv in
  loader ← DataLoader ds (batch_size args) (sequential ds);
  '(ids_all, preds) ← predict m loader g;
  submission ids_all (words ds) preds.

End SpecModel.

Section Examples.

#[local] Existing Instance integer_backend.

Definition example_generator : @generator integer_backend := tt.

Definition example_world : World := {| rng := example_generator; files := ∅ |}.

(** The world after training the bidirectional notebook on the example
    corpus. *)
Definition trained_world : World :=
  match main_train Test example_args example_train_csv example_world with
  | Ok (_, wd) => wd
  | Raise _ => example_world
  end.

Definition example_model : StressModel weights :=
  {| vocab_size := 9; m_embed_dim := 4; m_hidden_size := 3; num_classes := 3;
     bidirectional := true; training := true; params := 1 |}.

End Examples.

(** ** Further specification-level definitions *)

(** The sorted list of the distinct characters of a collection of words,
    as [build_vocab] computes it. *)
Definition vocab_chars (words : list (list N)) : list N :=
  Vocab.sorted (elements (Vocab.collect_chars words)).

(** Reading a word back from its indices through [idx2char]: every index
    must stand for a one-character string. *)
Fixpoint decode_word (idx2char : gmap Z (list N)) (idxs : list Z)
  : option (list N) :=
  match idxs with
  | [] => Some []
  | idx :: idxs' =>
      match idx2char !! idx with
      | Some [ch] => cons ch <$> decode_word idx2char idxs'
      | _ => None
      end
  end.

(** The item [__getitem__] builds from a row of the CSV file. *)
Definition item_of_row (c2i : gmap (list N) Z) (md : Mode) (r : Row) : Item :=
  {| item_id := row_id r; item_word := row_word r;
     item_encoded := Vocab.encode_word (row_word r) c2i;
     item_num_syllables := row_num_syllables r;
     item_stress := match md with ModeTrain => row_stress r | ModeTest => None end |}.

(** The batch that collating the items of some rows gives. *)
Definition batch_of_rows (c2i : gmap (list N) Z) (md : Mode) (rows : list Row)
  : Batch :=
  {| b_id := row_id <$> rows;
     b_encoded :=
       Torch.pad_sequence ((λ r, Vocab.encode_word (row_word r) c2i) <$> rows);
     b_lengths := (λ r, length (row_word r)) <$> rows;
     b_num_syllables := row_num_syllables <$> rows;
     b_stress := match md with
                 | ModeTrain => Some ((λ r, default 0 (row_stress r)) <$> rows)
                 | ModeTest => None
                 end |}.


Section SpecPipeline.

Context `{backend : Backend}.

(** The stress position the decode gives a row handled on its own: the
    word encoded with [c2i], run through the encoder with dropout
    inactive, decoded under the row's syllable count. *)
Definition predicted_stress (m : StressModel weights) (c2i : gmap (list N) Z)
    (r : Row) : result Z :=
  decode (word_logits m (Vocab.encode_word (row_word r) c2i))
         (row_num_syllables r).

(** A row the encoder accepts: a non-empty word whose indices are rows of
    the embedding table. *)
Definition accepted (m : StressModel weights) (c2i : gmap (list N) Z)
    (r : Row) : Prop :=
  row_word r ≠ []
  ∧ Forall (λ i, 0 ≤ i < vocab_size m) (Vocab.encode_word (row_word r) c2i).

(** The predicted stress of a row is its label. *)
Definition hit (m : StressModel weights) (c2i : gmap (list N) Z)
    (r : Row) : bool :=
  match predicted_stress m c2i r with
  | Ok p => bool_decide (row_stress r = Some p)
  | Raise _ => false
  end.

(** The fraction of hits among the outcomes of the rows. *)
Definition accuracy (hits : list bool) : Q :=
  Qmake (Z.of_nat (length (filter (λ h, h = true) hits)))
        (Z.to_pos (Z.of_nat (length hits))).

End SpecPipeline.

(** A training row the loss accepts under [C] classes: a non-empty word
    whose label lies between 1 and its syllable count, and within the
    class count. *)
Definition trainable_row (C : Z) (r : Row) : Prop :=
  row_word r ≠ []
  ∧ ∃ s, row_stress r = Some s ∧ 1 ≤ s ≤ row_num_syllables r ∧ s ≤ C.

(** * Properties *)

(** Case analysis on the first computation of a sequence that is known to
    return. *)
Ltac bind_ok H :=
  cbv beta in H;
  match type of H with
  | mbind _ ?r = Ok _ =>
      let E := fresh "E" in
      destruct r eqn:E; simpl in H; [|discriminate H]
  end.

(** One step of a sequence whose first computation has returned. *)
Ltac step_ok :=
  repeat match goal with
  | |- context [mbind ?k (Ok ?a)] => change (mbind k (Ok a)) with (k a)
  end; cbv beta iota.

(** ** Vocabulary builder and sequence encoder *)

Section VocabFacts.

Implicit Types (words : list (list N)) (chars : list N) (c : N).

Lemma elem_of_add_word (s : gset N) (w : list N) c :
  c ∈ foldl (λ acc ch, {[ch]} ∪ acc) s w ↔ c ∈ w ∨ c ∈ s.
Proof.
  revert s. induction w as [|x w IH]; intros s; simpl.
  - set_solver.
  - rewrite IH. set_solver.
Qed.

Lemma elem_of_add_words (s : gset N) words c :
  c ∈ foldl (λ acc word, foldl (λ acc ch, {[ch]} ∪ acc) acc word) s words
  ↔ occurs c words ∨ c ∈ s.
Proof.
  unfold occurs. revert s. induction words as [|w words IH]; intros s; simpl.
  - split; [auto|]. intros [(w & Hw & _)|]; [|done]. by apply elem_of_nil in Hw.
  - rewrite IH, elem_of_add_word. split.
    + intros [(w' & Hw' & Hc)|[Hc|Hc]]; [|left|by right].
      * left. exists w'. split; [by right|done].
      * exists w. split; [by left|done].
    + intros [(w' & Hw' & Hc)|Hc]; [|by right; right].
      apply elem_of_cons in Hw' as [->|Hw']; [by right; left|].
      left. by exists w'.
Qed.

Lemma elem_of_collect_chars words c :
  c ∈ Vocab.collect_chars words ↔ occurs c words.
Proof.
  unfold Vocab.collect_chars. rewrite elem_of_add_words. set_solver.
Qed.

Lemma sorted_Permutation chars : Vocab.sorted chars ≡ₚ chars.
Proof. apply merge_sort_Permutation. Qed.

Lemma StronglySorted_le_lt chars :
  NoDup chars → StronglySorted N.le chars → StronglySorted N.lt chars.
Proof.
  induction 2 as [|x l Hl IH Hx]; [constructor|].
  apply NoDup_cons in H as [Hnot Hnd]. constructor; [by apply IH|].
  apply Forall_forall. intros y Hy.
  rewrite Forall_forall in Hx. specialize (Hx y Hy).
  assert (x ≠ y) by (intros ->; done). lia.
Qed.

Lemma sorted_strict chars :
  NoDup chars → StronglySorted N.lt (Vocab.sorted chars).
Proof.
  intros Hnd. apply StronglySorted_le_lt.
  - by rewrite sorted_Permutation.
  - apply StronglySorted_merge_sort; apply _.
Qed.

(** The order in which the set is listed before sorting is irrelevant. *)
Lemma sorted_order_irrelevant l1 l2 :
  l1 ≡ₚ l2 → Vocab.sorted l1 = Vocab.sorted l2.
Proof.
  intros Hp. apply (Sorted_unique N.le).
  - apply Sorted_merge_sort; apply _.
  - apply Sorted_merge_sort; apply _.
  - by rewrite !sorted_Permutation.
Qed.

Lemma add_chars_other (d : gmap (list N) Z) start chars k :
  (∀ c, c ∈ chars → k ≠ Vocab.key c) →
  foldl Vocab.add_char d (Vocab.enumerate_from start chars) !! k = d !! k.
Proof.
  revert d start. induction chars as [|x chars IH]; intros d start Hk; simpl; [done|].
  rewrite IH by (intros c Hc; apply Hk; by right).
  unfold Vocab.add_char; simpl. apply lookup_insert_ne.
  intros Heq. eapply Hk; [by left|done].
Qed.

Lemma add_chars_lookup (d : gmap (list N) Z) start chars i c :
  NoDup chars → chars !! i = Some c →
  foldl Vocab.add_char d (Vocab.enumerate_from start chars) !! Vocab.key c
  = Some (start + Z.of_nat i + 1).
Proof.
  revert d start i. induction chars as [|x chars IH]; intros d start i Hnd Hi; [done|].
  apply NoDup_cons in Hnd as [Hx Hnd]. destruct i as [|i]; simpl in *.
  - injection Hi as ->. rewrite add_chars_other.
    + unfold Vocab.add_char; simpl. rewrite lookup_insert_eq. f_equal. lia.
    + intros c' Hc' [= ->]. done.
  - rewrite (IH _ _ i) by done. f_equal. lia.
Qed.

Lemma add_chars_size (d : gmap (list N) Z) start chars :
  NoDup chars → (∀ c, c ∈ chars → d !! Vocab.key c = None) →
  size (foldl Vocab.add_char d (Vocab.enumerate_from start chars))
  = (size d + length chars)%nat.
Proof.
  revert d start. induction chars as [|x chars IH]; intros d start Hnd Hd; simpl; [lia|].
  apply NoDup_cons in Hnd as [Hx Hnd]. rewrite IH; [|done|].
  - unfold Vocab.add_char; simpl. rewrite map_size_insert_None; [lia|].
    apply Hd. by left.
  - intros c Hc. unfold Vocab.add_char; simpl. rewrite lookup_insert_ne.
    + apply Hd. by right.
    + intros [= ->]. done.
Qed.

Lemma index_chars_inv chars k idx :
  NoDup chars → Vocab.index_chars chars !! k = Some idx →
  ∃ i c, chars !! i = Some c ∧ k = Vocab.key c ∧ idx = Z.of_nat i + 1.
Proof.
  intros Hnd Hk. unfold Vocab.index_chars, Vocab.enumerate in Hk.
  assert ((∃ c, c ∈ chars ∧ k = Vocab.key c) ∨ ¬ (∃ c, c ∈ chars ∧ k = Vocab.key c))
    as [(c & Hc & ->)|Hno].
  { destruct k as [|c [|? ?]]; [right; by intros (? & _ & ?)| |right; by intros (? & _ & ?)].
    destruct (decide (c ∈ chars)) as [Hc|Hc]; [left; by exists c|].
    right. intros (c' & Hc' & [= ->]). done. }
  - apply list_elem_of_lookup in Hc as [i Hi].
    rewrite (add_chars_lookup _ _ _ i c) in Hk by done.
    exists i, c. split; [done|]. split; [done|]. injection Hk as <-. lia.
  - rewrite add_chars_other in Hk; [by rewrite lookup_empty in Hk|].
    intros c Hc ->. apply Hno. by exists c.
Qed.

Lemma PAD_not_key c : Vocab.PAD ≠ Vocab.key c.
Proof. done. Qed.

End VocabFacts.

Lemma collected_sorted words :
  let chars := Vocab.sorted (elements (Vocab.collect_chars words)) in
  StronglySorted N.lt chars ∧ NoDup chars ∧ ∀ c, c ∈ chars ↔ occurs c words.
Proof.
  intros chars. split; [|split].
  - apply sorted_strict, NoDup_elements.
  - unfold chars. rewrite sorted_Permutation. apply NoDup_elements.
  - intros c. unfold chars.
    by rewrite sorted_Permutation, elem_of_elements, elem_of_collect_chars.
Qed.

(** C6. [build_vocab] lists the distinct characters of the words in
    ascending code point order and gives the character at position [i] the
    index [i + 1]; the padding key gets index 0; the mapping holds nothing
    else (so it has one entry per distinct character, plus the padding
    entry); two collections with the same characters give the same mapping;
    and the empty collection gives the mapping with the padding entry
    alone. *)
Theorem build_vocab_spec (words : list (list N)) :
  let char2idx := (Vocab.build_vocab words).1 in
  ∃ chars : list N,
    StronglySorted N.lt chars
    ∧ (∀ c, c ∈ chars ↔ occurs c words)
    ∧ (∀ i c, chars !! i = Some c →
         char2idx !! Vocab.key c = Some (Z.of_nat i + 1))
    ∧ (∀ c, occurs c words → ∃ idx, char2idx !! Vocab.key c = Some idx ∧ 0 < idx)
    ∧ char2idx !! Vocab.PAD = Some 0
    ∧ (∀ k idx, char2idx !! k = Some idx →
         (k = Vocab.PAD ∧ idx = 0)
         ∨ ∃ i c, chars !! i = Some c ∧ k = Vocab.key c ∧ idx = Z.of_nat i + 1)
    ∧ size char2idx = S (length chars)
    ∧ (∀ words', (∀ c, occurs c words' ↔ occurs c words) →
         Vocab.build_vocab words' = Vocab.build_vocab words)
    ∧ (Vocab.build_vocab []).1 = {[Vocab.PAD := 0]}.
Proof.
  intros char2idx.
  destruct (collected_sorted words) as (Hsorted & Hnd & Hin).
  set (chars := Vocab.sorted (elements (Vocab.collect_chars words))) in *.
  assert (Hget : ∀ i c, chars !! i = Some c →
            char2idx !! Vocab.key c = Some (Z.of_nat i + 1)).
  { intros i c Hi. unfold char2idx, Vocab.build_vocab; simpl.
    rewrite lookup_insert_ne by apply PAD_not_key.
    unfold Vocab.index_chars, Vocab.enumerate.
    by rewrite (add_chars_lookup _ _ _ i c). }
  exists chars. repeat split.
  - done.
  - by apply Hin.
  - by apply Hin.
  - done.
  - intros c Hc. apply Hin, list_elem_of_lookup in Hc as [i Hi].
    exists (Z.of_nat i + 1). split; [by apply Hget|lia].
  - unfold char2idx, Vocab.build_vocab; simpl. apply lookup_insert_eq.
  - intros k idx Hk. unfold char2idx, Vocab.build_vocab in Hk; simpl in Hk.
    destruct (decide (k = Vocab.PAD)) as [->|Hne].
    + rewrite lookup_insert_eq in Hk. left. split; congruence.
    + rewrite lookup_insert_ne in Hk by done. right.
      by apply index_chars_inv.
  - unfold char2idx, Vocab.build_vocab; simpl.
    rewrite map_size_insert_None.
    + unfold Vocab.index_chars, Vocab.enumerate.
      rewrite add_chars_size; [by rewrite map_size_empty| done |].
      intros c _. apply lookup_empty.
    + unfold Vocab.index_chars, Vocab.enumerate.
      rewrite add_chars_other; [apply lookup_empty|].
      intros c _. apply PAD_not_key.
  - intros words' Hsame.
    assert (Vocab.collect_chars words' = Vocab.collect_chars words) as Heq.
    { apply set_eq. intros c. by rewrite !elem_of_collect_chars. }
    unfold Vocab.build_vocab. by rewrite Heq.
Qed.

(** C7. [encode_word] is a total function on every word and every mapping:
    its output has one entry per character of the word, the entry being the
    character's index when the mapping has one and 0 when it has none. *)
Theorem encode_word_spec (word : list N) (char2idx : gmap (list N) Z) :
  length (Vocab.encode_word word char2idx) = length word
  ∧ ∀ i ch, word !! i = Some ch →
      Vocab.encode_word word char2idx !! i
      = Some (match char2idx !! Vocab.key ch with Some idx => idx | None => 0 end).
Proof.
  unfold Vocab.encode_word. split.
  - apply length_fmap.
  - intros i ch Hi. rewrite list_lookup_fmap, Hi. simpl.
    by destruct (char2idx !! Vocab.key ch).
Qed.

Example build_vocab_cab :
  (Vocab.build_vocab [[99; 97; 98]; [97; 99]]%N).1
  = <[Vocab.PAD := 0]> (<[[99%N] := 3]> (<[[98%N] := 2]> (<[[97%N] := 1]> ∅))).
Proof. vm_compute. reflexivity. Qed.

Example encode_word_oov :
  Vocab.encode_word [99; 120; 97]%N (Vocab.build_vocab [[99; 97; 98]]%N).1 = [3; 0; 1].
Proof. vm_compute. reflexivity. Qed.

(** ** Masked decoding *)

Section DecodeFacts.

Implicit Types (v L : list R) (k : Z).

Lemma first_max_unique v j1 j2 : first_max v j1 → first_max v j2 → j1 = j2.
Proof.
  intros (y1 & H1 & Hle1 & Hlt1) (y2 & H2 & Hle2 & Hlt2).
  destruct (lt_eq_lt_dec j1 j2) as [[Hlt|Heq]|Hlt]; [|done|].
  - specialize (Hlt2 _ _ H1 Hlt). specialize (Hle1 _ _ H2). lra.
  - specialize (Hlt1 _ _ H2 Hlt). specialize (Hle2 _ _ H1). lra.
Qed.

Lemma first_max_lt_length v j : first_max v j → (j < length v)%nat.
Proof. intros (y & Hy & _). by eapply lookup_lt_Some. Qed.

(** The invariant of the scan: the running best is the first maximum of
    the entries read so far. *)
Lemma argmax_from_first_max pre v best_i best :
  pre !! best_i = Some best → first_max pre best_i →
  first_max (pre ++ v) (Torch.argmax_from best_i best (length pre) v).
Proof.
  revert pre best_i best.
  induction v as [|x v IH]; intros pre best_i best Hbest Hfm; simpl.
  - by rewrite app_nil_r.
  - destruct Hfm as (y & Hy & Hle & Hlt).
    assert (y = best) as -> by congruence.
    assert (Hlen : length (pre ++ [x]) = S (length pre))
      by (rewrite length_app; simpl; lia).
    rewrite (cons_middle x pre v), app_assoc, <- Hlen.
    destruct (Rlt_dec best x) as [Hbx|Hbx].
    + apply IH.
      * by rewrite lookup_app_r, Nat.sub_diag.
      * exists x. split; [by rewrite lookup_app_r, Nat.sub_diag|]. split.
        -- intros i z Hi. apply lookup_app_Some in Hi as [Hi|[_ Hi]].
           ++ specialize (Hle _ _ Hi). lra.
           ++ apply list_lookup_singleton_Some in Hi as [_ <-]. lra.
        -- intros i z Hi Hlti. rewrite lookup_app_l in Hi by done.
           specialize (Hle _ _ Hi). lra.
    + apply IH.
      * rewrite lookup_app_l; [done|]. by eapply lookup_lt_Some.
      * exists best. split; [|split].
        -- rewrite lookup_app_l; [done|]. by eapply lookup_lt_Some.
        -- intros i z Hi. apply lookup_app_Some in Hi as [Hi|[_ Hi]].
           ++ by eapply Hle.
           ++ apply list_lookup_singleton_Some in Hi as [_ <-]. lra.
        -- intros i z Hi Hlti. apply lookup_lt_Some in Hy.
           rewrite lookup_app_l in Hi by lia. by eapply Hlt.
Qed.

Lemma argmax_first_max v :
  v ≠ [] → ∃ j, Torch.argmax v = Ok (Z.of_nat j) ∧ first_max v j.
Proof.
  destruct v as [|x v]; [done|]. intros _.
  exists (Torch.argmax_from 0 x 1 v). split; [done|].
  apply (argmax_from_first_max [x] v 0%nat x); [done|].
  exists x. split; [done|]. split.
  - intros i z Hi. apply list_lookup_singleton_Some in Hi as [_ <-]. lra.
  - intros i z _ Hi. lia.
Qed.

Lemma slice_to_nonneg {A} (v : list A) k :
  0 ≤ k → Torch.slice_to v k = take (Z.to_nat k) v.
Proof.
  intros Hk. unfold Torch.slice_to.
  by destruct (Z.ltb_spec k 0); [lia|].
Qed.

Lemma slice_to_oversized {A} (v : list A) k :
  Z.of_nat (length v) ≤ k → Torch.slice_to v k = v.
Proof.
  intros Hk. rewrite slice_to_nonneg by lia. apply take_ge. lia.
Qed.

Lemma slice_to_length {A} (v : list A) k :
  0 ≤ k ≤ Z.of_nat (length v) → length (Torch.slice_to v k) = Z.to_nat k.
Proof.
  intros Hk. rewrite slice_to_nonneg by lia. rewrite length_take. lia.
Qed.

End DecodeFacts.

(** C2. With [1 <= k <= C], decoding returns one plus the lowest index at
    which the first [k] logits take their maximum (the evaluation loop
    uses the same index without the shift); the result lies in [[1, k]]
    and is the same for every row that has the same first [k] entries.
    On the worked example with [k = 3] it is 2. *)
Theorem decode_spec (L : list R) (k : Z) :
  1 ≤ k ≤ Z.of_nat (length L) →
  ∃ j : nat,
    first_max (take (Z.to_nat k) L) j
    ∧ decode L k = Ok (1 + Z.of_nat j)
    ∧ decode0 L k = Ok (Z.of_nat j)
    ∧ 1 ≤ 1 + Z.of_nat j ≤ k
    ∧ (∀ L', take (Z.to_nat k) L' = take (Z.to_nat k) L →
         decode L' k = decode L k)
    ∧ decode example_logits 3 = Ok 2.
Proof.
  intros Hk.
  assert (Hne : take (Z.to_nat k) L ≠ []).
  { intros Hnil. apply (f_equal length) in Hnil.
    rewrite length_take in Hnil. simpl in Hnil. lia. }
  destruct (argmax_first_max _ Hne) as (j & Hj & Hfm).
  assert (Hd0 : decode0 L k = Ok (Z.of_nat j)).
  { unfold decode0. by rewrite slice_to_nonneg by lia. }
  exists j. split; [done|]. split; [|split; [done|split; [|split]]].
  - unfold decode. rewrite Hd0. simpl. f_equal. lia.
  - apply first_max_lt_length in Hfm. rewrite length_take in Hfm. lia.
  - intros L' HL'. unfold decode, decode0.
    by rewrite !slice_to_nonneg, HL' by lia.
  - unfold example_logits, decode, decode0, Torch.slice_to, Torch.argmax; simpl.
    repeat (destruct (Rlt_dec _ _); try lra; simpl). reflexivity.
Qed.

Lemma decode_spec_witness :
  1 ≤ 3 ≤ Z.of_nat (length example_logits)
  ∧ ∃ j : nat, first_max (take (Z.to_nat 3) example_logits) j
               ∧ decode example_logits 3 = Ok (1 + Z.of_nat j).
Proof.
  assert (H : 1 ≤ 3 ≤ Z.of_nat (length example_logits)) by (simpl; lia).
  split; [exact H|].
  destruct (decode_spec example_logits 3 H) as (j & Hfm & Hd & _).
  exists j. by split.
Defined.

(** ** Masked loss *)

Section LossFacts.

Implicit Types (v L : list R) (logits : list (list R)) (stresses syll : list Z).

Lemma for_each_app {A S} (f : S → A → result S) s (l1 l2 : list A) :
  for_each f s (l1 ++ l2) = (s' ← for_each f s l1; for_each f s' l2).
Proof.
  revert s. induction l1 as [|x l1 IH]; intros s; simpl; [done|].
  destruct (f s x); simpl; [apply IH|done].
Qed.

Lemma for_each_snoc {A S} (f : S → A → result S) s (l : list A) x :
  for_each f s (l ++ [x]) = (s' ← for_each f s l; f s' x).
Proof.
  rewrite for_each_app. destruct (for_each f s l) as [s'|]; simpl; [|done].
  by destruct (f s' x).
Qed.

(** A loop raises as soon as one of its rounds raises whatever the state. *)
Lemma for_each_raises {A S} (f : S → A → result S) s (l : list A) x :
  x ∈ l → (∀ s', is_Raise (f s' x)) → is_Raise (for_each f s l).
Proof.
  intros Hx Hf. revert s. induction l as [|y l IH]; intros s.
  - by apply elem_of_nil in Hx.
  - simpl. apply elem_of_cons in Hx as [->|Hx].
    + specialize (Hf s). by destruct (f s y).
    + destruct (f s y); simpl; [by apply IH|done].
Qed.

Lemma map_result_raises {A B} (f : A → result B) (l : list A) x :
  x ∈ l → is_Raise (f x) → is_Raise (map_result f l).
Proof.
  intros Hx Hf. induction l as [|y l IH].
  - by apply elem_of_nil in Hx.
  - simpl. apply elem_of_cons in Hx as [->|Hx].
    + by destruct (f y).
    + destruct (f y); simpl; [|done].
      specialize (IH Hx). by destruct (map_result f l).
Qed.

Lemma sum_exp_pos v : v ≠ [] → (0 < Torch.sum_exp v)%R.
Proof.
  assert (Hnn : ∀ u, (0 <= Torch.sum_exp u)%R).
  { induction u as [|x u IH]; simpl; [lra|]. pose proof (exp_pos x). lra. }
  destruct v as [|x v]; [done|]. intros _. simpl.
  pose proof (exp_pos x). specialize (Hnn v). lra.
Qed.

(** On a target that indexes the scores, the library loss is the
    categorical cross-entropy. *)
Lemma cross_entropy_in_range v (t : Z) :
  0 ≤ t < Z.of_nat (length v) →
  Torch.cross_entropy v t
  = Ok (Torch.Fin (categorical_cross_entropy v (Z.to_nat t))).
Proof.
  intros Ht. unfold Torch.cross_entropy, Torch.ignore_index.
  rewrite bool_decide_eq_false_2 by lia.
  rewrite bool_decide_eq_true_2 by lia.
  destruct (lookup_lt_is_Some_2 v (Z.to_nat t)) as [x Hx]; [lia|].
  rewrite Hx. do 2 f_equal.
  unfold categorical_cross_entropy, softmax_prob.
  rewrite (list_lookup_total_correct _ _ _ Hx).
  assert (v ≠ []) as Hne by (intros ->; simpl in Ht; lia).
  pose proof (sum_exp_pos v Hne). pose proof (exp_pos x).
  unfold Rdiv. rewrite ln_mult, ln_Rinv, ln_exp; [lra|done|done|].
  by apply Rinv_0_lt_compat.
Qed.

(** A target outside the scores raises, unless it is the ignored one. *)
Lemma cross_entropy_out_of_range v (t : Z) :
  t ≠ Torch.ignore_index → ¬ (0 ≤ t < Z.of_nat (length v)) →
  is_Raise (Torch.cross_entropy v t).
Proof.
  intros Hig Ht. unfold Torch.cross_entropy.
  rewrite bool_decide_eq_false_2 by done.
  case_bool_decide; [|done].
  rewrite lookup_ge_None_2; [done|lia].
Qed.

Lemma cross_entropy_raises_iff v (t : Z) :
  is_Raise (Torch.cross_entropy v t)
  ↔ t ≠ Torch.ignore_index ∧ ¬ (0 ≤ t < Z.of_nat (length v)).
Proof.
  split.
  - intros Hr. split.
    + intros ->. unfold Torch.cross_entropy in Hr.
      by rewrite bool_decide_eq_true_2 in Hr.
    + intros Ht. by rewrite cross_entropy_in_range in Hr.
  - intros [? ?]. by apply cross_entropy_out_of_range.
Qed.

Lemma sum_list_app (l1 l2 : list R) :
  sum_list (l1 ++ l2) = (sum_list l1 + sum_list l2)%R.
Proof.
  unfold sum_list. induction l1 as [|x l1 IH]; simpl; [lra|]. rewrite IH. lra.
Qed.

Lemma well_labelled_lookup logits stresses syll i :
  well_labelled logits stresses syll → (i < length logits)%nat →
  ∃ L s k, logits !! i = Some L ∧ stresses !! i = Some s ∧ syll !! i = Some k
           ∧ 1 ≤ s ≤ k ∧ k ≤ Z.of_nat (length L).
Proof.
  intros (Hs & Hk & Hall) Hi.
  destruct (lookup_lt_is_Some_2 logits i) as [L HL]; [done|].
  destruct (lookup_lt_is_Some_2 stresses i) as [s Hsi]; [lia|].
  destruct (lookup_lt_is_Some_2 syll i) as [k Hki]; [lia|].
  exists L, s, k. split; [done|]. split; [done|]. split; [done|].
  rewrite Forall_lookup in Hall. apply (Hall i (L, (s, k))).
  rewrite !lookup_zip_with, HL, Hsi, Hki. done.
Qed.

(** One round of the loop on a well-labelled example. *)
Lemma loss_round logits stresses syll i acc :
  well_labelled logits stresses syll → (i < length logits)%nat →
  loss_step logits stresses syll (Torch.Fin acc) i
  = Ok (Torch.Fin (acc + example_loss logits stresses syll i)).
Proof.
  intros Hwl Hi.
  destruct (well_labelled_lookup _ _ _ _ Hwl Hi) as (L & s & k & HL & Hs & Hk & Hsk & HkL).
  unfold loss_step, Torch.item, example_loss, loss_example. rewrite Hk, Hs. simpl.
  rewrite (list_lookup_total_correct _ _ _ HL),
          (list_lookup_total_correct _ _ _ Hs),
          (list_lookup_total_correct _ _ _ Hk).
  rewrite slice_to_nonneg by lia.
  rewrite cross_entropy_in_range; [done|].
  rewrite length_take. lia.
Qed.

Lemma loss_loop logits stresses syll m :
  well_labelled logits stresses syll → (m ≤ length logits)%nat →
  for_each (loss_step logits stresses syll) (Torch.Fin 0) (seq 0 m)
  = Ok (Torch.Fin (sum_list (example_loss logits stresses syll <$> seq 0 m))).
Proof.
  intros Hwl. induction m as [|m IH]; intros Hm.
  - done.
  - rewrite seq_S, for_each_snoc, IH by lia.
    change (0 + m)%nat with m.
    change (loss_step logits stresses syll
              (Torch.Fin (sum_list (example_loss logits stresses syll <$> seq 0 m))) m
            = Ok (Torch.Fin (sum_list (example_loss logits stresses syll
                                         <$> (seq 0 m ++ [m]))))).
    rewrite loss_round by (done || lia).
    rewrite fmap_app, sum_list_app. do 2 f_equal. unfold sum_list. simpl. lra.
Qed.

(** The value of the masked loss on a well-labelled, non-empty batch. *)
Lemma masked_loss_value logits stresses syll :
  logits ≠ [] → well_labelled logits stresses syll →
  masked_cross_entropy_loss logits stresses syll
  = Ok (Torch.Fin (mean (example_loss logits stresses syll
                           <$> seq 0 (length logits)))).
Proof.
  intros Hne Hwl. unfold masked_cross_entropy_loss.
  rewrite loss_loop by done. simpl.
  rewrite bool_decide_eq_false_2 by (by destruct logits).
  unfold mean. by rewrite length_fmap, length_seq.
Qed.

End LossFacts.

Section MaskFacts.

Implicit Types (L : list R) (logits : list (list R)) (stresses syll : list Z).

(** A batch whose rows agree with a well-labelled one on every valid
    prefix is well-labelled too, with the same per-example losses. *)
Lemma well_labelled_prefix logits logits' stresses syll :
  well_labelled logits stresses syll →
  length logits' = length logits →
  (∀ i L L' k, logits !! i = Some L → logits' !! i = Some L' →
     syll !! i = Some k → take (Z.to_nat k) L' = take (Z.to_nat k) L) →
  well_labelled logits' stresses syll
  ∧ ∀ i, (i < length logits)%nat →
      example_loss logits' stresses syll i = example_loss logits stresses syll i.
Proof.
  intros Hwl Hlen Hpre. split.
  - destruct Hwl as (Hs & Hk & Hall). split; [lia|]. split; [lia|].
    apply Forall_lookup. intros i [L' [s k]] Hi.
    apply lookup_zip_with_Some in Hi as (L0 & sk & Heq & HL' & Hsk).
    apply lookup_zip_with_Some in Hsk as (s0 & k0 & -> & Hsi & Hki).
    injection Heq as -> -> ->.
    destruct (lookup_lt_is_Some_2 logits i) as [L HL].
    { apply lookup_lt_Some in HL'. lia. }
    rewrite Forall_lookup in Hall. specialize (Hall i (L, (s0, k0))). simpl in *.
    destruct Hall as [Hsk HkL].
    { rewrite !lookup_zip_with, HL, Hsi, Hki. done. }
    split; [done|].
    specialize (Hpre i L L0 k0 HL HL' Hki). apply (f_equal length) in Hpre.
    rewrite !length_take in Hpre. lia.
  - intros i Hi.
    destruct (well_labelled_lookup _ _ _ _ Hwl Hi) as (L & s & k & HL & Hs & Hk & _).
    destruct (lookup_lt_is_Some_2 logits' i) as [L' HL']; [lia|].
    unfold example_loss.
    rewrite (list_lookup_total_correct _ _ _ HL), (list_lookup_total_correct _ _ _ HL'),
            (list_lookup_total_correct _ _ _ Hk).
    by rewrite (Hpre i L L' k).
Qed.

Lemma fmap_seq_ext {A} (f g : nat → A) n :
  (∀ i, (i < n)%nat → f i = g i) → f <$> seq 0 n = g <$> seq 0 n.
Proof.
  intros Hfg. apply list_eq. intros i. rewrite !list_lookup_fmap.
  destruct (seq 0 n !! i) as [j|] eqn:Hj; [|done]. simpl. f_equal.
  apply lookup_seq in Hj as [-> Hlt]. by apply Hfg.
Qed.

Lemma masked_loss_prefix logits logits' stresses syll :
  logits ≠ [] → well_labelled logits stresses syll →
  length logits' = length logits →
  (∀ i L L' k, logits !! i = Some L → logits' !! i = Some L' →
     syll !! i = Some k → take (Z.to_nat k) L' = take (Z.to_nat k) L) →
  masked_cross_entropy_loss logits' stresses syll
  = masked_cross_entropy_loss logits stresses syll.
Proof.
  intros Hne Hwl Hlen Hpre.
  destruct (well_labelled_prefix _ _ _ _ Hwl Hlen Hpre) as [Hwl' Hex].
  rewrite !masked_loss_value; [|done|done| |done].
  - rewrite Hlen. do 3 f_equal. by apply fmap_seq_ext.
  - intros ->. by destruct logits.
Qed.

Lemma derivable_pt_lim_constant (f : R → R) (c x0 : R) :
  (∀ x, f x = c) → derivable_pt_lim f x0 0%R.
Proof.
  intros Hf eps Heps. exists (mkposreal 1 Rlt_0_1). intros h Hh _.
  rewrite !Hf. replace ((c - c) / h - 0)%R with 0%R by (by field).
  by rewrite Rabs_R0.
Qed.

End MaskFacts.

(** C3. On a non-empty batch whose labels lie in [[1, k_i]] and whose
    logit rows are at least [k_i] wide, the masked loss is the arithmetic
    mean of the categorical cross-entropies between the first [k_i] logits
    of each row and the target [s_i - 1]. Logits at indices [>= k_i] are
    excluded: a batch that agrees on every valid prefix has the same loss,
    and the partial derivative of the loss in any excluded logit is 0. *)
Theorem masked_loss_spec (logits : list (list R)) (stresses syll : list Z) :
  logits ≠ [] → well_labelled logits stresses syll →
  masked_cross_entropy_loss logits stresses syll
  = Ok (Torch.Fin (mean (example_loss logits stresses syll
                           <$> seq 0 (length logits))))
  ∧ (∀ logits', length logits' = length logits →
       (∀ i L L' k, logits !! i = Some L → logits' !! i = Some L' →
          syll !! i = Some k → take (Z.to_nat k) L' = take (Z.to_nat k) L) →
       masked_cross_entropy_loss logits' stresses syll
       = masked_cross_entropy_loss logits stresses syll)
  ∧ (∀ i j L k x0, logits !! i = Some L → syll !! i = Some k →
       (Z.to_nat k ≤ j)%nat →
       derivable_pt_lim
         (λ x, loss_value (masked_cross_entropy_loss
                             (<[i := <[j := x]> L]> logits) stresses syll))
         x0 0%R).
Proof.
  intros Hne Hwl. split; [by apply masked_loss_value|].
  assert (Hprefix : ∀ logits', length logits' = length logits →
       (∀ i L L' k, logits !! i = Some L → logits' !! i = Some L' →
          syll !! i = Some k → take (Z.to_nat k) L' = take (Z.to_nat k) L) →
       masked_cross_entropy_loss logits' stresses syll
       = masked_cross_entropy_loss logits stresses syll).
  { intros logits' Hlen Hpre. by apply masked_loss_prefix. }
  split; [done|].
  intros i j L k x0 HL Hk Hj.
  apply (derivable_pt_lim_constant _
           (loss_value (masked_cross_entropy_loss logits stresses syll))).
  intros x. f_equal. apply Hprefix; [by rewrite length_insert|].
  intros i' L1 L2 k' HL1 HL2 Hk'.
  destruct (decide (i' = i)) as [->|Hne'].
  - rewrite list_lookup_insert_eq in HL2 by (by eapply lookup_lt_Some).
    injection HL2 as <-. assert (L1 = L) as -> by congruence.
    assert (k' = k) as -> by congruence.
    by apply take_insert_ge.
  - rewrite list_lookup_insert_ne in HL2 by done. congruence.
Qed.

Lemma masked_loss_spec_witness :
  masked_cross_entropy_loss example_batch_logits [1; 2] [2; 3]
  = Ok (Torch.Fin (mean (example_loss example_batch_logits [1; 2] [2; 3]
                           <$> seq 0 2))).
Proof.
  apply (masked_loss_spec example_batch_logits [1; 2] [2; 3]).
  - discriminate.
  - split; [reflexivity|]. split; [reflexivity|].
    repeat constructor; simpl; lia.
Defined.

(** ** A syllable count beyond the class count *)

(** C10. When the syllable count [k] exceeds the width [C >= 1] of the
    logit row, the slice is the whole row: decoding returns one plus the
    first maximum of all [C] logits, a value in [[1, C]]; the loss of an
    example labelled [s >= 1] is the cross-entropy over the whole row and
    raises exactly when the target [s - 1] is [>= C]. Both behave as they
    do for [k = C], so neither notices that [k > C]. *)
Theorem oversized_syllable_count (L : list R) (k s : Z) :
  L ≠ [] → Z.of_nat (length L) < k → 1 ≤ s →
  Torch.slice_to L k = L
  ∧ (∃ j : nat, first_max L j
                ∧ decode L k = Ok (1 + Z.of_nat j)
                ∧ 1 ≤ 1 + Z.of_nat j ≤ Z.of_nat (length L))
  ∧ (is_Raise (loss_example L s k) ↔ Z.of_nat (length L) ≤ s - 1)
  ∧ loss_example L s k = Torch.cross_entropy L (s - 1)
  ∧ decode L k = decode L (Z.of_nat (length L))
  ∧ loss_example L s k = loss_example L s (Z.of_nat (length L)).
Proof.
  intros Hne Hk Hs.
  assert (Hslice : Torch.slice_to L k = L) by (apply slice_to_oversized; lia).
  assert (Hslice' : Torch.slice_to L (Z.of_nat (length L)) = L)
    by (apply slice_to_oversized; lia).
  split; [done|]. split; [|split; [|split; [|split]]].
  - destruct (argmax_first_max L Hne) as (j & Hj & Hfm).
    exists j. split; [done|]. split.
    + unfold decode, decode0. rewrite Hslice, Hj. simpl. f_equal. lia.
    + apply first_max_lt_length in Hfm. lia.
  - unfold loss_example. rewrite Hslice, cross_entropy_raises_iff.
    unfold Torch.ignore_index. lia.
  - unfold loss_example. by rewrite Hslice.
  - unfold decode, decode0. by rewrite Hslice, Hslice'.
  - unfold loss_example. by rewrite Hslice, Hslice'.
Qed.

Lemma oversized_syllable_count_witness :
  Torch.slice_to example_logits 9 = example_logits
  ∧ ¬ is_Raise (loss_example example_logits 6 9)
  ∧ is_Raise (loss_example example_logits 7 9).
Proof.
  assert (Hne : example_logits ≠ []) by discriminate.
  assert (Hk : Z.of_nat (length example_logits) < 9) by (simpl; lia).
  destruct (oversized_syllable_count example_logits 9 6 Hne Hk ltac:(lia))
    as (Hslice & _ & Hraise6 & _).
  destruct (oversized_syllable_count example_logits 9 7 Hne Hk ltac:(lia))
    as (_ & _ & Hraise7 & _).
  split; [exact Hslice|]. split.
  - intros Hr. apply Hraise6 in Hr. simpl in Hr. lia.
  - apply Hraise7. simpl. lia.
Defined.

(** ** Data-integrity errors *)

Section IntegrityFacts.

Implicit Types (L : list R) (s k : Z).

Lemma loss_example_raises L s k :
  0 ≤ k → s ≠ Torch.ignore_index + 1 → ill_labelled s k →
  is_Raise (loss_example L s k).
Proof.
  intros Hk Hs Hbad. unfold loss_example.
  apply cross_entropy_out_of_range; [lia|].
  rewrite slice_to_nonneg by done. rewrite length_take.
  destruct Hbad as [->|Hbad]; simpl; lia.
Qed.

Lemma decode_zero_raises L : is_Raise (decode0 L 0) ∧ is_Raise (decode L 0).
Proof.
  unfold decode, decode0. rewrite slice_to_nonneg by done.
  change (Z.to_nat 0) with 0%nat. by rewrite take_0.
Qed.

Lemma loss_step_raises logits stresses syll i s k acc :
  stresses !! i = Some s → syll !! i = Some k →
  0 ≤ k → s ≠ Torch.ignore_index + 1 → ill_labelled s k →
  is_Raise (loss_step logits stresses syll acc i).
Proof.
  intros Hs Hk H0 Hig Hbad. unfold loss_step, Torch.item. rewrite Hk, Hs. simpl.
  pose proof (loss_example_raises (logits !!! i) s k H0 Hig Hbad) as Hr.
  by destruct (loss_example (logits !!! i) s k).
Qed.

Lemma masked_loss_raises (logits : list (list R)) stresses syll i s k :
  (i < length logits)%nat → stresses !! i = Some s → syll !! i = Some k →
  0 ≤ k → s ≠ Torch.ignore_index + 1 → ill_labelled s k →
  is_Raise (masked_cross_entropy_loss logits stresses syll).
Proof.
  intros Hi Hs Hk H0 Hig Hbad. unfold masked_cross_entropy_loss.
  pose proof (for_each_raises (loss_step logits stresses syll) (Torch.Fin 0)
                (seq 0 (length logits)) i) as Hr.
  destruct (for_each _ _ _); simpl; [|done]. exfalso. apply Hr.
  - apply elem_of_seq. lia.
  - intros acc. by eapply loss_step_raises.
Qed.

End IntegrityFacts.

(** ** The forward pass and padding *)

Section ForwardFacts.

Context `{backend : Backend}.

Abbreviation Model := (StressModel weights).

Lemma map_result_lookup {A B} (f : A → result B) (l : list A) l' i x :
  map_result f l = Ok l' → l !! i = Some x →
  ∃ y, f x = Ok y ∧ l' !! i = Some y.
Proof.
  revert l' i. induction l as [|a l IH]; intros l' i Hm Hi; [done|].
  simpl in Hm. destruct (f a) as [b|] eqn:Hfa; simpl in Hm; [|done].
  destruct (map_result f l) as [bs|] eqn:Hrest; simpl in Hm; [|done].
  injection Hm as <-. destruct i as [|i]; simpl in *.
  - injection Hi as <-. by exists b.
  - by apply IH.
Qed.

Lemma map_result_length {A B} (f : A → result B) (l : list A) l' :
  map_result f l = Ok l' → length l' = length l.
Proof.
  revert l'. induction l as [|a l IH]; intros l' Hm; simpl in Hm.
  - by injection Hm as <-.
  - destruct (f a); simpl in Hm; [|done].
    destruct (map_result f l); simpl in Hm; [|done].
    injection Hm as <-. simpl. f_equal. by apply IH.
Qed.

Lemma map_result_total {A B} (f : A → result B) (g : A → B) (l : list A) :
  Forall (λ x, f x = Ok (g x)) l → map_result f l = Ok (g <$> l).
Proof.
  induction 1 as [|x l Hx _ IH]; [done|]. simpl. by rewrite Hx, IH.
Qed.

Lemma embedding_rows (m : Model) (row : list Z) e :
  embedding m row = Ok e → e = embedding_row (params m) <$> row.
Proof.
  unfold embedding. revert e. induction row as [|i row IH]; intros e He; simpl in He.
  - by injection He as <-.
  - case_bool_decide; simpl in He; [|done].
    destruct (map_result _ row) as [e'|] eqn:Hrest; simpl in He; [|done].
    injection He as <-. simpl. f_equal. by apply IH.
Qed.

Lemma embedding_total (m : Model) (row : list Z) :
  Forall (λ i, 0 ≤ i < vocab_size m) row →
  embedding m row = Ok (embedding_row (params m) <$> row).
Proof.
  intros Hrow. unfold embedding. apply map_result_total.
  eapply Forall_impl; [exact Hrow|]. intros i Hi. simpl.
  by rewrite bool_decide_eq_true_2.
Qed.

Lemma pack_lookup (embedded : list (list vec)) lengths packed i e n :
  pack_padded_sequence embedded lengths = Ok packed →
  embedded !! i = Some e → lengths !! i = Some n →
  packed !! i = Some (take n e).
Proof.
  revert lengths packed i.
  induction embedded as [|row embedded IH]; intros lengths packed i Hp He Hn; [done|].
  destruct lengths as [|n0 lengths]; [done|]. simpl in Hp.
  case_bool_decide; [|done].
  destruct (pack_padded_sequence embedded lengths) as [rest|] eqn:Hrest;
    simpl in Hp; [|done].
  injection Hp as <-. destruct i as [|i]; simpl in *.
  - congruence.
  - by eapply IH.
Qed.

Lemma pack_total (embedded : list (list vec)) lengths :
  Forall2 (λ row n, (0 < n ≤ length row)%nat) embedded lengths →
  pack_padded_sequence embedded lengths
  = Ok (zip_with (λ row n, take n row) embedded lengths).
Proof.
  induction 1 as [|row n embedded lengths Hn _ IH]; [done|]. simpl.
  by rewrite bool_decide_eq_true_2, IH.
Qed.

Lemma dp_eval (m : Model) g hs : training m = false → dp m g hs = (hs, g).
Proof.
  intros Hm. induction hs as [|h hs IH]; simpl; [done|]. by rewrite Hm, IH.
Qed.

(** Row [i] of the output depends on the first [lengths[i]] entries of
    row [i] of the input and on nothing else. *)
Lemma forward_row (m : Model) g x lengths out g' i row n :
  bidirectional m = true ∨ training m = false →
  forward m g x lengths = Ok (out, g') →
  x !! i = Some row → lengths !! i = Some n →
  out !! i = Some (word_logits m (take n row)).
Proof.
  intros Hmode Hf Hrow Hn. unfold forward in Hf.
  destruct (map_result (embedding m) x) as [embedded|] eqn:Hemb; simpl in Hf; [|done].
  destruct (pack_padded_sequence embedded lengths) as [packed|] eqn:Hpack;
    simpl in Hf; [|done].
  destruct (map_result_lookup _ _ _ _ _ Hemb Hrow) as (e & He & Hei).
  apply embedding_rows in He. subst e.
  pose proof (pack_lookup _ _ _ _ _ _ Hpack Hei Hn) as Hpi.
  rewrite <- fmap_take in Hpi. unfold word_logits.
  destruct (bidirectional m) eqn:Hbi.
  - injection Hf as <- <-. by rewrite list_lookup_fmap, Hpi.
  - destruct Hmode as [|Heval]; [done|]. rewrite dp_eval in Hf by done.
    injection Hf as <- <-. by rewrite !list_lookup_fmap, Hpi.
Qed.

Lemma pad_sequence_lookup (seqs : list (list Z)) i s :
  seqs !! i = Some s →
  ∃ p, Torch.pad_sequence seqs !! i = Some (s ++ replicate p 0%Z)
       ∧ (length s ≤ length (s ++ replicate p 0%Z))%nat.
Proof.
  intros Hs. unfold Torch.pad_sequence. rewrite list_lookup_fmap, Hs. simpl.
  eexists. split; [done|]. rewrite length_app. lia.
Qed.

Lemma pad_sequence_width (seqs : list (list Z)) s :
  s ∈ seqs → (length s ≤ foldr (λ s m, Nat.max (length s) m) 0 seqs)%nat.
Proof.
  induction seqs as [|s0 seqs IH]; intros Hs; [by apply elem_of_nil in Hs|].
  simpl. apply elem_of_cons in Hs as [->|Hs]; [lia|]. specialize (IH Hs). lia.
Qed.


Lemma collate_fn_ok (items : list Item) b :
  collate_fn items = Ok b →
  items ≠ []
  ∧ b_id b = item_id <$> items
  ∧ b_encoded b = Torch.pad_sequence (item_encoded <$> items)
  ∧ b_lengths b = length <$> (item_encoded <$> items)
  ∧ b_num_syllables b = item_num_syllables <$> items.
Proof.
  unfold collate_fn. intros Hb. destruct items as [|b0 items]; [done|].
  destruct (match item_stress b0 with Some _ => _ | None => _ end);
    simpl in Hb; [|done].
  by injection Hb as <-.
Qed.

(** The forward pass accepts every collated batch of encodable items. *)
Lemma forward_collated (m : Model) g (items : list Item) b :
  bidirectional m = true ∨ training m = false →
  1 ≤ vocab_size m → Forall (encodable m) items → collate_fn items = Ok b →
  ∃ out, forward m g (b_encoded b) (b_lengths b) = Ok (out, g).
Proof.
  intros Hmode HV Henc Hb.
  apply collate_fn_ok in Hb as (_ & _ & -> & -> & _). unfold forward.
  set (seqs := item_encoded <$> items).
  assert (Hseqs : Forall (λ s, s ≠ [] ∧ Forall (λ i, 0 ≤ i < vocab_size m) s) seqs).
  { unfold seqs. apply Forall_fmap. eapply Forall_impl; [exact Henc|]. by intros it. }
  set (width := foldr (λ s m, Nat.max (length s) m) 0%nat seqs).
  assert (Hpad : Torch.pad_sequence seqs
                 = (λ s, s ++ replicate (width - length s) 0%Z) <$> seqs) by done.
  rewrite (map_result_total _ (λ row, embedding_row (params m) <$> row)).
  2:{ rewrite Hpad. apply Forall_fmap. eapply Forall_impl; [exact Hseqs|].
      intros s [_ Hs]. simpl. apply embedding_total.
      apply Forall_app. split; [done|]. apply Forall_replicate. lia. }
  simpl. rewrite pack_total.
  2:{ rewrite Hpad, <- list_fmap_compose, Forall2_fmap.
      apply Forall_Forall2_diag. eapply Forall_impl; [exact Hseqs|].
      intros s [Hne _]. simpl. rewrite length_fmap, length_app.
      destruct s; [done|simpl; lia]. }
  simpl. destruct (bidirectional m) eqn:Hbi; [by eexists|].
  destruct Hmode as [|Heval]; [done|]. rewrite dp_eval by done. by eexists.
Qed.



Lemma embedded_lengths (m : Model) (ws : list (list Z)) es :
  map_result (embedding m) ws = Ok es →
  Forall2 (λ e w, length e = length w) es ws.
Proof.
  revert es. induction ws as [|w ws IH]; intros es He; simpl in He.
  - injection He as <-. constructor.
  - bind_ok He. bind_ok He. injection He as <-. constructor; [|by apply IH].
    apply embedding_rows in E as ->. by rewrite length_fmap.
Qed.



End ForwardFacts.

(** ** Model shape, checkpoints and the two run modes *)

Section ModelFacts.

Context `{backend : Backend}.

Lemma param_shapes_inj (m1 m2 : StressModel weights) :
  param_shapes m1 = param_shapes m2 → shape m1 = shape m2.
Proof.
  unfold param_shapes, shape, lstm_shapes.
  destruct (bidirectional m1), (bidirectional m2); simpl; intros Heq;
    simplify_eq;
    assert (m_hidden_size m1 = m_hidden_size m2) by lia; congruence.
Qed.

Lemma shape_param_shapes (m1 m2 : StressModel weights) :
  shape m1 = shape m2 → param_shapes m1 = param_shapes m2.
Proof.
  unfold shape, param_shapes. intros [= -> -> -> -> ->]. done.
Qed.

Lemma shape_set_params w (m : StressModel weights) : shape (set_params w m) = shape m.
Proof. done. Qed.

Lemma shape_set_training b (m : StressModel weights) : shape (set_training b m) = shape m.
Proof. done. Qed.

(** Two models of one shape with the same parameters are the same model
    once both are put in evaluation mode. *)
Lemma eval_mode_eq (m1 m2 : StressModel weights) :
  shape m1 = shape m2 → params m1 = params m2 →
  set_training false m1 = set_training false m2.
Proof.
  unfold shape, set_training. intros [= -> -> -> -> ->] ->. done.
Qed.

Lemma StressModel_init_ok nb g V E H C m g' :
  StressModel_init nb g V E H C = Ok (m, g') →
  shape m = (V, E, H, C, is_bidirectional nb)
  ∧ 1 ≤ V ∧ 0 ≤ E ∧ 0 ≤ H ∧ 0 ≤ C.
Proof.
  unfold StressModel_init. case_bool_decide; [|done].
  destruct (init_params g V E H C (is_bidirectional nb)) as [w g1].
  intros [= <- <-]. done.
Qed.

Lemma StressModel_init_total nb g V E H C :
  1 ≤ V → 0 ≤ E → 0 ≤ H → 0 ≤ C →
  ∃ m g', StressModel_init nb g V E H C = Ok (m, g').
Proof.
  intros. unfold StressModel_init. rewrite bool_decide_eq_true_2 by done.
  destruct (init_params g V E H C (is_bidirectional nb)). by eexists _, _.
Qed.

Lemma load_state_dict_ok (m m' : StressModel weights) sd :
  load_state_dict m sd = Ok m' →
  sd_shapes sd = param_shapes m ∧ m' = set_params (sd_data sd) m.
Proof.
  unfold load_state_dict. case_bool_decide; [|done]. by intros [= <-].
Qed.

Lemma load_state_dict_mismatch (m : StressModel weights) sd :
  sd_shapes sd ≠ param_shapes m → load_state_dict m sd = Raise RuntimeError.
Proof.
  intros. unfold load_state_dict. by rewrite bool_decide_eq_false_2.
Qed.

Lemma for_each_invariant {A S} (P : S → Prop) (f : S → A → result S) s l s' :
  P s → (∀ s x s', P s → f s x = Ok s' → P s') →
  for_each f s l = Ok s' → P s'.
Proof.
  intros Hs Hstep. revert s Hs. induction l as [|x l IH]; intros s Hs Hl; simpl in Hl.
  - by injection Hl as <-.
  - bind_ok Hl. eapply IH; [|exact Hl]. by eapply Hstep.
Qed.

Lemma py_max_ok (l : list Z) M :
  py_max l = Ok M → M ∈ l ∧ Forall (λ x, x ≤ M) l.
Proof.
  destruct l as [|x l]; [done|]. simpl. intros [= <-].
  assert (Hgen : ∀ l a, (foldl Z.max a l = a ∨ foldl Z.max a l ∈ l)
                        ∧ a ≤ foldl Z.max a l
                        ∧ Forall (λ x, x ≤ foldl Z.max a l) l).
  { clear. induction l as [|y l IH]; intros a; simpl.
    - split; [by left|]. split; [lia|constructor].
    - destruct (IH (a `max` y)) as (Hin & Hle & Hall).
      split; [|split; [lia|constructor; [lia|done]]].
      destruct Hin as [Heq|Hin]; [|right; by right].
      rewrite Heq. destruct (Z.max_spec a y) as [[_ ->]|[_ ->]];
        [right; by left|by left]. }
  destruct (Hgen l x) as (Hin & Hle & Hall). split.
  - destruct Hin as [->|Hin]; [by left|by right].
  - by constructor.
Qed.

Lemma py_max_total (l : list Z) : l ≠ [] → ∃ M, py_max l = Ok M.
Proof. destruct l; [done|]. by eexists. Qed.

Lemma train_model_shape model dataloader opt g st loss :
  train_model model dataloader opt g = Ok (st, loss) →
  shape (ts_model st) = shape model.
Proof.
  unfold train_model. intros Ht. bind_ok Ht.
  destruct (bool_decide (dataloader = [])); [done|]. injection Ht as <- _.
  eapply (for_each_invariant (λ st, shape (ts_model st) = shape model));
    [| |exact E]; [done|].
  intros s batch s' Hs Hstep. unfold train_step in Hstep.
  bind_ok Hstep. destruct a0 as [logits g1]. simpl in Hstep.
  bind_ok Hstep. bind_ok Hstep.
  destruct (adam_step (ts_opt s) (ts_model s) batch) as [o' w'].
  injection Hstep as <-. done.
Qed.

Lemma evaluate_model_ok model dataloader g m' acc :
  evaluate_model model dataloader g = Ok (m', acc) →
  m' = set_training false model.
Proof.
  unfold evaluate_model. intros He. bind_ok He. destruct a as [correct total].
  simpl in He. destruct (bool_decide (total = 0)); [done|]. by injection He as <- _.
Qed.

Lemma epoch_loop_shape n ds bs model opt g m' g' :
  epoch_loop n ds bs model opt g = Ok (m', g') → shape m' = shape model.
Proof.
  revert model opt g. induction n as [|n IH]; intros model opt g Hl; simpl in Hl.
  - by injection Hl as <- _.
  - destruct (shuffle g (sequential ds)) as [order g1].
    bind_ok Hl. bind_ok Hl. destruct a0 as [st train_loss]. simpl in Hl.
    bind_ok Hl. bind_ok Hl. destruct a1 as [model1 val_acc]. simpl in Hl.
    apply IH in Hl. rewrite Hl.
    apply evaluate_model_ok in E2 as ->. rewrite shape_set_training.
    by eapply train_model_shape.
Qed.

Lemma StressDataset_init_test (data : list Row) c2i :
  StressDataset_init data (Some c2i) ModeTest
  = Ok {| mode := ModeTest; words := row_word <$> data; stresses := None;
          num_syllables := row_num_syllables <$> data;
          ids := row_id <$> data; char2idx := c2i;
          encoded_words := (λ w, Vocab.encode_word w c2i) <$> (row_word <$> data) |}.
Proof. done. Qed.

Lemma StressDataset_init_columns (data : list Row) vocab md ds :
  StressDataset_init data vocab md = Ok ds →
  num_syllables ds = row_num_syllables <$> data
  ∧ words ds = row_word <$> data
  ∧ (vocab = None → char2idx ds = (Vocab.build_vocab (row_word <$> data)).1).
Proof.
  unfold StressDataset_init. intros Hd. bind_ok Hd. injection Hd as <-. simpl.
  split; [done|]. split; [done|]. by intros ->.
Qed.

(** What the first lines of the train branch establish. *)
Lemma train_setup_ok nb args train_csv g ds m g' :
  train_setup nb args train_csv g = Ok (ds, m, g') →
  StressDataset_init train_csv None ModeTrain = Ok ds
  ∧ train_num_classes nb ds = Ok (num_classes m)
  ∧ shape m = (Vocab.len (char2idx ds), embed_dim args, hidden_size args,
               num_classes m, is_bidirectional nb)
  ∧ 0 < batch_size args
  ∧ 1 ≤ Vocab.len (char2idx ds) ∧ 0 ≤ embed_dim args ∧ 0 ≤ hidden_size args
  ∧ 0 ≤ num_classes m.
Proof.
  unfold train_setup. intros Hs. bind_ok Hs. bind_ok Hs.
  case_bool_decide; simpl in Hs; [done|].
  bind_ok Hs. destruct a1 as [m0 g0]. simpl in Hs. injection Hs as <- <- <-.
  apply StressModel_init_ok in E1 as (Hshape & ? & ? & ? & ?).
  assert (num_classes m0 = a0) as <- by (by injection Hshape).
  repeat split; try done; try lia.
Qed.

Lemma main_train_ok nb args train_csv wd m wd' :
  main_train nb args train_csv wd = Ok (m, wd') →
  ∃ ds m0 g0,
    train_setup nb args train_csv (rng wd) = Ok (ds, m0, g0)
    ∧ shape m = shape m0
    ∧ files wd' !! model_path args
      = Some {| model_state_dict := state_dict m; ckpt_char2idx := char2idx ds |}.
Proof.
  unfold main_train. intros Hm. bind_ok Hm. destruct a as [[ds m0] g0]. simpl in Hm.
  bind_ok Hm. destruct a as [m1 g1]. simpl in Hm. injection Hm as <- <-.
  exists ds, m0, g0. split; [done|]. split.
  - by eapply epoch_loop_shape.
  - simpl. apply lookup_insert_eq.
Qed.

End ModelFacts.

(** ** Running the notebooks on a small corpus *)

Section Runs.

#[local] Existing Instance integer_backend.

Example train_setup_runs :
  ∃ ds m g, train_setup Test example_args example_train_csv example_generator = Ok (ds, m, g)
            ∧ shape m = (9, 4, 3, 3, true).
Proof.
  destruct (train_setup Test example_args example_train_csv example_generator)
    as [[[ds m] g]|] eqn:E; [|by vm_compute in E].
  exists ds, m, g. split; [done|].
  vm_compute in E. by injection E as <- <- <-.
Qed.

Example main_train_runs :
  ∃ m wd, main_train Test example_args example_train_csv example_world = Ok (m, wd)
          ∧ shape m = (9, 4, 3, 3, true).
Proof.
  destruct (main_train Test example_args example_train_csv example_world)
    as [[m wd]|] eqn:E; [|by vm_compute in E].
  exists m, wd. split; [done|].
  vm_compute in E. by injection E as <- <-.
Qed.

End Runs.

Section PredictFacts.

Context `{backend : Backend}.

Lemma torch_load_ok path (wd : World) ckpt :
  torch_load path wd = Ok ckpt ↔ files wd !! path = Some ckpt.
Proof.
  unfold torch_load. destruct (files wd !! path); split; congruence.
Qed.

Lemma restore_model_ok nb args ckpt C g m g' :
  restore_model nb args ckpt C g = Ok (m, g') ↔
  ∃ m0, StressModel_init nb g (Vocab.len (ckpt_char2idx ckpt))
          (embed_dim args) (hidden_size args) C = Ok (m0, g')
        ∧ load_state_dict m0 (model_state_dict ckpt) = Ok m.
Proof.
  unfold restore_model. split.
  - intros Hr. bind_ok Hr. destruct a as [m0 g0]. simpl in Hr. bind_ok Hr.
    injection Hr as <- <-. by exists m0.
  - intros (m0 & -> & Hl). simpl. by rewrite Hl.
Qed.

Lemma submission_ok ids_all ws preds rows :
  submission ids_all ws preds = Ok rows ↔
  length ids_all = length ws ∧ length ws = length preds
  ∧ rows = zip (zip ids_all ws) preds.
Proof.
  unfold submission. case_bool_decide; split; try done.
  - intros [= <-]. by destruct H.
  - by intros (_ & _ & ->).
  - intros (? & ? & _). by destruct H.
Qed.

(** The predict branch returns exactly when each of its steps does. *)
Lemma main_predict_ok nb args test_csv (wd : World) m rows :
  main_predict nb args test_csv wd = Ok (m, rows) ↔
  ∃ ckpt C g loader ids_all preds,
    files wd !! model_path args = Some ckpt
    ∧ requested_classes nb test_csv = Ok C
    ∧ restore_model nb args ckpt C (rng wd) = Ok (m, g)
    ∧ DataLoader (test_dataset (ckpt_char2idx ckpt) test_csv) (batch_size args)
                 (sequential (test_dataset (ckpt_char2idx ckpt) test_csv))
      = Ok loader
    ∧ predict m loader g = Ok (ids_all, preds)
    ∧ submission ids_all (row_word <$> test_csv) preds = Ok rows.
Proof.
  unfold main_predict. split.
  - intros Hp. bind_ok Hp. apply torch_load_ok in E.
    destruct nb.
    + simpl in Hp.
      bind_ok Hp. bind_ok Hp. bind_ok Hp. destruct a2 as [m1 g1]. simpl in Hp.
      bind_ok Hp. destruct a2 as [ids_all preds]. simpl in Hp. bind_ok Hp.
      injection Hp as <- <-.
      by exists a, a1, g1, a0, ids_all, preds.
    + bind_ok Hp. destruct a0 as [m1 g1]. simpl in Hp.
      bind_ok Hp. bind_ok Hp. destruct a1 as [ids_all preds]. simpl in Hp.
      bind_ok Hp. injection Hp as <- <-.
      by exists a, default_num_classes, g1, a0, ids_all, preds.
  - intros (ckpt & C & g & loader & ids_all & preds & Hf & HC & Hr & Hl & Hp & Hs).
    apply torch_load_ok in Hf. rewrite Hf. simpl. destruct nb; simpl in HC.
    + unfold test_dataset in Hl. rewrite Hl. simpl. rewrite HC. simpl.
      rewrite Hr. simpl. rewrite Hp. simpl. by rewrite Hs.
    + injection HC as <-. rewrite Hr. simpl.
      unfold test_dataset in Hl. rewrite Hl. simpl. rewrite Hp. simpl. by rewrite Hs.
Qed.

(** What a run of the predict branch on a checkpoint written by the train
    branch tells about the two models. *)
Lemma predict_after_train nb args train_csv test_csv (wd0 wd1 : World)
    m_saved m rows :
  main_train nb args train_csv wd0 = Ok (m_saved, wd1) →
  main_predict nb args test_csv wd1 = Ok (m, rows) →
  requested_classes nb test_csv = Ok (num_classes m)
  ∧ shape m = shape m_saved
  ∧ params m = params m_saved.
Proof.
  intros Ht Hp.
  apply main_train_ok in Ht as (ds & m0 & g0 & _ & _ & Hfile).
  apply main_predict_ok in Hp
    as (ckpt & C & g & loader & ids_all & preds & Hf & HC & Hr & _).
  rewrite Hfile in Hf. injection Hf as <-. simpl in Hr.
  apply restore_model_ok in Hr as (m1 & Hinit & Hload).
  apply StressModel_init_ok in Hinit as (Hshape & _).
  apply load_state_dict_ok in Hload as (Hshapes & ->). simpl in Hshapes.
  apply param_shapes_inj in Hshapes.
  rewrite shape_set_params. split; [|split; [done|done]].
  rewrite HC. f_equal. simpl. by injection Hshape.
Qed.

End PredictFacts.

(** ** Class count in train mode *)

(** C8, as stated, fails for the unidirectional notebook: on the example
    corpus, whose largest syllable count is 3, it builds a model with the
    default 6 classes. *)
Lemma train_class_count_counterexample :
  ¬ (∀ (backend : Backend) nb args train_csv g ds m g',
       train_setup nb args train_csv g = Ok (ds, m, g') →
       py_max (row_num_syllables <$> train_csv) = Ok (num_classes m)).
Proof.
  intros Hclaim.
  destruct (train_setup TestCopy1 example_args example_train_csv example_generator)
    as [[[ds m] g]|] eqn:E; [|by vm_compute in E].
  specialize (Hclaim integer_backend _ _ _ _ _ _ _ E).
  apply train_setup_ok in E as (_ & HC & _). simpl in HC.
  injection HC as HC. vm_compute in Hclaim, HC. congruence.
Qed.

(** C8, amended. The model the train branch constructs has, in the
    bidirectional notebook, as many classes as the largest syllable count
    of the training data, hence at least the syllable count of every
    training example; in the unidirectional notebook it has the default 6
    classes whatever the data. Training does not change the class
    count. *)
Theorem train_class_count `{backend : Backend} (nb : Notebook) (args : Args)
    (train_csv : list Row) (g g' : generator) (ds : StressDataset)
    (m : StressModel weights) :
  train_setup nb args train_csv g = Ok (ds, m, g') →
  match nb with
  | Test =>
      py_max (row_num_syllables <$> train_csv) = Ok (num_classes m)
      ∧ Forall (λ r, row_num_syllables r ≤ num_classes m) train_csv
  | TestCopy1 => num_classes m = default_num_classes
  end
  ∧ ∀ (wd wd' : World) m', rng wd = g →
      main_train nb args train_csv wd = Ok (m', wd') →
      num_classes m' = num_classes m.
Proof.
  intros Hs. split.
  - apply train_setup_ok in Hs as (Hds & HC & _).
    apply StressDataset_init_columns in Hds as (Hk & _).
    destruct nb; simpl in HC.
    + rewrite Hk in HC. split; [done|].
      apply py_max_ok in HC as [_ Hall].
      by rewrite Forall_fmap in Hall.
    + by injection HC.
  - intros wd wd' m' <- Ht.
    apply main_train_ok in Ht as (ds1 & m1 & g1 & Hs1 & Hshape & _).
    rewrite Hs in Hs1. injection Hs1 as <- <- <-.
    unfold shape in Hshape. by injection Hshape.
Qed.

Lemma train_class_count_witness :
  ∃ ds (m : @StressModel (@weights integer_backend)) g',
    train_setup Test example_args example_train_csv example_generator
    = Ok (ds, m, g')
    ∧ py_max (row_num_syllables <$> example_train_csv) = Ok (num_classes m)
    ∧ Forall (λ r, row_num_syllables r ≤ num_classes m) example_train_csv.
Proof.
  destruct (train_setup Test example_args example_train_csv example_generator)
    as [[[ds m] g']|] eqn:E; [|by vm_compute in E].
  exists ds, m, g'. split; [reflexivity|].
  exact (proj1 (train_class_count Test example_args example_train_csv
                  example_generator g' ds m E)).
Defined.

(** ** Class count in predict mode *)

Section PredictRuns.

#[local] Existing Instance integer_backend.

(** C1 (failing input). In the bidirectional notebook, after training on
    the example corpus the saved model has 3 classes. On inference data
    whose largest syllable count is 2 the predict branch asks for 2
    classes, a count taken from the inference data and not from the
    checkpoint: the model it constructs has the vocabulary size of the
    saved one but 2 classes, loading the saved parameters into it raises,
    and so does the run. *)
Theorem predict_class_count_failing_input :
  ∃ (m_saved : StressModel weights) ckpt (m0 : StressModel weights) g0,
    main_train Test example_args example_train_csv example_world
    = Ok (m_saved, trained_world)
    ∧ num_classes m_saved = 3
    ∧ files trained_world !! model_path example_args = Some ckpt
    ∧ requested_classes Test example_test_csv = Ok 2
    ∧ StressModel_init Test (rng trained_world)
        (Vocab.len (ckpt_char2idx ckpt)) (embed_dim example_args)
        (hidden_size example_args) 2 = Ok (m0, g0)
    ∧ vocab_size m0 = vocab_size m_saved
    ∧ num_classes m0 = 2
    ∧ load_state_dict m0 (model_state_dict ckpt) = Raise RuntimeError
    ∧ main_predict Test example_args example_test_csv trained_world
      = Raise RuntimeError.
Proof.
  unfold trained_world.
  destruct (main_train Test example_args example_train_csv example_world)
    as [[m wd]|] eqn:E; [|by vm_compute in E].
  destruct (files wd !! model_path example_args) as [ckpt|] eqn:Hck.
  2:{ exfalso. vm_compute in E. injection E as _ <-. by vm_compute in Hck. }
  destruct (StressModel_init Test (rng wd) (Vocab.len (ckpt_char2idx ckpt))
              (embed_dim example_args) (hidden_size example_args) 2)
    as [[m0 g0]|] eqn:Hinit.
  2:{ exfalso. vm_compute in E. injection E as _ <-.
      vm_compute in Hck. injection Hck as <-. by vm_compute in Hinit. }
  exists m, ckpt, m0, g0.
  vm_compute in E. injection E as <- <-.
  vm_compute in Hck. injection Hck as <-.
  vm_compute in Hinit. injection Hinit as <- <-.
  repeat split; by vm_compute.
Qed.

(** The end-to-end scenario: with inference data whose largest syllable
    count is that of the training data, the predict branch returns, and
    the one-syllable word cat is stressed on its only syllable. *)
Example predict_cat :
  ∃ m rows,
    main_predict Test example_args example_test_csv3 trained_world = Ok (m, rows)
    ∧ rows !! 0%nat = Some (7, [99; 97; 116]%N, 1).
Proof.
  destruct (main_predict Test example_args example_test_csv3 trained_world)
    as [[m rows]|] eqn:E; [|by vm_compute in E].
  exists m, rows. split; [done|].
  vm_compute in E. by injection E as <- <-.
Qed.

End PredictRuns.

(** ** Padding never influences the logits *)


Section PaddingRuns.

#[local] Existing Instance integer_backend.


End PaddingRuns.

(** ** Batches of a data loader *)

Section LoaderFacts.

Lemma chunks_aux_join {A} (fuel n : nat) (l : list A) :
  (0 < n)%nat → (length l ≤ fuel)%nat → mjoin (chunks_aux fuel n l) = l.
Proof.
  intros Hn. revert l. induction fuel as [|fuel IH]; intros l Hl.
  - destruct l; [done|simpl in Hl; lia].
  - destruct l as [|x l]; [done|].
    cbn [chunks_aux]. simpl. rewrite IH.
    + apply take_drop.
    + rewrite length_drop. simpl in *. lia.
Qed.

Lemma chunks_join {A} (n : nat) (l : list A) :
  (0 < n)%nat → mjoin (chunks n l) = l.
Proof. intros. by apply chunks_aux_join. Qed.

(** Every element of a list sits at some position of one of its chunks. *)
Lemma chunks_elem_of {A} (n : nat) (l : list A) x :
  (0 < n)%nat → x ∈ l → ∃ group j, group ∈ chunks n l ∧ group !! j = Some x.
Proof.
  intros Hn Hx. rewrite <- (chunks_join n l Hn) in Hx.
  apply list_elem_of_join in Hx as (group & Hxg & Hg).
  apply list_elem_of_lookup in Hxg as [j Hj]. by exists group, j.
Qed.

(** What a batch of the loader holds at a position, for a sampled index. *)
Lemma getitem_ok ds idx it :
  getitem ds idx = Ok it →
  num_syllables ds !! idx = Some (item_num_syllables it)
  ∧ ids ds !! idx = Some (item_id it)
  ∧ encoded_words ds !! idx = Some (item_encoded it)
  ∧ match mode ds with
    | ModeTrain => ∃ sts s, stresses ds = Some sts ∧ sts !! idx = Some s
                            ∧ item_stress it = Some s
    | ModeTest => item_stress it = None
    end.
Proof.
  unfold getitem. intros Hg.
  destruct (ids ds !! idx) as [i|]; [|done].
  destruct (words ds !! idx) as [w|]; [|done].
  destruct (encoded_words ds !! idx) as [e|]; [|done].
  destruct (num_syllables ds !! idx) as [k|]; [|done].
  destruct (mode ds).
  - destruct (stresses ds) as [sts|]; [|done].
    destruct (sts !! idx) as [s|] eqn:Hs; [|done].
    injection Hg as <-. simpl. repeat split; try done. by exists sts, s.
  - by injection Hg as <-.
Qed.

Lemma collate_fn_stress (items : list Item) b j it s :
  collate_fn items = Ok b → items !! j = Some it → item_stress it = Some s →
  Forall (λ it, is_Some (item_stress it)) items →
  ∃ sts, b_stress b = Some sts ∧ sts !! j = Some s.
Proof.
  unfold collate_fn. intros Hb Hj Hs Hall.
  destruct items as [|b0 items]; [done|].
  pose proof (Forall_inv Hall) as [s0 Hs0]. rewrite Hs0 in Hb.
  bind_ok Hb. bind_ok E. injection E as <-. injection Hb as <-. simpl.
  exists a0. split; [done|].
  destruct (map_result_lookup _ _ _ _ _ E0 Hj) as (y & Hy & Hl).
  rewrite Hs in Hy. by injection Hy as <-.
Qed.

Lemma DataLoader_ok ds bs idxs loader :
  DataLoader ds bs idxs = Ok loader →
  0 < bs ∧ map_result (load_group ds) (chunks (Z.to_nat bs) idxs) = Ok loader.
Proof.
  unfold DataLoader. case_bool_decide; [done|]. intros Hl. split; [lia|done].
Qed.

Lemma load_group_ok ds group b :
  load_group ds group = Ok b →
  length (b_id b) = length group
  ∧ length (b_encoded b) = length group
  ∧ length (b_num_syllables b) = length group
  ∧ ∀ j idx, group !! j = Some idx →
      ∃ it, getitem ds idx = Ok it
            ∧ b_num_syllables b !! j = Some (item_num_syllables it)
            ∧ (mode ds = ModeTrain → ∀ s, item_stress it = Some s →
                 ∃ sts, b_stress b = Some sts ∧ sts !! j = Some s).
Proof.
  unfold load_group. intros Hb. bind_ok Hb.
  pose proof (map_result_length _ _ _ E) as Hlen.
  pose proof Hb as Hc. apply collate_fn_ok in Hc as (_ & -> & -> & _ & ->).
  unfold Torch.pad_sequence. rewrite !length_fmap.
  split; [done|]. split; [done|]. split; [done|].
  intros j idx Hj.
  destruct (map_result_lookup _ _ _ _ _ E Hj) as (it & Hit & Hitj).
  exists it. split; [done|]. split; [by rewrite list_lookup_fmap, Hitj|].
  intros Hmode s Hs. eapply collate_fn_stress; [done|done|done|].
  apply Forall_lookup. intros j' it' Hj'.
  assert (∃ idx', group !! j' = Some idx') as [idx' Hidx'].
  { apply lookup_lt_is_Some_2. apply lookup_lt_Some in Hj'. lia. }
  destruct (map_result_lookup _ _ _ _ _ E Hidx') as (it2 & Hit2 & Hit2j).
  assert (it2 = it') as -> by congruence.
  apply getitem_ok in Hit2 as (_ & _ & _ & Hst). rewrite Hmode in Hst.
  destruct Hst as (? & s' & _ & _ & ->). by eexists.
Qed.

(** The rows of a loader cover the sampled indices, in order. *)
Lemma loader_sizes ds (groups : list (list nat)) loader :
  map_result (load_group ds) groups = Ok loader →
  sum_list_with (λ b, length (b_id b)) loader = length (mjoin groups)
  ∧ sum_list_with (λ b, length (b_encoded b)) loader = length (mjoin groups)
  ∧ (b_id <$> loader) = ((λ g, (λ i, default 0 (ids ds !! i)) <$> g) <$> groups).
Proof.
  revert loader. induction groups as [|group groups IH]; intros loader Hl;
    simpl in Hl.
  - by injection Hl as <-.
  - bind_ok Hl. bind_ok Hl. injection Hl as <-.
    destruct (IH _ eq_refl) as (IH1 & IH2 & IH3).
    pose proof E as Hg. apply load_group_ok in Hg as (H1 & H2 & _).
    rewrite !fmap_cons, IH3. simpl. rewrite length_app, IH1, IH2, H1, H2.
    split; [done|]. split; [done|]. f_equal.
    unfold load_group in E. bind_ok E.
    apply collate_fn_ok in E as (_ & -> & _).
    clear -E1. revert a1 E1. induction group as [|i group IHg]; intros its E1;
      simpl in E1.
    + by injection E1 as <-.
    + bind_ok E1. bind_ok E1. injection E1 as <-.
      rewrite !fmap_cons, (IHg _ eq_refl). f_equal.
      apply getitem_ok in E as (_ & -> & _). done.
Qed.

End LoaderFacts.

(** ** The loops of [predict] and [train_model] *)

Section LoopFacts.

Context `{backend : Backend}.

Lemma map_result_elem_of {A B} (f : A → result B) (l : list A) l' x :
  map_result f l = Ok l' → x ∈ l → ∃ y, f x = Ok y ∧ y ∈ l'.
Proof.
  intros Hm Hx. apply list_elem_of_lookup in Hx as [i Hi].
  destruct (map_result_lookup _ _ _ _ _ Hm Hi) as (y & Hy & Hl).
  exists y. split; [done|]. apply list_elem_of_lookup. by exists i.
Qed.

Lemma for_each_ext {A S} (f f' : S → A → result S) s (l : list A) :
  (∀ s x, f s x = f' s x) → for_each f s l = for_each f' s l.
Proof.
  intros Hf. revert s. induction l as [|x l IH]; intros s; simpl; [done|].
  rewrite Hf. destruct (f' s x); simpl; [apply IH|done].
Qed.

Lemma pack_length (embedded : list (list vec)) lengths packed :
  pack_padded_sequence embedded lengths = Ok packed →
  length packed = length embedded.
Proof.
  revert lengths packed. induction embedded as [|row embedded IH];
    intros lengths packed Hp; destruct lengths as [|n lengths]; simpl in Hp;
    try done.
  - by injection Hp as <-.
  - case_bool_decide; [|done]. bind_ok Hp. injection Hp as <-. simpl.
    f_equal. by eapply IH.
Qed.

Lemma dp_length (m : StressModel weights) g hs :
  length (dp m g hs).1 = length hs.
Proof.
  revert g. induction hs as [|h hs IH]; intros g; simpl; [done|].
  destruct (training m).
  - destruct (dropout g h) as [h' g1]. specialize (IH g1).
    destruct (dp m g1 hs). simpl in *. by f_equal.
  - specialize (IH g). destruct (dp m g hs). simpl in *. by f_equal.
Qed.

(** The forward pass returns one row of logits per row of the batch. *)
Lemma forward_length (m : StressModel weights) g x lengths out g' :
  forward m g x lengths = Ok (out, g') → length out = length x.
Proof.
  unfold forward. intros Hf. bind_ok Hf. bind_ok Hf.
  apply map_result_length in E. apply pack_length in E0.
  destruct (bidirectional m).
  - injection Hf as <- _. rewrite length_fmap. lia.
  - pose proof (dp_length m g (lstm_final m false <$> a0)) as Hd.
    destruct (dp m g (lstm_final m false <$> a0)) as [hs g1].
    injection Hf as <- _. simpl in Hd. rewrite length_fmap in Hd.
    rewrite length_fmap. lia.
Qed.

(** In evaluation mode the logits do not depend on the generator. *)
Lemma forward_eval (m : StressModel weights) g1 g2 x lengths :
  training m = false →
  forward m g1 x lengths = (p ← forward m g2 x lengths; Ok (p.1, g1)).
Proof.
  intros Hm. unfold forward.
  destruct (map_result (embedding m) x); simpl; [|done].
  destruct (pack_padded_sequence _ lengths); simpl; [|done].
  destruct (bidirectional m); [done|]. by rewrite !dp_eval.
Qed.

Lemma predict_gen_irrelevant (m : StressModel weights) loader g1 g2 :
  predict m loader g1 = predict m loader g2.
Proof.
  unfold predict. apply for_each_ext. intros acc b. unfold predict_step.
  rewrite (forward_eval _ g1 g2) by done.
  destruct (forward _ g2 _ _) as [[logits g]|]; done.
Qed.

Lemma predict_rows_length logits syll preds0 preds :
  predict_rows logits syll preds0 = Ok preds →
  length preds = (length preds0 + length logits)%nat.
Proof.
  unfold predict_rows. intros Hl.
  enough (Hgen : ∀ l preds0,
    for_each (λ predictions i,
        valid_len ← Torch.item syll i;
        pred ← decode (logits !!! i) valid_len;
        Ok (predictions ++ [pred])) preds0 l = Ok preds →
    length preds = (length preds0 + length l)%nat).
  { apply Hgen in Hl. by rewrite length_seq in Hl. }
  clear Hl preds0. induction l as [|i l IH]; intros preds0 Hl; simpl in Hl.
  - injection Hl as <-. simpl. lia.
  - bind_ok Hl. bind_ok E. bind_ok E. injection E as <-.
    apply IH in Hl. rewrite length_app in Hl. simpl in *. lia.
Qed.

Lemma predict_lengths (m : StressModel weights) g loader acc ids_all preds :
  for_each (predict_step m g) acc loader = Ok (ids_all, preds) →
  ids_all = acc.1 ++ mjoin (b_id <$> loader)
  ∧ length preds
    = (length acc.2 + sum_list_with (λ b, length (b_encoded b)) loader)%nat.
Proof.
  revert acc. induction loader as [|b loader IH]; intros acc Hl; simpl in Hl.
  - injection Hl as ->. simpl. rewrite app_nil_r. split; [done|lia].
  - bind_ok Hl. apply IH in Hl as [-> ->]. unfold predict_step in E.
    bind_ok E. destruct a0 as [logits g1]. simpl in E. bind_ok E.
    injection E as <-. simpl. apply predict_rows_length in E1.
    apply forward_length in E0. rewrite <- app_assoc. split; [done|lia].
Qed.

(** A row with syllable count zero makes [predict] raise. *)
Lemma predict_raises_zero (m : StressModel weights) g loader b j :
  b ∈ loader → b_num_syllables b !! j = Some 0 →
  (j < length (b_encoded b))%nat →
  is_Raise (predict m loader g).
Proof.
  intros Hb Hj Hlt. unfold predict. eapply for_each_raises; [exact Hb|].
  intros acc. unfold predict_step.
  destruct (forward _ g _ _) as [[logits g1]|] eqn:Hf; simpl; [|done].
  apply forward_length in Hf.
  assert (Hr : is_Raise (predict_rows logits (b_num_syllables b) acc.2)).
  { unfold predict_rows. apply (for_each_raises _ _ _ j).
    - apply elem_of_seq. lia.
    - intros preds. unfold Torch.item. rewrite Hj. simpl.
      pose proof (proj2 (decode_zero_raises (logits !!! j))) as Hd.
      by destruct (decode (logits !!! j) 0). }
  by destruct (predict_rows logits (b_num_syllables b) acc.2).
Qed.

(** An ill-labelled example makes [train_model] raise. *)
Lemma train_model_raises (m : StressModel weights) loader opt g b j sts s k :
  b ∈ loader → b_stress b = Some sts → sts !! j = Some s →
  b_num_syllables b !! j = Some k → (j < length (b_encoded b))%nat →
  0 ≤ k → s ≠ Torch.ignore_index + 1 → ill_labelled s k →
  is_Raise (train_model m loader opt g).
Proof.
  intros Hb Hsts Hs Hk Hj H0 Hig Hbad. unfold train_model.
  assert (Hr : is_Raise (for_each train_step
      {| ts_model := set_training true m; ts_opt := opt; ts_rng := g;
         ts_total_loss := Torch.Fin 0 |} loader)).
  { eapply for_each_raises; [exact Hb|]. intros st. unfold train_step.
    destruct (forward _ _ _ _) as [[logits g1]|] eqn:Hf; simpl; [|done].
    apply forward_length in Hf. unfold batch_stress. rewrite Hsts. simpl.
    assert (Hl : is_Raise (masked_cross_entropy_loss logits sts (b_num_syllables b))).
    { eapply (masked_loss_raises logits sts _ j s k); (done || lia). }
    by destruct (masked_cross_entropy_loss logits sts (b_num_syllables b)). }
  by destruct (for_each train_step _ loader).
Qed.

(** The batch of a loader that holds a row of the data set. *)
Lemma loader_batch_of ds bs idxs loader i :
  DataLoader ds bs idxs = Ok loader → i ∈ idxs →
  ∃ b j it, b ∈ loader ∧ (j < length (b_encoded b))%nat
            ∧ getitem ds i = Ok it
            ∧ b_num_syllables b !! j = Some (item_num_syllables it)
            ∧ (mode ds = ModeTrain → ∀ s, item_stress it = Some s →
                 ∃ sts, b_stress b = Some sts ∧ sts !! j = Some s).
Proof.
  intros Hl Hi. apply DataLoader_ok in Hl as [Hbs Hl].
  destruct (chunks_elem_of (Z.to_nat bs) idxs i) as (group & j & Hg & Hj);
    [lia|done|].
  destruct (map_result_elem_of _ _ _ _ Hl Hg) as (b & Hb & Hbl).
  apply load_group_ok in Hb as (_ & Hlen & _ & Hrows).
  destruct (Hrows j i Hj) as (it & Hit & Hk & Hst).
  exists b, j, it. split; [done|]. split; [|done].
  rewrite Hlen. by eapply lookup_lt_Some.
Qed.

End LoopFacts.

(** ** Data-integrity errors abort the run *)

Section AbortFacts.

Context `{backend : Backend}.

Lemma StressDataset_init_train (data : list Row) ds :
  StressDataset_init data None ModeTrain = Ok ds →
  mode ds = ModeTrain
  ∧ num_syllables ds = row_num_syllables <$> data
  ∧ length (words ds) = length data
  ∧ ∃ sts, stresses ds = Some sts
           ∧ ∀ i r s, data !! i = Some r → row_stress r = Some s →
               sts !! i = Some s.
Proof.
  unfold StressDataset_init. intros Hd. bind_ok Hd. bind_ok E.
  injection E as <-. injection Hd as <-. simpl.
  split; [done|]. split; [done|]. split; [by rewrite length_fmap|].
  exists a0. split; [done|]. intros i r s Hi Hs.
  destruct (map_result_lookup _ _ _ _ _ E0 Hi) as (y & Hy & Hl).
  rewrite Hs in Hy. by injection Hy as <-.
Qed.

(** The train branch raises when a training row is ill-labelled. *)
Lemma main_train_raises nb args train_csv (wd : World) r s k :
  r ∈ train_csv → row_stress r = Some s → row_num_syllables r = k →
  0 ≤ k → s ≠ Torch.ignore_index + 1 → ill_labelled s k →
  0 < epochs args →
  is_Raise (main_train nb args train_csv wd).
Proof.
  intros Hr Hs Hk H0 Hig Hbad Hep. unfold main_train.
  destruct (train_setup nb args train_csv (rng wd)) as [[[ds m0] g0]|] eqn:Hsetup;
    simpl; [|done].
  apply train_setup_ok in Hsetup as (Hds & _).
  apply StressDataset_init_train in Hds as (Hmode & Hsyll & Hlen & sts & Hsts & Hlab).
  destruct (Z.to_nat (epochs args)) as [|n] eqn:Hn; [lia|]. simpl.
  pose proof (shuffle_perm g0 (sequential ds)) as Hperm.
  destruct (shuffle g0 (sequential ds)) as [order g1]. simpl in Hperm.
  destruct (DataLoader ds (batch_size args) order) as [loader|] eqn:Hl;
    simpl; [|done].
  apply list_elem_of_lookup in Hr as [i Hi].
  assert (Hin : i ∈ order).
  { rewrite Hperm. unfold sequential. apply elem_of_seq.
    apply lookup_lt_Some in Hi. lia. }
  destruct (loader_batch_of _ _ _ _ _ Hl Hin)
    as (b & j & it & Hb & Hj & Hit & Hkj & Hst).
  apply getitem_ok in Hit as (Hki & _ & _ & Hsi). rewrite Hmode in Hsi.
  destruct Hsi as (sts' & s' & Hsts' & Hs' & His).
  rewrite Hsts in Hsts'. injection Hsts' as <-.
  rewrite (Hlab i r s Hi Hs) in Hs'. injection Hs' as <-.
  rewrite Hsyll, list_lookup_fmap, Hi in Hki. simpl in Hki.
  injection Hki as Hki. rewrite Hk in Hki.
  destruct (Hst Hmode s His) as (bsts & Hbsts & Hbs).
  rewrite <- Hki in Hkj.
  pose proof (train_model_raises m0 loader (adam_init (lr args) (params m0)) g1
                b j bsts s k Hb Hbsts Hbs Hkj Hj H0 Hig Hbad) as Hraise.
  by destruct (train_model m0 loader _ g1).
Qed.

(** The predict branch raises when a row has syllable count zero. *)
Lemma main_predict_raises nb args test_csv (wd : World) r :
  r ∈ test_csv → row_num_syllables r = 0 →
  is_Raise (main_predict nb args test_csv wd).
Proof.
  intros Hr Hk.
  destruct (main_predict nb args test_csv wd) as [[m rows]|] eqn:Hp; [|done].
  exfalso. apply main_predict_ok in Hp
    as (ckpt & C & g & loader & ids_all & preds & _ & _ & _ & Hl & Hpred & _).
  apply list_elem_of_lookup in Hr as [i Hi].
  assert (Hin : i ∈ sequential (test_dataset (ckpt_char2idx ckpt) test_csv)).
  { unfold sequential. apply elem_of_seq. simpl. rewrite length_fmap.
    apply lookup_lt_Some in Hi. lia. }
  destruct (loader_batch_of _ _ _ _ _ Hl Hin)
    as (b & j & it & Hb & Hj & Hit & Hkj & _).
  apply getitem_ok in Hit as (Hki & _). simpl in Hki.
  rewrite list_lookup_fmap, Hi in Hki. simpl in Hki. injection Hki as Hki.
  rewrite <- Hki, Hk in Hkj.
  pose proof (predict_raises_zero m g loader b j Hb Hkj Hj) as Hraise.
  by rewrite Hpred in Hraise.
Qed.

End AbortFacts.

(** C5, as stated, fails on the label -99: its target -100 is the one the
    library loss ignores, so the example is skipped and the loss is NaN,
    with no error. *)
Lemma data_integrity_counterexample :
  ¬ (∀ (L : list R) (s k : Z),
       ill_labelled s k → is_Raise (loss_example L s k)).
Proof.
  intros Hclaim. specialize (Hclaim [0; 0; 0]%R (-99) 3).
  assert (Hbad : ill_labelled (-99) 3) by (right; lia).
  specialize (Hclaim Hbad). unfold loss_example, Torch.cross_entropy in Hclaim.
  by rewrite bool_decide_eq_true_2 in Hclaim.
Qed.

(** A negative syllable count is not caught either: the slice then drops
    entries from the end of the row. *)
Example negative_syllable_count :
  ill_labelled 1 (-1) ∧ ¬ is_Raise (loss_example [0; 0; 0]%R 1 (-1)).
Proof.
  split; [right; lia|]. unfold loss_example, Torch.cross_entropy. simpl. tauto.
Qed.

(** C5, amended. For an example whose syllable count [k] is not negative
    and whose label [s] is not -99: if [k = 0], or [s] lies outside
    [[1, k]], its loss step raises whatever the logits, and so do the
    batch loss and, with at least one epoch, the train branch of [main];
    if [k = 0], decoding raises too, and so does the predict branch. *)
Theorem data_integrity_aborts `{backend : Backend} (s k : Z) :
  0 ≤ k → s ≠ -99 → ill_labelled s k →
  (∀ L, is_Raise (loss_example L s k))
  ∧ (∀ (logits : list (list R)) stresses syll i,
       (i < length logits)%nat → stresses !! i = Some s → syll !! i = Some k →
       is_Raise (masked_cross_entropy_loss logits stresses syll))
  ∧ (∀ nb args train_csv (wd : World) r,
       r ∈ train_csv → row_stress r = Some s → row_num_syllables r = k →
       0 < epochs args →
       is_Raise (main_train nb args train_csv wd))
  ∧ (k = 0 →
       (∀ L, is_Raise (decode L k) ∧ is_Raise (decode0 L k))
       ∧ ∀ nb args test_csv (wd : World) r,
           r ∈ test_csv → row_num_syllables r = k →
           is_Raise (main_predict nb args test_csv wd)).
Proof.
  intros H0 Hs Hbad.
  assert (Hig : s ≠ Torch.ignore_index + 1) by (unfold Torch.ignore_index; lia).
  split; [|split; [|split]].
  - intros L. by apply loss_example_raises.
  - intros logits stresses syll i Hi Hsi Hki.
    by eapply (masked_loss_raises logits stresses syll i s k).
  - intros nb args train_csv wd r Hr Hrs Hrk Hep.
    by eapply (main_train_raises nb args train_csv wd r s k).
  - intros ->. split.
    + intros L. destruct (decode_zero_raises L). by split.
    + intros nb args test_csv wd r Hr Hrk.
      by eapply main_predict_raises.
Qed.

Lemma data_integrity_aborts_witness :
  is_Raise (loss_example example_logits 4 3)
  ∧ is_Raise (loss_example example_logits 1 0)
  ∧ is_Raise (decode example_logits 0).
Proof.
  assert (H3 : ill_labelled 4 3) by (right; lia).
  assert (H0 : ill_labelled 1 0) by (by left).
  destruct (@data_integrity_aborts integer_backend 4 3 ltac:(lia) ltac:(lia) H3)
    as (Hloss3 & _).
  destruct (@data_integrity_aborts integer_backend 1 0 ltac:(lia) ltac:(lia) H0)
    as (Hloss0 & _ & _ & Hzero).
  split; [exact (Hloss3 example_logits)|].
  split; [exact (Hloss0 example_logits)|].
  exact (proj1 (proj1 (Hzero eq_refl) example_logits)).
Defined.

(** ** Checkpoint round trip *)

Section RoundTrip.

Context `{backend : Backend}.

Lemma predict_eval_mode (m1 m2 : StressModel weights) loader g1 g2 :
  shape m1 = shape m2 → params m1 = params m2 →
  predict m1 loader g1 = predict m2 loader g2.
Proof.
  intros Hshape Hparams. rewrite (predict_gen_irrelevant m1 loader g1 g2).
  unfold predict. by rewrite (eval_mode_eq m1 m2).
Qed.

(** After training, the checkpoint file holds the training vocabulary, and
    a model built with the class count of the saved model loads the saved
    parameters. *)
Lemma restore_after_train nb args train_csv (wd0 wd1 : World) m_saved :
  main_train nb args train_csv wd0 = Ok (m_saved, wd1) →
  ∃ ckpt,
    files wd1 !! model_path args = Some ckpt
    ∧ ckpt_char2idx ckpt = (Vocab.build_vocab (row_word <$> train_csv)).1
    ∧ ∀ g, ∃ m g',
        restore_model nb args ckpt (num_classes m_saved) g = Ok (m, g')
        ∧ shape m = shape m_saved ∧ params m = params m_saved.
Proof.
  intros Ht. apply main_train_ok in Ht as (ds & m0 & g0 & Hs & Hshape & Hfile).
  apply train_setup_ok in Hs
    as (Hds & _ & Hshape0 & _ & HV & HE & HH & HC).
  apply StressDataset_init_columns in Hds as (_ & _ & Hvocab).
  eexists. split; [exact Hfile|]. simpl. split; [by apply Hvocab|].
  intros g.
  assert (num_classes m_saved = num_classes m0) as -> by (by injection Hshape).
  destruct (StressModel_init_total nb g (Vocab.len (char2idx ds))
              (embed_dim args) (hidden_size args) (num_classes m0))
    as (m1 & g' & Hinit); [done..|].
  pose proof Hinit as Hshape1. apply StressModel_init_ok in Hshape1 as [Hshape1 _].
  exists (set_params (params m_saved) m1), g'.
  split; [|split; [|done]].
  - apply restore_model_ok. exists m1. split; [done|]. simpl.
    unfold load_state_dict. simpl.
    rewrite bool_decide_eq_true_2; [done|].
    apply shape_param_shapes. congruence.
  - rewrite shape_set_params. congruence.
Qed.

(** When the predict branch asks for the class count of the saved model,
    saving and loading reproduce the predictions of the model that was
    saved, on every inference data set: the same rows, or the same
    exception. *)
Lemma round_trip_same_classes nb args train_csv test_csv (wd0 wd1 : World)
    m_saved g :
  main_train nb args train_csv wd0 = Ok (m_saved, wd1) →
  requested_classes nb test_csv = Ok (num_classes m_saved) →
  (p ← main_predict nb args test_csv wd1; Ok p.2)
  = predict_with m_saved (Vocab.build_vocab (row_word <$> train_csv)).1
                 args test_csv g.
Proof.
  intros Ht HC.
  destruct (restore_after_train _ _ _ _ _ _ Ht) as (ckpt & Hfile & Hvocab & Hrestore).
  destruct (Hrestore (rng wd1)) as (m & g' & Hr & Hshape & Hparams).
  rewrite <- Hvocab. unfold main_predict, predict_with.
  rewrite (proj2 (torch_load_ok _ _ _) Hfile). step_ok.
  destruct nb; unfold requested_classes in HC.
  - rewrite StressDataset_init_test. step_ok.
    fold (test_dataset (ckpt_char2idx ckpt) test_csv).
    destruct (DataLoader _ _ _) as [loader|]; [step_ok|done].
    change (num_syllables (test_dataset (ckpt_char2idx ckpt) test_csv))
      with (row_num_syllables <$> test_csv).
    rewrite HC. step_ok. rewrite Hr. step_ok.
    rewrite (predict_eval_mode m m_saved loader g' g) by done.
    destruct (predict m_saved loader g) as [[ids_all preds]|]; [step_ok|done].
    by destruct (submission ids_all _ preds).
  - injection HC as HC. rewrite HC, Hr. step_ok.
    rewrite StressDataset_init_test. step_ok.
    fold (test_dataset (ckpt_char2idx ckpt) test_csv).
    destruct (DataLoader _ _ _) as [loader|]; [step_ok|done].
    rewrite (predict_eval_mode m m_saved loader g' g) by done.
    destruct (predict m_saved loader g) as [[ids_all preds]|]; [step_ok|done].
    by destruct (submission ids_all _ preds).
Qed.

(** The unidirectional notebook always asks for the class count of the
    saved model. *)
Lemma round_trip_unidirectional args train_csv test_csv (wd0 wd1 : World)
    m_saved g :
  main_train TestCopy1 args train_csv wd0 = Ok (m_saved, wd1) →
  (p ← main_predict TestCopy1 args test_csv wd1; Ok p.2)
  = predict_with m_saved (Vocab.build_vocab (row_word <$> train_csv)).1
                 args test_csv g.
Proof.
  intros Ht. apply (round_trip_same_classes _ _ _ _ _ _ _ _ Ht).
  pose proof Ht as Ht'.
  apply main_train_ok in Ht' as (ds & m0 & g0 & Hs & Hshape & _).
  apply train_setup_ok in Hs as (_ & HC & _). simpl in *.
  injection HC as HC. f_equal. rewrite HC. by injection Hshape.
Qed.

End RoundTrip.

Section RoundTripRuns.

#[local] Existing Instance integer_backend.

(** C9 (failing input). In the bidirectional notebook, after training on
    the example corpus, the model in memory predicts both rows of an
    inference data set whose largest syllable count is 2; the predict
    branch, run on the checkpoint just saved and the same data, raises
    instead of reproducing those predictions. *)
Theorem round_trip_failing_input :
  ∃ m_saved rows,
    main_train Test example_args example_train_csv example_world
    = Ok (m_saved, trained_world)
    ∧ predict_with m_saved (Vocab.build_vocab (row_word <$> example_train_csv)).1
                   example_args example_test_csv example_generator
      = Ok rows
    ∧ length rows = 2%nat
    ∧ main_predict Test example_args example_test_csv trained_world
      = Raise RuntimeError.
Proof.
  unfold trained_world.
  destruct (main_train Test example_args example_train_csv example_world)
    as [[m wd]|] eqn:E; [|by vm_compute in E].
  destruct (predict_with m (Vocab.build_vocab (row_word <$> example_train_csv)).1
              example_args example_test_csv example_generator)
    as [rows|] eqn:Hp.
  - exists m, rows. split; [reflexivity|]. split; [exact Hp|].
    vm_compute in E. injection E as <- <-. split.
    + vm_compute in Hp. injection Hp as <-. reflexivity.
    + by vm_compute.
  - vm_compute in E. injection E as <- <-. by vm_compute in Hp.
Qed.

End RoundTripRuns.

(** * Further properties of the notebooks *)

(** ** The vocabulary and its inverse *)

Section VocabInverse.

Implicit Types (words : list (list N)) (w : list N) (c : N).

Lemma vocab_chars_NoDup words : NoDup (vocab_chars words).
Proof. apply (collected_sorted words). Qed.

Lemma elem_of_vocab_chars words c : c ∈ vocab_chars words ↔ occurs c words.
Proof. apply (collected_sorted words). Qed.

Lemma char2idx_key words c idx :
  (Vocab.build_vocab words).1 !! Vocab.key c = Some idx
  ↔ ∃ i : nat, vocab_chars words !! i = Some c ∧ idx = Z.of_nat i + 1.
Proof.
  unfold Vocab.build_vocab. simpl. fold (vocab_chars words).
  rewrite lookup_insert_ne by apply PAD_not_key. split.
  - intros Hk. apply index_chars_inv in Hk as (i & c' & Hi & [= ->] & ->);
      [|apply vocab_chars_NoDup]. by exists i.
  - intros (i & Hi & ->). unfold Vocab.index_chars, Vocab.enumerate.
    rewrite (add_chars_lookup _ _ _ i c); [done|apply vocab_chars_NoDup|done].
Qed.

Lemma char2idx_absent words c :
  (Vocab.build_vocab words).1 !! Vocab.key c = None ↔ ¬ occurs c words.
Proof.
  rewrite <- elem_of_vocab_chars, eq_None_not_Some. split.
  - intros Hn Hc. apply list_elem_of_lookup in Hc as [i Hi]. apply Hn.
    exists (Z.of_nat i + 1). apply char2idx_key. by exists i.
  - intros Hn [idx Hidx]. apply char2idx_key in Hidx as (i & Hi & _).
    apply Hn, list_elem_of_lookup. by exists i.
Qed.

Lemma vocab_len words :
  Vocab.len (Vocab.build_vocab words).1 = Z.of_nat (length (vocab_chars words)) + 1.
Proof.
  unfold Vocab.len, Vocab.build_vocab. simpl. fold (vocab_chars words).
  rewrite map_size_insert_None.
  - unfold Vocab.index_chars, Vocab.enumerate.
    rewrite add_chars_size; [rewrite map_size_empty; lia|apply vocab_chars_NoDup|].
    intros c _. apply lookup_empty.
  - unfold Vocab.index_chars, Vocab.enumerate.
    rewrite add_chars_other; [apply lookup_empty|]. intros c _. apply PAD_not_key.
Qed.

(** The inverse dictionary, entry by entry. *)
Lemma invert_other (d : gmap Z (list N)) start chars idx :
  ¬ (start + 1 ≤ idx ≤ start + Z.of_nat (length chars)) →
  foldl (λ d p, <[p.2 := p.1]> d) d
        ((λ p : Z * N, (Vocab.key p.2, p.1 + 1)) <$> Vocab.enumerate_from start chars)
  !! idx = d !! idx.
Proof.
  revert d start. induction chars as [|c chars IH]; intros d start Hidx; [done|].
  simpl in *. rewrite IH by lia. apply lookup_insert_ne. lia.
Qed.

Lemma invert_lookup (d : gmap Z (list N)) start chars (i : nat) c :
  chars !! i = Some c →
  foldl (λ d p, <[p.2 := p.1]> d) d
        ((λ p : Z * N, (Vocab.key p.2, p.1 + 1)) <$> Vocab.enumerate_from start chars)
  !! (start + Z.of_nat i + 1) = Some (Vocab.key c).
Proof.
  revert d start i. induction chars as [|x chars IH]; intros d start i Hi; [done|].
  destruct i as [|i]; simpl in *.
  - injection Hi as ->. rewrite invert_other by lia.
    replace (start + Z.of_nat 0 + 1) with (start + 1) by lia. apply lookup_insert_eq.
  - replace (start + Z.of_nat (S i) + 1) with (start + 1 + Z.of_nat i + 1) by lia.
    by apply IH.
Qed.

Lemma idx2char_lookup words idx k :
  (Vocab.build_vocab words).2 !! idx = Some k
  ↔ (idx = 0 ∧ k = Vocab.PAD)
    ∨ ∃ (i : nat) c, vocab_chars words !! i = Some c
                     ∧ idx = Z.of_nat i + 1 ∧ k = Vocab.key c.
Proof.
  unfold Vocab.build_vocab. simpl. fold (vocab_chars words).
  unfold Vocab.invert, Vocab.items_of, Vocab.enumerate.
  rewrite foldl_app. simpl.
  destruct (decide (idx = 0)) as [->|Hne].
  - rewrite lookup_insert_eq. split.
    + intros [= <-]. by left.
    + intros [[_ ->]|(i & c & _ & ? & _)]; [done|lia].
  - rewrite lookup_insert_ne by done. split.
    + intros Hk. right.
      destruct (decide (1 ≤ idx ≤ Z.of_nat (length (vocab_chars words))))
        as [Hin|Hout].
      * destruct (lookup_lt_is_Some_2 (vocab_chars words) (Z.to_nat (idx - 1)))
          as [c Hc]; [lia|].
        pose proof (invert_lookup ∅ 0 _ _ _ Hc) as Hl.
        replace (0 + Z.of_nat (Z.to_nat (idx - 1)) + 1) with idx in Hl by lia.
        rewrite Hl in Hk. injection Hk as <-.
        exists (Z.to_nat (idx - 1)), c. split; [done|]. split; [lia|done].
      * rewrite invert_other in Hk by lia. by rewrite lookup_empty in Hk.
    + intros [[? _]|(i & c & Hc & -> & ->)]; [done|].
      pose proof (invert_lookup ∅ 0 _ _ _ Hc) as Hl. by rewrite Z.add_0_l in Hl.
Qed.

End VocabInverse.

(** X1. The two dictionaries [build_vocab] returns are inverse to each
    other: [char2idx] sends a key to an index exactly when [idx2char]
    sends that index back to the key. *)
Theorem idx2char_inverse (words : list (list N)) (k : list N) (idx : Z) :
  (Vocab.build_vocab words).1 !! k = Some idx
  ↔ (Vocab.build_vocab words).2 !! idx = Some k.
Proof.
  rewrite idx2char_lookup. split.
  - intros Hk. destruct (decide (k = Vocab.PAD)) as [->|Hne].
    + left. split; [|done]. unfold Vocab.build_vocab in Hk. simpl in Hk.
      rewrite lookup_insert_eq in Hk. congruence.
    + right. unfold Vocab.build_vocab in Hk. simpl in Hk.
      rewrite lookup_insert_ne in Hk by done.
      apply index_chars_inv in Hk as (i & c & Hi & -> & ->);
        [|apply vocab_chars_NoDup]. by exists i, c.
  - intros [[-> ->]|(i & c & Hc & -> & ->)].
    + unfold Vocab.build_vocab. simpl. apply lookup_insert_eq.
    + apply char2idx_key. by exists i.
Qed.

Section EncodeFacts.

Implicit Types (words : list (list N)) (w : list N) (c : N).

Lemma encode_word_lookup w (c2i : gmap (list N) Z) (i : nat) c :
  w !! i = Some c →
  Vocab.encode_word w c2i !! i = Some (default 0 (c2i !! Vocab.key c)).
Proof. intros Hi. unfold Vocab.encode_word. by rewrite list_lookup_fmap, Hi. Qed.

Lemma encode_word_cons c w (c2i : gmap (list N) Z) :
  Vocab.encode_word (c :: w) c2i
  = default 0 (c2i !! Vocab.key c) :: Vocab.encode_word w c2i.
Proof. done. Qed.

Lemma encode_word_bounds words w :
  Forall (λ idx, 0 ≤ idx < Vocab.len (Vocab.build_vocab words).1)
         (Vocab.encode_word w (Vocab.build_vocab words).1).
Proof.
  apply Forall_lookup. intros i idx Hi.
  destruct (lookup_lt_is_Some_2 w i) as [c Hc].
  { apply lookup_lt_Some in Hi. unfold Vocab.encode_word in Hi.
    by rewrite length_fmap in Hi. }
  rewrite (encode_word_lookup _ _ _ _ Hc) in Hi. injection Hi as <-.
  rewrite vocab_len.
  destruct (_ !! Vocab.key c) as [idx|] eqn:Hk; simpl; [|lia].
  apply char2idx_key in Hk as (n & Hn & ->). apply lookup_lt_Some in Hn. lia.
Qed.

End EncodeFacts.

(** X2. Encoding with a vocabulary built by [build_vocab] stays within the
    embedding table of a model sized [len(char2idx)]: every index lies in
    [[0, len(char2idx))]. Index 0, the padding index, is produced exactly
    at the characters that do not occur in the words the vocabulary was
    built from; every other character gets its own positive index. *)
Theorem encode_word_in_table (words : list (list N)) (w : list N) :
  let char2idx := (Vocab.build_vocab words).1 in
  Forall (λ idx, 0 ≤ idx < Vocab.len char2idx) (Vocab.encode_word w char2idx)
  ∧ (∀ (i : nat) c, w !! i = Some c →
       (Vocab.encode_word w char2idx !! i = Some 0 ↔ ¬ occurs c words))
  ∧ (∀ (i j : nat) c c' idx, w !! i = Some c → w !! j = Some c' →
       Vocab.encode_word w char2idx !! i = Some idx →
       Vocab.encode_word w char2idx !! j = Some idx →
       idx ≠ 0 → c = c').
Proof.
  intros char2idx. split; [|split].
  - apply encode_word_bounds.
  - intros i c Hc. rewrite (encode_word_lookup _ _ _ _ Hc).
    rewrite <- char2idx_absent. fold char2idx.
    destruct (char2idx !! Vocab.key c) as [idx|] eqn:Hk; simpl; [|done].
    apply char2idx_key in Hk as (n & _ & ->). split; [intros [= ?]; exfalso; lia|done].
  - intros i j c c' idx Hc Hc' Hi Hj Hne.
    rewrite (encode_word_lookup _ _ _ _ Hc) in Hi.
    rewrite (encode_word_lookup _ _ _ _ Hc') in Hj.
    destruct (char2idx !! Vocab.key c) as [x|] eqn:Hk; simpl in Hi; [|congruence].
    destruct (char2idx !! Vocab.key c') as [x'|] eqn:Hk'; simpl in Hj; [|congruence].
    apply char2idx_key in Hk as (n & Hn & ->).
    apply char2idx_key in Hk' as (n' & Hn' & ->).
    injection Hi as Hi. injection Hj as Hj.
    assert (n = n') as -> by lia. congruence.
Qed.

(** X3. A word all of whose characters occur in the words the vocabulary
    was built from is encoded without loss: its indices are positive, and
    reading them back through [idx2char] gives the word again. So two
    such words with the same encoding are the same word. *)
Theorem encode_decode (words : list (list N)) (w : list N) :
  Forall (λ c, occurs c words) w →
  Forall (λ idx, 1 ≤ idx) (Vocab.encode_word w (Vocab.build_vocab words).1)
  ∧ decode_word (Vocab.build_vocab words).2
                (Vocab.encode_word w (Vocab.build_vocab words).1) = Some w
  ∧ ∀ w', Forall (λ c, occurs c words) w' →
      Vocab.encode_word w' (Vocab.build_vocab words).1
      = Vocab.encode_word w (Vocab.build_vocab words).1 → w' = w.
Proof.
  assert (Hdec : ∀ u, Forall (λ c, occurs c words) u →
            Forall (λ idx, 1 ≤ idx) (Vocab.encode_word u (Vocab.build_vocab words).1)
            ∧ decode_word (Vocab.build_vocab words).2
                (Vocab.encode_word u (Vocab.build_vocab words).1) = Some u).
  { induction 1 as [|c u Hc _ [IH1 IH2]]; [by split|].
    rewrite encode_word_cons.
    apply elem_of_vocab_chars, list_elem_of_lookup in Hc as [i Hi].
    assert (Hk : (Vocab.build_vocab words).1 !! Vocab.key c = Some (Z.of_nat i + 1))
      by (apply char2idx_key; by exists i).
    assert (Hinv : (Vocab.build_vocab words).2 !! (Z.of_nat i + 1)
                   = Some (Vocab.key c))
      by (apply idx2char_lookup; right; by exists i, c).
    rewrite Hk. change (default 0 (Some ?x)) with x.
    split; [constructor; [lia|done]|].
    cbn [decode_word]. rewrite Hinv. unfold Vocab.key. by rewrite IH2. }
  intros Hw. destruct (Hdec w Hw) as [H1 H2]. split; [done|]. split; [done|].
  intros w' Hw' Heq. destruct (Hdec w' Hw') as [_ H2']. rewrite Heq in H2'.
  congruence.
Qed.

Lemma encode_decode_witness :
  decode_word (Vocab.build_vocab [[99; 97; 116]; [97; 112; 112; 108; 101]]%N).2
    (Vocab.encode_word [116; 97; 112]%N
       (Vocab.build_vocab [[99; 97; 116]; [97; 112; 112; 108; 101]]%N).1)
  = Some [116; 97; 112]%N.
Proof.
  apply (encode_decode [[99; 97; 116]; [97; 112; 112; 108; 101]]%N [116; 97; 112]%N).
  repeat constructor.
  - exists [99; 97; 116]%N. split; [by left|]. by right; right; left.
  - exists [99; 97; 116]%N. split; [by left|]. by right; left.
  - exists [97; 112; 112; 108; 101]%N. split; [by right; left|]. by right; left.
Defined.

(** ** Batches *)

Section CollateFacts.

Implicit Types (items : list Item) (b : Batch).

Lemma pad_sequence_rows (seqs : list (list Z)) :
  let width := foldr (λ s m, Nat.max (length s) m) 0%nat seqs in
  Forall (λ row, length row = width) (Torch.pad_sequence seqs)
  ∧ (seqs ≠ [] → ∃ s, s ∈ seqs ∧ length s = width).
Proof.
  intros width. split.
  - unfold Torch.pad_sequence. fold width. apply Forall_fmap, Forall_forall.
    intros s Hs. simpl. rewrite length_app, length_replicate.
    pose proof (pad_sequence_width seqs s Hs). fold width in H. lia.
  - unfold width. clear width. induction seqs as [|s seqs IH]; [done|]. intros _.
    simpl. destruct seqs as [|s' seqs].
    + exists s. split; [by left|]. simpl. lia.
    + destruct IH as (s1 & Hs1 & Hlen); [done|].
      destruct (Nat.max_spec (length s)
                  (foldr (λ s m, Nat.max (length s) m) 0%nat (s' :: seqs)))
        as [[_ ->]|[_ ->]].
      * exists s1. split; [by right|done].
      * exists s. split; [by left|done].
Qed.

Lemma collate_fn_unlabelled it0 rest :
  item_stress it0 = None →
  ∃ b, collate_fn (it0 :: rest) = Ok b ∧ b_stress b = None.
Proof. intros H0. unfold collate_fn. rewrite H0. simpl. by eexists. Qed.

Lemma map_result_labels items :
  Forall (λ it, is_Some (item_stress it)) items →
  ∃ sts, map_result (λ x, match item_stress x with
                          | Some s => Ok s
                          | None => Raise KeyError
                          end) items = Ok sts
         ∧ Forall2 (λ it s, item_stress it = Some s) items sts.
Proof.
  induction 1 as [|it items [s Hs] _ (sts & Hm & Hall)].
  - exists []. by split.
  - exists (s :: sts). simpl. rewrite Hs, Hm. split; [done|]. by constructor.
Qed.

Lemma map_result_unlabelled items :
  ¬ Forall (λ it, is_Some (item_stress it)) items →
  map_result (λ x, match item_stress x with
                   | Some s => Ok s
                   | None => Raise KeyError
                   end) items = Raise KeyError.
Proof.
  induction items as [|it items IH]; intros Hno.
  - exfalso. apply Hno. constructor.
  - simpl. destruct (item_stress it) as [s|] eqn:Hs; [|done]. simpl.
    rewrite IH; [done|]. intros Hall. apply Hno. constructor; [by eexists|done].
Qed.

End CollateFacts.

(** X4. [collate_fn] pads every encoded word of a batch with zeros to the
    length of the longest one: the padded rows all have that width, row
    [i] is the encoding of item [i] followed by zeros only, and the
    lengths, identifiers and syllable counts keep the order of the items. *)
Theorem collate_fn_padding (items : list Item) (b : Batch) :
  collate_fn items = Ok b →
  ∃ width : nat,
    items ≠ []
    ∧ Forall (λ row, length row = width) (b_encoded b)
    ∧ (∃ it, it ∈ items ∧ length (item_encoded it) = width)
    ∧ length (b_encoded b) = length items
    ∧ (∀ (i : nat) it, items !! i = Some it →
         b_encoded b !! i
         = Some (item_encoded it
                 ++ replicate (width - length (item_encoded it)) 0)
         ∧ b_lengths b !! i = Some (length (item_encoded it))
         ∧ b_id b !! i = Some (item_id it)
         ∧ b_num_syllables b !! i = Some (item_num_syllables it)).
Proof.
  intros Hb. apply collate_fn_ok in Hb as (Hne & Hid & Henc & Hlen & Hsyl).
  destruct (pad_sequence_rows (item_encoded <$> items)) as [Hrows Hmax].
  set (width := foldr (λ s m, Nat.max (length s) m) 0%nat (item_encoded <$> items))
    in *.
  exists width. split; [done|]. split; [by rewrite Henc|]. split; [|split].
  - destruct Hmax as (s & Hs & Hw); [by destruct items|].
    apply list_elem_of_fmap in Hs as (it & -> & Hit). by exists it.
  - rewrite Henc. unfold Torch.pad_sequence. by rewrite !length_fmap.
  - intros i it Hi. rewrite Henc, Hlen, Hid, Hsyl.
    unfold Torch.pad_sequence. fold width.
    rewrite !list_lookup_fmap, Hi. done.
Qed.

Lemma collate_fn_padding_witness :
  ∃ b (width : nat),
    collate_fn [item_banana; item_cat] = Ok b
    ∧ Forall (λ row, length row = width) (b_encoded b)
    ∧ b_encoded b !! 1%nat
      = Some (item_encoded item_cat
              ++ replicate (width - length (item_encoded item_cat)) 0).
Proof.
  destruct (collate_fn [item_banana; item_cat]) as [b|] eqn:E;
    [|by vm_compute in E].
  destruct (collate_fn_padding [item_banana; item_cat] b E)
    as (width & _ & Hw & _ & _ & Hrow).
  exists b, width. split; [reflexivity|]. split; [exact Hw|].
  exact (proj1 (Hrow 1%nat item_cat eq_refl)).
Defined.

(** X5. Whether a batch carries labels is decided by its first item
    alone: an empty batch raises; if the first item has no label the batch
    has none, whatever the other items hold; if it has one, the batch
    carries the labels of all items in order, and raises [KeyError] as
    soon as one of the others has none. *)
Theorem collate_fn_labels (it0 : Item) (rest : list Item) :
  is_Raise (collate_fn [])
  ∧ (item_stress it0 = None →
       ∃ b, collate_fn (it0 :: rest) = Ok b ∧ b_stress b = None)
  ∧ (is_Some (item_stress it0) →
       Forall (λ it, is_Some (item_stress it)) rest →
       ∃ b sts, collate_fn (it0 :: rest) = Ok b ∧ b_stress b = Some sts
                ∧ Forall2 (λ it s, item_stress it = Some s) (it0 :: rest) sts)
  ∧ (is_Some (item_stress it0) →
       ¬ Forall (λ it, is_Some (item_stress it)) rest →
       collate_fn (it0 :: rest) = Raise KeyError).
Proof.
  split; [done|]. split; [apply collate_fn_unlabelled|]. split.
  - intros [s0 H0] Hrest.
    destruct (map_result_labels (it0 :: rest)) as (sts & Hm & Hall).
    { constructor; [by eexists|done]. }
    unfold collate_fn. rewrite H0, Hm. simpl. by eexists _, sts.
  - intros [s0 H0] Hrest. unfold collate_fn. rewrite H0.
    rewrite map_result_unlabelled; [done|].
    intros Hall. apply Hrest. by apply Forall_cons in Hall as [_ ?].
Qed.

(** ** The data set and its loader *)

Section DatasetFacts.

Implicit Types (data : list Row) (ds : StressDataset).

(** The fields of a data set built from a CSV file. *)
Lemma StressDataset_init_ok data vocab md ds :
  StressDataset_init data vocab md = Ok ds →
  mode ds = md
  ∧ words ds = row_word <$> data
  ∧ num_syllables ds = row_num_syllables <$> data
  ∧ ids ds = row_id <$> data
  ∧ char2idx ds = match vocab with
                  | Some c => c
                  | None => (Vocab.build_vocab (row_word <$> data)).1
                  end
  ∧ encoded_words ds
    = (λ r, Vocab.encode_word (row_word r) (char2idx ds)) <$> data
  ∧ match md with
    | ModeTrain =>
        Forall (λ r, is_Some (row_stress r)) data
        ∧ stresses ds = Some ((λ r, default 0 (row_stress r)) <$> data)
    | ModeTest => stresses ds = None
    end.
Proof.
  unfold StressDataset_init. intros Hd. bind_ok Hd. injection Hd as <-. simpl.
  repeat (split; [done|]). split; [by rewrite <- list_fmap_compose|].
  destruct md; [|by injection E as <-].
  bind_ok E. injection E as <-.
  revert a0 E0. induction data as [|r data IH]; intros sts Hm; simpl in Hm.
  - injection Hm as <-. by split.
  - destruct (row_stress r) as [s|] eqn:Hs; [|done]. simpl in Hm.
    bind_ok Hm. injection Hm as <-.
    destruct (IH _ eq_refl) as [Hall Hsts]. split.
    + constructor; [by eexists|done].
    + rewrite fmap_cons, Hs. simpl. by injection Hsts as ->.
Qed.

Lemma getitem_row data vocab md ds (i : nat) r :
  StressDataset_init data vocab md = Ok ds → data !! i = Some r →
  getitem ds i = Ok (item_of_row (char2idx ds) md r).
Proof.
  intros Hd Hi.
  apply StressDataset_init_ok in Hd as (Hmode & Hw & Hk & Hid & _ & Henc & Hst).
  unfold getitem, item_of_row.
  rewrite Hid, Hw, Henc, Hk, !list_lookup_fmap, Hi, Hmode. simpl.
  destruct md; [|done]. destruct Hst as [Hall ->].
  rewrite list_lookup_fmap, Hi. simpl.
  rewrite Forall_lookup in Hall. destruct (Hall i r Hi) as [s ->]. done.
Qed.

Lemma getitem_out_of_range data vocab md ds (i : nat) :
  StressDataset_init data vocab md = Ok ds → (length data ≤ i)%nat →
  getitem ds i = Raise IndexError.
Proof.
  intros Hd Hi. apply StressDataset_init_ok in Hd as (_ & _ & _ & Hid & _).
  unfold getitem. rewrite Hid, lookup_ge_None_2; [done|].
  by rewrite length_fmap.
Qed.

Lemma chunks_aux_sizes {A} (fuel n : nat) (l : list A) :
  (0 < n)%nat → Forall (λ g, 0 < length g ≤ n)%nat (chunks_aux fuel n l).
Proof.
  intros Hn. revert l. induction fuel as [|fuel IH]; intros l; [constructor|].
  destruct l as [|x l]; [constructor|]. cbn [chunks_aux]. constructor; [|apply IH].
  rewrite length_take. simpl. lia.
Qed.

Lemma chunks_sizes {A} (n : nat) (l : list A) :
  (0 < n)%nat → Forall (λ g, 0 < length g ≤ n)%nat (chunks n l).
Proof. apply chunks_aux_sizes. Qed.

Lemma chunks_aux_Forall2 {A B} (R : A → B → Prop) (fuel n : nat) l k :
  Forall2 R l k →
  Forall2 (Forall2 R) (chunks_aux fuel n l) (chunks_aux fuel n k).
Proof.
  revert l k. induction fuel as [|fuel IH]; intros l k Hlk; [constructor|].
  destruct Hlk as [|x y l k Hxy Hlk]; [constructor|]. cbn [chunks_aux].
  constructor.
  - apply Forall2_take. by constructor.
  - apply IH, Forall2_drop. by constructor.
Qed.

Lemma chunks_Forall2 {A B} (R : A → B → Prop) (n : nat) l k :
  Forall2 R l k → Forall2 (Forall2 R) (chunks n l) (chunks n k).
Proof.
  intros Hlk. unfold chunks. rewrite (Forall2_length _ _ _ Hlk).
  by apply chunks_aux_Forall2.
Qed.

(** The batch of a non-empty group of indices is the batch of the rows
    they name. *)
Lemma load_group_rows data vocab md ds (group : list nat) rows :
  StressDataset_init data vocab md = Ok ds →
  Forall2 (λ i r, data !! i = Some r) group rows → rows ≠ [] →
  load_group ds group = Ok (batch_of_rows (char2idx ds) md rows).
Proof.
  intros Hd Hg Hne. unfold load_group.
  assert (Hitems : map_result (getitem ds) group
                   = Ok (item_of_row (char2idx ds) md <$> rows)).
  { clear Hne. induction Hg as [|i r group rows Hi _ IH]; [done|]. simpl.
    rewrite (getitem_row _ _ _ _ _ _ Hd Hi). simpl. by rewrite IH. }
  rewrite Hitems. simpl.
  apply StressDataset_init_ok in Hd as (_ & _ & _ & _ & _ & _ & Hst).
  destruct rows as [|r0 rows]; [done|].
  assert (Hall : ∀ r, r ∈ r0 :: rows → r ∈ data).
  { intros r Hr. apply list_elem_of_lookup in Hr as [j Hj].
    destruct (Forall2_lookup_r _ _ _ _ _ Hg Hj) as (i & _ & Hi).
    apply list_elem_of_lookup. by exists i. }
  unfold batch_of_rows. destruct md.
  - destruct Hst as [Hsome _]. rewrite Forall_forall in Hsome.
    destruct (map_result_labels (item_of_row (char2idx ds) ModeTrain <$> r0 :: rows))
      as (sts & Hm & Hsts).
    { apply Forall_fmap, Forall_forall. intros r Hr. simpl. by apply Hsome, Hall. }
    unfold collate_fn. rewrite fmap_cons. cbn [item_of_row item_stress].
    destruct (Hsome r0 (Hall r0 ltac:(by left))) as [s0 Hs0]. rewrite Hs0.
    rewrite fmap_cons in Hm. rewrite Hm. simpl.
    assert (sts = (λ r, default 0 (row_stress r)) <$> r0 :: rows) as ->.
    { apply list_eq. intros j. rewrite list_lookup_fmap.
      rewrite Forall2_fmap_l in Hsts.
      destruct ((r0 :: rows) !! j) as [r|] eqn:Hr.
      - destruct (Forall2_lookup_l _ _ _ _ _ Hsts Hr) as (s & -> & Hs).
        simpl in Hs. simpl. by rewrite Hs.
      - simpl. apply lookup_ge_None. apply lookup_ge_None in Hr.
        pose proof (Forall2_length _ _ _ Hsts) as Hlen. simpl in *. lia. }
    rewrite <- !list_fmap_compose.
    assert (Hlens : ∀ r, length (Vocab.encode_word (row_word r) (char2idx ds))
                         = length (row_word r))
      by (intros; unfold Vocab.encode_word; by rewrite length_fmap).
    do 2 f_equal. f_equal; [done|].
    apply list_fmap_ext. intros _ r _. simpl. apply Hlens.
  - unfold collate_fn. rewrite fmap_cons. simpl.
    rewrite <- !list_fmap_compose.
    assert (Hlens : ∀ r, length (Vocab.encode_word (row_word r) (char2idx ds))
                         = length (row_word r))
      by (intros; unfold Vocab.encode_word; by rewrite length_fmap).
    do 2 f_equal. f_equal; [done|].
    apply list_fmap_ext. intros _ r _. simpl. apply Hlens.
Qed.

Lemma load_groups data vocab md ds (groups : list (list nat)) rowss :
  StressDataset_init data vocab md = Ok ds →
  Forall2 (Forall2 (λ i r, data !! i = Some r)) groups rowss →
  Forall (λ rows, rows ≠ []) rowss →
  map_result (load_group ds) groups
  = Ok (batch_of_rows (char2idx ds) md <$> rowss).
Proof.
  intros Hd Hg. induction Hg as [|group rows groups rowss Hgr _ IH];
    intros Hne; [done|].
  apply Forall_cons in Hne as [Hne1 Hne]. simpl.
  rewrite (load_group_rows _ _ _ _ _ _ Hd Hgr Hne1). simpl. by rewrite IH.
Qed.

Lemma sequential_rows data vocab md ds :
  StressDataset_init data vocab md = Ok ds →
  Forall2 (λ i r, data !! i = Some r) (sequential ds) data.
Proof.
  intros Hd. apply StressDataset_init_ok in Hd as (_ & Hw & _).
  unfold sequential. rewrite Hw, length_fmap.
  apply Forall2_lookup. intros i.
  destruct (data !! i) as [r|] eqn:Hr.
  - rewrite (lookup_seq_lt _ _ _ (lookup_lt_Some _ _ _ Hr)). by constructor.
  - rewrite lookup_seq_ge; [constructor|]. by apply lookup_ge_None.
Qed.

(** The loader of a data set, for any order of indices that are in
    range. *)
Lemma DataLoader_rows data vocab md ds bs (idxs : list nat) rows :
  StressDataset_init data vocab md = Ok ds → 0 < bs →
  Forall2 (λ i r, data !! i = Some r) idxs rows →
  DataLoader ds bs idxs
  = Ok (batch_of_rows (char2idx ds) md <$> chunks (Z.to_nat bs) rows).
Proof.
  intros Hd Hbs Hrows. unfold DataLoader.
  rewrite bool_decide_eq_false_2 by lia.
  apply (load_groups _ _ _ _ _ _ Hd).
  - by apply chunks_Forall2.
  - eapply Forall_impl; [apply chunks_sizes; lia|].
    intros g [Hg _] ->. simpl in Hg. lia.
Qed.

End DatasetFacts.

Lemma chunks_aux_full {A} (fuel n : nat) (l : list A) (i : nat) g :
  chunks_aux fuel n l !! i = Some g →
  (S i < length (chunks_aux fuel n l))%nat → length g = n.
Proof.
  revert l i. induction fuel as [|fuel IH]; intros l i Hg Hi; [done|].
  destruct l as [|x l]; [done|]. cbn [chunks_aux] in *.
  rewrite length_cons in Hi. destruct i as [|i].
  - injection Hg as <-. rewrite length_take.
    destruct (chunks_aux fuel n (drop n (x :: l))) as [|g' rest] eqn:Hrest;
      [simpl in Hi; lia|].
    destruct (decide (n ≤ length (x :: l))%nat) as [|Hlt]; [lia|].
    rewrite drop_ge in Hrest by lia.
    by destruct fuel.
  - rewrite lookup_cons in Hg. apply (IH (drop n (x :: l)) i); [done|lia].
Qed.

(** X6. A data set built from a CSV file has one item per row: item [i]
    carries the identifier, the word and the syllable count of row [i],
    the word encoded with the vocabulary of the data set (the one passed
    in, or else the one built from the words of the file), and the label
    of the row in train mode, none in test mode. An index beyond the last
    row raises [IndexError]. A train-mode data set exists only if every
    row has a label. *)
Theorem dataset_items (data : list Row) (vocab : option (gmap (list N) Z))
    (md : Mode) (ds : StressDataset) :
  StressDataset_init data vocab md = Ok ds →
  length (words ds) = length data
  ∧ char2idx ds = match vocab with
                  | Some c => c
                  | None => (Vocab.build_vocab (row_word <$> data)).1
                  end
  ∧ (∀ (i : nat) r, data !! i = Some r →
       getitem ds i = Ok (item_of_row (char2idx ds) md r))
  ∧ (∀ i : nat, (length data ≤ i)%nat → getitem ds i = Raise IndexError)
  ∧ (md = ModeTrain → Forall (λ r, is_Some (row_stress r)) data).
Proof.
  intros Hd. pose proof Hd as Hok.
  apply StressDataset_init_ok in Hok as (_ & Hw & _ & _ & Hc & _ & Hst).
  split; [by rewrite Hw, length_fmap|]. split; [done|]. split; [|split].
  - intros i r Hi. by eapply getitem_row.
  - intros i Hi. by eapply getitem_out_of_range.
  - intros ->. by destruct Hst.
Qed.

Lemma dataset_items_witness :
  ∃ ds, StressDataset_init example_test_csv None ModeTest = Ok ds
        ∧ getitem ds 1
          = Ok (item_of_row (char2idx ds) ModeTest
                  {| row_id := 8; row_word := [97; 112; 112; 108; 101]%N;
                     row_num_syllables := 2; row_stress := None |})
        ∧ getitem ds 2 = Raise IndexError.
Proof.
  destruct (StressDataset_init example_test_csv None ModeTest) as [ds|] eqn:E;
    [|by vm_compute in E].
  exists ds. split; [reflexivity|].
  destruct (dataset_items example_test_csv None ModeTest ds E)
    as (_ & _ & Hitem & Hout & _).
  split; [exact (Hitem 1%nat _ eq_refl)|].
  apply Hout. simpl. lia.
Defined.

(** X7. With a positive batch size, the loader cuts the rows, taken in the
    order of the sampler, into consecutive groups and collates each: the
    groups put end to end are the rows again, none is empty, all but the
    last have exactly [batch_size] rows and the last at most that many.
    A batch size of zero or less raises [ValueError]. *)
Theorem loader_batches (data : list Row) (vocab : option (gmap (list N) Z))
    (md : Mode) (ds : StressDataset) (bs : Z) (idxs : list nat)
    (rows : list Row) :
  StressDataset_init data vocab md = Ok ds → 0 < bs →
  Forall2 (λ i r, data !! i = Some r) idxs rows →
  (∃ groups : list (list Row),
     DataLoader ds bs idxs = Ok (batch_of_rows (char2idx ds) md <$> groups)
     ∧ mjoin groups = rows
     ∧ Forall (λ g, 0 < length g ≤ Z.to_nat bs)%nat groups
     ∧ ∀ (i : nat) g, groups !! i = Some g → (S i < length groups)%nat →
         length g = Z.to_nat bs)
  ∧ (∃ groups : list (list Row),
       DataLoader ds bs (sequential ds)
       = Ok (batch_of_rows (char2idx ds) md <$> groups)
       ∧ mjoin groups = data)
  ∧ ∀ bs' idxs', bs' ≤ 0 → DataLoader ds bs' idxs' = Raise ValueError.
Proof.
  intros Hd Hbs Hrows. split; [|split].
  - exists (chunks (Z.to_nat bs) rows).
    split; [by eapply DataLoader_rows|]. split; [apply chunks_join; lia|].
    split; [apply chunks_sizes; lia|].
    intros i g Hg Hi. by eapply chunks_aux_full.
  - exists (chunks (Z.to_nat bs) data). split; [|apply chunks_join; lia].
    eapply DataLoader_rows; [done|done|]. by eapply sequential_rows.
  - intros bs' idxs' Hbs'. unfold DataLoader.
    by rewrite bool_decide_eq_true_2.
Qed.

Lemma loader_batches_witness :
  ∃ ds (groups : list (list Row)),
    StressDataset_init example_train_csv None ModeTrain = Ok ds
    ∧ DataLoader ds 2 (sequential ds)
      = Ok (batch_of_rows (char2idx ds) ModeTrain <$> groups)
    ∧ mjoin groups = example_train_csv.
Proof.
  destruct (StressDataset_init example_train_csv None ModeTrain) as [ds|] eqn:E;
    [|by vm_compute in E].
  destruct (loader_batches example_train_csv None ModeTrain ds 2 [] [] E)
    as (_ & (groups & Hl & Hj) & _); [lia|constructor|].
  exists ds, groups. split; [reflexivity|]. split; [exact Hl|exact Hj].
Defined.

(** ** The forward pass: when it returns, and the shape of what it returns *)

Section ForwardShape.

Context `{backend : Backend}.

Implicit Types (m : StressModel weights) (x : list (list Z)) (lengths : list nat).

Lemma embedding_ok_range m (row : list Z) e :
  embedding m row = Ok e → Forall (λ i, 0 ≤ i < vocab_size m) row.
Proof.
  revert e. unfold embedding.
  induction row as [|i row IH]; intros e He; [constructor|].
  simpl in He. case_bool_decide; simpl in He; [|done].
  destruct (map_result _ row) as [e'|] eqn:Hrest; simpl in He; [|done].
  constructor; [done|]. by eapply IH.
Qed.

Lemma map_result_Forall {A B} (f : A → result B) (P : A → Prop) (l : list A) l' :
  (∀ a b, f a = Ok b → P a) → map_result f l = Ok l' → Forall P l.
Proof.
  intros Hf. revert l'. induction l as [|a l IH]; intros l' Hm; [constructor|].
  simpl in Hm. bind_ok Hm. bind_ok Hm. constructor; [by eapply Hf|by eapply IH].
Qed.

Lemma pack_ok_Forall2 (embedded : list (list vec)) lengths packed :
  pack_padded_sequence embedded lengths = Ok packed →
  Forall2 (λ row n, (0 < n ≤ length row)%nat) embedded lengths.
Proof.
  revert lengths packed.
  induction embedded as [|row embedded IH]; intros [|n lengths] packed Hp;
    simpl in Hp; try discriminate Hp.
  - constructor.
  - case_bool_decide; [|done]. bind_ok Hp. constructor; [done|by eapply IH].
Qed.

Lemma fc_length m (h : list vec) : length (fc m h) = Z.to_nat (num_classes m).
Proof. unfold fc. by rewrite length_fmap, length_seq. Qed.

Lemma forward_conditions m g x lengths out g' :
  forward m g x lengths = Ok (out, g') →
  Forall (Forall (λ i, 0 ≤ i < vocab_size m)) x
  ∧ Forall2 (λ row n, (0 < n ≤ length row)%nat) x lengths.
Proof.
  unfold forward. intros Hf. bind_ok Hf. bind_ok Hf. split.
  - eapply map_result_Forall; [|exact E]. intros row e. apply embedding_ok_range.
  - apply pack_ok_Forall2 in E0. apply embedded_lengths in E.
    clear Hf. revert lengths E0.
    induction E as [|e row es rows Hlen _ IH]; intros lengths Hp;
      inversion Hp; subst; constructor; [lia|by apply IH].
Qed.

Lemma forward_returns m g x lengths :
  Forall (Forall (λ i, 0 ≤ i < vocab_size m)) x →
  Forall2 (λ row n, (0 < n ≤ length row)%nat) x lengths →
  ∃ out g', forward m g x lengths = Ok (out, g').
Proof.
  intros Hx Hl. unfold forward.
  rewrite (map_result_total _ (λ row, embedding_row (params m) <$> row)).
  2:{ eapply Forall_impl; [exact Hx|]. intros row. apply embedding_total. }
  step_ok. rewrite pack_total.
  2:{ apply Forall2_fmap_l. eapply Forall2_impl; [exact Hl|].
      intros row n. simpl. by rewrite length_fmap. }
  step_ok. destruct (bidirectional m); [by eexists _, _|].
  destruct (dp m g _) as [hs g1]. by eexists _, _.
Qed.

Lemma forward_widths m g x lengths out g' :
  forward m g x lengths = Ok (out, g') →
  Forall (λ row, length row = Z.to_nat (num_classes m)) out.
Proof.
  unfold forward. intros Hf. bind_ok Hf. bind_ok Hf.
  destruct (bidirectional m).
  - injection Hf as <- _. apply Forall_fmap, Forall_true. intros row. apply fc_length.
  - destruct (dp m g _) as [hs g1]. injection Hf as <- _.
    apply Forall_fmap, Forall_true. intros row. apply fc_length.
Qed.

Lemma forward_generator m g x lengths out g' :
  bidirectional m = true ∨ training m = false →
  forward m g x lengths = Ok (out, g') → g' = g.
Proof.
  unfold forward. intros Hmode Hf. bind_ok Hf. bind_ok Hf.
  destruct (bidirectional m) eqn:Hbi.
  - by injection Hf as _ <-.
  - destruct Hmode as [|Heval]; [done|]. rewrite dp_eval in Hf by done.
    by injection Hf as _ <-.
Qed.

End ForwardShape.

(** X8. On a non-empty batch with one reported length per row, the
    forward pass returns exactly when every index of the batch is a row
    of the embedding table and every length is positive and within the
    width of its row. What it returns has one row of logits per example,
    each [num_classes] wide; the random generator is left as it was
    unless the model is the unidirectional one in training mode, where
    dropout draws from it. *)
Theorem forward_defined `{backend : Backend} (m : StressModel weights)
    (g : generator) (x : list (list Z)) (lengths : list nat) :
  x ≠ [] → length lengths = length x →
  ((∃ out g', forward m g x lengths = Ok (out, g')) ↔
   Forall (Forall (λ i, 0 ≤ i < vocab_size m)) x
   ∧ Forall2 (λ row n, (0 < n ≤ length row)%nat) x lengths)
  ∧ ∀ out g', forward m g x lengths = Ok (out, g') →
      length out = length x
      ∧ Forall (λ row, length row = Z.to_nat (num_classes m)) out
      ∧ (bidirectional m = true ∨ training m = false → g' = g).
Proof.
  intros _ _. split.
  - split.
    + intros (out & g' & Hf). by eapply forward_conditions.
    + intros [Hx Hl]. by apply forward_returns.
  - intros out g' Hf. split; [by eapply forward_length|].
    split; [by eapply forward_widths|]. intros Hmode. by eapply forward_generator.
Qed.

Section ForwardShapeExample.

#[local] Existing Instance integer_backend.

Lemma forward_defined_witness :
  ∃ out g', forward example_model example_generator
                    [[3; 1; 8; 0]; [2; 1; 6; 1]] [3; 4]%nat = Ok (out, g')
            ∧ length out = 2%nat
            ∧ Forall (λ row, length row = 3%nat) out.
Proof.
  destruct (forward_defined example_model example_generator
              [[3; 1; 8; 0]; [2; 1; 6; 1]] [3; 4]%nat) as [Hiff Hshape];
    [discriminate|reflexivity|].
  destruct (proj2 Hiff) as (out & g' & Hf).
  { split.
    - repeat constructor; simpl; lia.
    - repeat constructor; simpl; lia. }
  exists out, g'. split; [exact Hf|].
  destruct (Hshape out g' Hf) as (Hlen & Hwid & _).
  split; [exact Hlen|exact Hwid].
Defined.

End ForwardShapeExample.

(** ** Batching is transparent: the loops work row by row *)

Section RowwiseFacts.

Context `{backend : Backend}.

Implicit Types (m : StressModel weights) (c2i : gmap (list N) Z) (r : Row)
  (rows : list Row) (groups : list (list Row)).

Lemma map_result_app {A B} (f : A → result B) (l1 l2 : list A) :
  map_result f (l1 ++ l2)
  = (a ← map_result f l1; b ← map_result f l2; Ok (a ++ b)).
Proof.
  induction l1 as [|x l1 IH]; simpl.
  - by destruct (map_result f l2).
  - destruct (f x); simpl; [|done]. rewrite IH.
    destruct (map_result f l1); simpl; [|done].
    by destruct (map_result f l2).
Qed.

Lemma map_result_Forall2 {A B} (f : A → result B) (l : list A) l' :
  map_result f l = Ok l' ↔ Forall2 (λ a b, f a = Ok b) l l'.
Proof.
  revert l'. induction l as [|a l IH]; intros l'; simpl.
  - split; [by intros [= <-]; constructor|]. by inversion 1.
  - split.
    + intros Hm. bind_ok Hm. bind_ok Hm. injection Hm as <-.
      constructor; [done|by apply IH].
    + inversion 1 as [|? b ? bs Hb Hbs]; subst. rewrite Hb. step_ok.
      apply IH in Hbs. rewrite Hbs. by step_ok.
Qed.

Lemma map_result_seq {A B} (F : nat → result B) (G : A → result B)
    (l : list A) (s : nat) :
  (∀ i a, l !! i = Some a → F (s + i)%nat = G a) →
  map_result F (seq s (length l)) = map_result G l.
Proof.
  revert s. induction l as [|a l IH]; intros s HF; simpl; [done|].
  rewrite <- (HF 0%nat a eq_refl), Nat.add_0_r.
  rewrite (IH (S s)); [done|].
  intros i a' Hi. rewrite <- (HF (S i) a' Hi). f_equal. lia.
Qed.

(** A loop that appends one result per element collects the results of
    the elements. *)
Lemma for_each_collect {A B} (f : A → result B) (acc : list B) (l : list A) :
  for_each (λ acc a, b ← f a; Ok (acc ++ [b])) acc l
  = (new ← map_result f l; Ok (acc ++ new)).
Proof.
  revert acc. induction l as [|a l IH]; intros acc; simpl.
  - by rewrite app_nil_r.
  - destruct (f a) as [b|]; simpl; [|done]. rewrite IH.
    destruct (map_result f l); simpl; [|done]. by rewrite <- app_assoc.
Qed.

(** A loop that counts hits and rounds counts the hits among the results
    of the elements. *)
Lemma for_each_count {A} (f : A → result bool) (c t : Z) (l : list A) :
  for_each (λ '(c, t) a, h ← f a; Ok (if h : bool then c + 1 else c, t + 1))
           (c, t) l
  = (hs ← map_result f l;
     Ok (c + Z.of_nat (length (filter (λ h, h = true) hs)),
         t + Z.of_nat (length hs))).
Proof.
  revert c t. induction l as [|a l IH]; intros c t; simpl.
  - do 2 f_equal; lia.
  - destruct (f a) as [h|]; simpl; [|done]. rewrite IH.
    destruct (map_result f l) as [hs|]; [|done]. do 2 step_ok.
    destruct h.
    + rewrite filter_cons_True by done. rewrite !length_cons. do 2 f_equal; lia.
    + rewrite filter_cons_False by done. rewrite !length_cons. do 2 f_equal; lia.
Qed.

Lemma encode_word_length (w : list N) c2i :
  length (Vocab.encode_word w c2i) = length w.
Proof. unfold Vocab.encode_word. by rewrite length_fmap. Qed.

Lemma batch_row c2i md rows (i : nat) r :
  rows !! i = Some r →
  (∃ p, b_encoded (batch_of_rows c2i md rows) !! i
        = Some (Vocab.encode_word (row_word r) c2i ++ replicate p 0))
  ∧ b_lengths (batch_of_rows c2i md rows) !! i
    = Some (length (Vocab.encode_word (row_word r) c2i))
  ∧ b_num_syllables (batch_of_rows c2i md rows) !! i
    = Some (row_num_syllables r)
  ∧ b_id (batch_of_rows c2i md rows) !! i = Some (row_id r).
Proof.
  intros Hi. unfold batch_of_rows. cbn [b_encoded b_lengths b_num_syllables b_id].
  split; [|split; [|split]].
  - destruct (pad_sequence_lookup
                ((λ r, Vocab.encode_word (row_word r) c2i) <$> rows) i
                (Vocab.encode_word (row_word r) c2i)) as (p & Hp & _).
    { by rewrite list_lookup_fmap, Hi. }
    by exists p.
  - by rewrite list_lookup_fmap, Hi, encode_word_length.
  - by rewrite list_lookup_fmap, Hi.
  - by rewrite list_lookup_fmap, Hi.
Qed.

Lemma batch_lengths c2i md rows :
  length (b_encoded (batch_of_rows c2i md rows)) = length rows
  ∧ length (b_lengths (batch_of_rows c2i md rows)) = length rows.
Proof.
  unfold batch_of_rows, Torch.pad_sequence. cbn [b_encoded b_lengths].
  by rewrite !length_fmap.
Qed.

(** The forward pass accepts a batch only if it accepts each of its
    rows. *)
Lemma forward_batch_accepted m g c2i md rows out g' :
  forward m g (b_encoded (batch_of_rows c2i md rows))
              (b_lengths (batch_of_rows c2i md rows)) = Ok (out, g') →
  Forall (accepted m c2i) rows.
Proof.
  intros Hf. apply forward_conditions in Hf as [Hx Hl].
  apply Forall_lookup. intros i r Hi.
  destruct (batch_row c2i md rows i r Hi) as ((p & Hp) & Hn & _).
  split.
  - destruct (Forall2_lookup_lr _ _ _ _ _ _ Hl Hp Hn) as [Hpos _].
    rewrite encode_word_length in Hpos.
    destruct (row_word r); [simpl in Hpos; lia|done].
  - rewrite Forall_lookup in Hx. specialize (Hx _ _ Hp).
    by apply Forall_app in Hx as [Hx _].
Qed.

Lemma accepted_vocab_size m c2i r : accepted m c2i r → 1 ≤ vocab_size m.
Proof.
  intros [Hne Hr]. destruct (row_word r) as [|c w]; [done|].
  rewrite encode_word_cons in Hr. apply Forall_cons in Hr as [Hc _]. lia.
Qed.

(** And it accepts every batch of accepted rows. *)
Lemma forward_batch_returns m g c2i md rows :
  Forall (accepted m c2i) rows →
  ∃ out g', forward m g (b_encoded (batch_of_rows c2i md rows))
                        (b_lengths (batch_of_rows c2i md rows)) = Ok (out, g').
Proof.
  intros Hacc. apply forward_returns.
  - apply Forall_lookup. intros i row Hrow.
    destruct (lookup_lt_is_Some_2 rows i) as [r Hr].
    { apply lookup_lt_Some in Hrow. by rewrite (proj1 (batch_lengths _ _ _)) in Hrow. }
    destruct (batch_row c2i md rows i r Hr) as ((p & Hp) & _).
    rewrite Hp in Hrow. injection Hrow as <-.
    rewrite Forall_lookup in Hacc. specialize (Hacc _ _ Hr).
    apply Forall_app. split; [apply Hacc|].
    apply Forall_replicate. apply accepted_vocab_size in Hacc. lia.
  - apply Forall2_same_length_lookup_2.
    { destruct (batch_lengths c2i md rows) as [-> ->]. done. }
    intros i row n Hrow Hn.
    destruct (lookup_lt_is_Some_2 rows i) as [r Hr].
    { apply lookup_lt_Some in Hrow. by rewrite (proj1 (batch_lengths _ _ _)) in Hrow. }
    destruct (batch_row c2i md rows i r Hr) as ((p & Hp) & Hn' & _).
    rewrite Hp in Hrow. injection Hrow as <-.
    rewrite Hn' in Hn. injection Hn as <-.
    rewrite Forall_lookup in Hacc. destruct (Hacc _ _ Hr) as [Hne _].
    rewrite length_app, encode_word_length.
    destruct (row_word r); [done|simpl; lia].
Qed.

(** With dropout inactive, the logits of a batch are those of its rows,
    each processed on its own. *)
Lemma forward_batch m g c2i md rows out g' :
  bidirectional m = true ∨ training m = false →
  forward m g (b_encoded (batch_of_rows c2i md rows))
              (b_lengths (batch_of_rows c2i md rows)) = Ok (out, g') →
  out = (λ r, word_logits m (Vocab.encode_word (row_word r) c2i)) <$> rows.
Proof.
  intros Hmode Hf. apply list_eq. intros i.
  rewrite list_lookup_fmap.
  destruct (rows !! i) as [r|] eqn:Hr; simpl.
  - destruct (batch_row c2i md rows i r Hr) as ((p & Hp) & Hn & _).
    rewrite (forward_row _ _ _ _ _ _ _ _ _ Hmode Hf Hp Hn).
    by rewrite take_app_length.
  - apply lookup_ge_None. apply forward_length in Hf. rewrite Hf.
    rewrite (proj1 (batch_lengths _ _ _)). by apply lookup_ge_None.
Qed.

End RowwiseFacts.

Section PredictRowwise.

Context `{backend : Backend}.

Implicit Types (m : StressModel weights) (c2i : gmap (list N) Z) (r : Row)
  (rows : list Row) (groups : list (list Row)).

Lemma predicted_stress_eval b m c2i r :
  predicted_stress (set_training b m) c2i r = predicted_stress m c2i r.
Proof. done. Qed.

Lemma accepted_eval b m c2i r : accepted (set_training b m) c2i r ↔ accepted m c2i r.
Proof. done. Qed.

Lemma Forall_mjoin {A} (P : A → Prop) (ls : list (list A)) :
  Forall P (mjoin ls) ↔ Forall (Forall P) ls.
Proof.
  induction ls as [|l ls IH]; simpl.
  - split; constructor.
  - rewrite Forall_app, Forall_cons, IH. done.
Qed.

Lemma predict_rows_rowwise (L : Row → list R) rows (acc : list Z) :
  predict_rows (L <$> rows) (row_num_syllables <$> rows) acc
  = (new ← map_result (λ r, decode (L r) (row_num_syllables r)) rows;
     Ok (acc ++ new)).
Proof.
  unfold predict_rows.
  rewrite (for_each_ext _
    (λ acc i, b ← (valid_len ← Torch.item (row_num_syllables <$> rows) i;
                   decode ((L <$> rows) !!! i) valid_len);
              Ok (acc ++ [b]))).
  2:{ intros preds i. by destruct (Torch.item _ i). }
  rewrite for_each_collect, length_fmap.
  rewrite (map_result_seq _ (λ r, decode (L r) (row_num_syllables r))); [done|].
  intros i r Hi. simpl. unfold Torch.item.
  rewrite list_lookup_fmap, Hi. simpl.
  by rewrite (list_lookup_total_correct (L <$> rows) i (L r))
    by (by rewrite list_lookup_fmap, Hi).
Qed.

Lemma predict_step_rowwise m g c2i md rows (acc : list Z * list Z) :
  training m = false → Forall (accepted m c2i) rows →
  predict_step m g acc (batch_of_rows c2i md rows)
  = (new ← map_result (predicted_stress m c2i) rows;
     Ok (acc.1 ++ (row_id <$> rows), acc.2 ++ new)).
Proof.
  intros Heval Hacc. unfold predict_step.
  destruct (forward_batch_returns m g c2i md rows Hacc) as (out & g' & Hf).
  rewrite Hf. step_ok.
  apply forward_batch in Hf as ->; [|by right].
  change (b_num_syllables (batch_of_rows c2i md rows))
    with (row_num_syllables <$> rows).
  rewrite predict_rows_rowwise.
  change (map_result _ rows) with (map_result (predicted_stress m c2i) rows).
  by destruct (map_result (predicted_stress m c2i) rows).
Qed.

Lemma predict_loop_rowwise m g c2i md groups (acc : list Z * list Z) :
  training m = false → Forall (Forall (accepted m c2i)) groups →
  for_each (predict_step m g) acc (batch_of_rows c2i md <$> groups)
  = (new ← map_result (predicted_stress m c2i) (mjoin groups);
     Ok (acc.1 ++ (row_id <$> mjoin groups), acc.2 ++ new)).
Proof.
  intros Heval Hacc. revert acc.
  induction Hacc as [|rows groups Hrows _ IH]; intros acc.
  - simpl. by rewrite !app_nil_r, <- surjective_pairing.
  - rewrite fmap_cons. cbn [for_each]. rewrite predict_step_rowwise by done.
    cbn [mjoin list_join]. rewrite map_result_app, fmap_app.
    destruct (map_result (predicted_stress m c2i) rows) as [new1|]; [|done].
    do 2 step_ok. rewrite IH. cbn [fst snd].
    destruct (map_result (predicted_stress m c2i) (mjoin groups)) as [new2|];
      [|done].
    do 2 step_ok. by rewrite !app_assoc.
Qed.

Lemma predict_loop_accepted m g c2i md groups (acc res : list Z * list Z) :
  for_each (predict_step m g) acc (batch_of_rows c2i md <$> groups) = Ok res →
  Forall (Forall (accepted m c2i)) groups.
Proof.
  revert acc. induction groups as [|rows groups IH]; intros acc Hl; [constructor|].
  rewrite fmap_cons in Hl. cbn [for_each] in Hl. bind_ok Hl.
  constructor; [|by eapply IH].
  unfold predict_step in E. bind_ok E. destruct a0 as [logits g'].
  by eapply forward_batch_accepted.
Qed.

Lemma predict_batches m g c2i md groups ids preds :
  predict m (batch_of_rows c2i md <$> groups) g = Ok (ids, preds) ↔
  Forall (accepted m c2i) (mjoin groups)
  ∧ ids = row_id <$> mjoin groups
  ∧ Forall2 (λ r p, predicted_stress m c2i r = Ok p) (mjoin groups) preds.
Proof.
  unfold predict. split.
  - intros Hp. pose proof (predict_loop_accepted _ _ _ _ _ _ _ Hp) as Hacc.
    split; [by apply Forall_mjoin|].
    rewrite predict_loop_rowwise in Hp by done.
    bind_ok Hp. injection Hp as <- <-. split; [done|].
    by apply map_result_Forall2 in E.
  - intros (Hacc & -> & Hpred). apply Forall_mjoin in Hacc.
    rewrite predict_loop_rowwise by done.
    apply map_result_Forall2 in Hpred.
    change (map_result (predicted_stress (set_training false m) c2i) (mjoin groups))
      with (map_result (predicted_stress m c2i) (mjoin groups)).
    by rewrite Hpred.
Qed.

Lemma word_logits_length m (enc : list Z) :
  length (word_logits m enc) = Z.to_nat (num_classes m).
Proof. unfold word_logits. destruct (bidirectional m); apply fc_length. Qed.

Lemma decode_range (L : list R) (k p : Z) :
  decode L k = Ok p →
  1 ≤ p ≤ Z.of_nat (length L) ∧ (0 ≤ k → p ≤ k).
Proof.
  unfold decode, decode0. intros Hd. bind_ok Hd. injection Hd as <-.
  destruct (Torch.slice_to L k) as [|x v] eqn:Hs; [done|].
  destruct (argmax_first_max (x :: v)) as (j & Hj & Hmax); [done|].
  rewrite Hj in E. injection E as <-.
  apply first_max_lt_length in Hmax. rewrite <- Hs in Hmax.
  unfold Torch.slice_to in Hmax. rewrite length_take in Hmax.
  split; [lia|]. intros Hk. destruct (Z.ltb_spec k 0); lia.
Qed.

Lemma predicted_stress_range m c2i r p :
  predicted_stress m c2i r = Ok p →
  1 ≤ p ≤ num_classes m ∧ (0 ≤ row_num_syllables r → p ≤ row_num_syllables r).
Proof.
  unfold predicted_stress. intros Hp. apply decode_range in Hp as [Hp Hk].
  rewrite word_logits_length in Hp. split; [lia|done].
Qed.

End PredictRowwise.

(** X9. [predict] works row by row whatever the batching: on batches
    collated from groups of rows it returns exactly when the encoder
    accepts every row and the decode of every row returns; the
    identifiers then come back in the order of the rows, and the
    prediction of each row is the decode of the logits the word gets when
    processed on its own. The training flag of the model and the state
    of the random generator play no part. *)
Theorem predict_rowwise `{backend : Backend} (m : StressModel weights)
    (g : generator) (c2i : gmap (list N) Z) (md : Mode)
    (groups : list (list Row)) (ids preds : list Z) :
  (predict m (batch_of_rows c2i md <$> groups) g = Ok (ids, preds) ↔
   Forall (accepted m c2i) (mjoin groups)
   ∧ ids = row_id <$> mjoin groups
   ∧ Forall2 (λ r p, predicted_stress m c2i r = Ok p) (mjoin groups) preds)
  ∧ (∀ b g' loader, predict (set_training b m) loader g' = predict m loader g).
Proof.
  split; [apply predict_batches|].
  intros b g' loader. by apply predict_eval_mode.
Qed.

Section PredictRun.

Context `{backend : Backend}.

Lemma test_loader_rows (c2i : gmap (list N) Z) (test_csv : list Row) bs loader :
  DataLoader (test_dataset c2i test_csv) bs
             (sequential (test_dataset c2i test_csv)) = Ok loader →
  0 < bs
  ∧ loader = batch_of_rows c2i ModeTest <$> chunks (Z.to_nat bs) test_csv.
Proof.
  intros Hl. pose proof Hl as Hbs. apply DataLoader_ok in Hbs as [Hbs _].
  split; [done|].
  pose proof (StressDataset_init_test test_csv c2i) as Hds.
  change (StressDataset_init test_csv (Some c2i) ModeTest
          = Ok (test_dataset c2i test_csv)) in Hds.
  rewrite (DataLoader_rows _ _ _ _ _ _ test_csv Hds Hbs) in Hl.
  - by injection Hl as <-.
  - by eapply sequential_rows.
Qed.

Lemma predict_with_rows (m : StressModel weights) c2i args test_csv g rows :
  predict_with m c2i args test_csv g = Ok rows ↔
  0 < batch_size args
  ∧ Forall (accepted m c2i) test_csv
  ∧ Forall2 (λ r row, row.1 = (row_id r, row_word r)
                      ∧ predicted_stress m c2i r = Ok row.2) test_csv rows.
Proof.
  unfold predict_with. split.
  - intros Hp. bind_ok Hp. destruct (predict m a g) as [[ids preds]|] eqn:Hpred;
      simpl in Hp; [|done].
    apply test_loader_rows in E as [Hbs ->].
    apply predict_batches in Hpred as (Hacc & -> & Hpreds).
    rewrite chunks_join in Hacc, Hpreds, Hp by lia.
    apply submission_ok in Hp as (_ & _ & ->).
    split; [done|]. split; [done|].
    cbn [words test_dataset].
    clear Hacc. induction Hpreds as [|r p rs ps Hp _ IH]; [constructor|].
    rewrite !fmap_cons. constructor; [done|apply IH].
  - intros (Hbs & Hacc & Hrows).
    pose proof (StressDataset_init_test test_csv c2i) as Hds.
    change (StressDataset_init test_csv (Some c2i) ModeTest
            = Ok (test_dataset c2i test_csv)) in Hds.
    rewrite (DataLoader_rows _ _ _ _ _ _ test_csv Hds Hbs)
      by (by eapply sequential_rows).
    step_ok. change (char2idx (test_dataset c2i test_csv)) with c2i.
    assert (Hpred : predict m (batch_of_rows c2i ModeTest
                                 <$> chunks (Z.to_nat (batch_size args)) test_csv) g
                    = Ok (row_id <$> test_csv, snd <$> rows)).
    { apply predict_batches. rewrite chunks_join by lia.
      split; [done|]. split; [done|].
      apply Forall2_fmap_r. eapply Forall2_impl; [exact Hrows|].
      by intros r row [_ Hp]. }
    rewrite Hpred. step_ok. apply submission_ok.
    cbn [words test_dataset]. rewrite !length_fmap.
    pose proof (Forall2_length _ _ _ Hrows) as Hlen.
    split; [done|]. split; [done|].
    clear Hpred Hacc Hlen Hds. induction Hrows as [|r row rs rows' [Hr _] _ IH]; [done|].
    rewrite !fmap_cons. cbn [zip_with]. rewrite <- IH, <- Hr.
    by destruct row as [[] ?].
Qed.

Lemma main_predict_predict_with nb args test_csv (wd : World)
    (m : StressModel weights) rows :
  main_predict nb args test_csv wd = Ok (m, rows) →
  ∃ ckpt g, files wd !! model_path args = Some ckpt
            ∧ predict_with m (ckpt_char2idx ckpt) args test_csv g = Ok rows.
Proof.
  intros Hp. apply main_predict_ok in Hp
    as (ckpt & C & g & loader & ids_all & preds & Hck & _ & _ & Hl & Hpred & Hsub).
  exists ckpt, g. split; [done|].
  unfold predict_with. rewrite Hl. step_ok. rewrite Hpred. by step_ok.
Qed.

End PredictRun.

(** X10. The rows the predict branch writes are those of [test.csv], in
    order and one for one: each keeps the identifier and the word of its
    row, and its stress is the decode of the logits the restored model
    gives the word on its own, encoded with the vocabulary of the
    checkpoint. The stress lies between 1 and the class count of the
    model, and within the syllable count of the row when that is not
    negative. *)
Theorem main_predict_rows `{backend : Backend} (nb : Notebook) (args : Args)
    (test_csv : list Row) (wd : World) (m : StressModel weights)
    (rows : list (Z * list N * Z)) :
  main_predict nb args test_csv wd = Ok (m, rows) →
  ∃ ckpt, files wd !! model_path args = Some ckpt
    ∧ Forall2 (λ r row,
                 row.1 = (row_id r, row_word r)
                 ∧ predicted_stress m (ckpt_char2idx ckpt) r = Ok row.2
                 ∧ 1 ≤ row.2 ≤ num_classes m
                 ∧ (0 ≤ row_num_syllables r → row.2 ≤ row_num_syllables r))
              test_csv rows.
Proof.
  intros Hp. apply main_predict_predict_with in Hp as (ckpt & g & Hck & Hw).
  exists ckpt. split; [done|].
  apply predict_with_rows in Hw as (_ & _ & Hrows).
  eapply Forall2_impl; [exact Hrows|].
  intros r row [Hr Hs]. split; [done|]. split; [done|].
  by apply predicted_stress_range in Hs.
Qed.

Section PredictRunExample.

#[local] Existing Instance integer_backend.

Lemma main_predict_rows_witness :
  ∃ (m : StressModel weights) rows ckpt,
    main_predict Test example_args example_test_csv3 trained_world = Ok (m, rows)
    ∧ files trained_world !! model_path example_args = Some ckpt
    ∧ Forall2 (λ r row,
                 row.1 = (row_id r, row_word r)
                 ∧ predicted_stress m (ckpt_char2idx ckpt) r = Ok row.2
                 ∧ 1 ≤ row.2 ≤ num_classes m
                 ∧ (0 ≤ row_num_syllables r → row.2 ≤ row_num_syllables r))
              example_test_csv3 rows.
Proof.
  destruct (main_predict Test example_args example_test_csv3 trained_world)
    as [[m rows]|] eqn:E; [|by vm_compute in E].
  destruct (main_predict_rows Test example_args example_test_csv3 trained_world
              m rows E) as (ckpt & Hck & Hrows).
  exists m, rows, ckpt. split; [reflexivity|]. split; [exact Hck|exact Hrows].
Defined.

End PredictRunExample.

Section EvaluateRowwise.

Context `{backend : Backend}.

Implicit Types (m : StressModel weights) (c2i : gmap (list N) Z) (r : Row)
  (rows : list Row) (groups : list (list Row)).

(** Whether the 0-indexed decode of a row agrees with its label, as the
    loop of [evaluate_model] tests it. *)
Lemma hit_decode0 m c2i r (h : bool) :
  is_Some (row_stress r) →
  (p ← decode0 (word_logits m (Vocab.encode_word (row_word r) c2i))
               (row_num_syllables r);
   Ok (bool_decide (p = default 0 (row_stress r) - 1))) = Ok h →
  h = hit m c2i r.
Proof.
  intros [s Hs] Hh. unfold hit, predicted_stress, decode.
  destruct (decode0 _ _) as [p|]; simpl in *; [|done].
  injection Hh as <-. rewrite Hs. simpl.
  apply bool_decide_ext. split; [intros ->; f_equal; lia|intros [= ->]; lia].
Qed.

Lemma evaluate_batch m g c2i rows (c t : Z) :
  training m = false → Forall (accepted m c2i) rows →
  ('(logits, _) ← forward m g (b_encoded (batch_of_rows c2i ModeTrain rows))
                              (b_lengths (batch_of_rows c2i ModeTrain rows));
   stresses ← batch_stress (batch_of_rows c2i ModeTrain rows);
   for_each (λ '(correct, total) i,
       valid_len ← Torch.item (b_num_syllables (batch_of_rows c2i ModeTrain rows)) i;
       pred ← decode0 (logits !!! i) valid_len;
       s ← Torch.item stresses i;
       let true := s - 1 in
       Ok (if bool_decide (pred = true) then correct + 1 else correct,
           total + 1))
     (c, t) (seq 0 (length logits)))
  = (hs ← map_result (λ r,
             p ← decode0 (word_logits m (Vocab.encode_word (row_word r) c2i))
                         (row_num_syllables r);
             Ok (bool_decide (p = default 0 (row_stress r) - 1))) rows;
     Ok (c + Z.of_nat (length (filter (λ h, h = true) hs)),
         t + Z.of_nat (length hs))).
Proof.
  intros Heval Hacc.
  destruct (forward_batch_returns m g c2i ModeTrain rows Hacc) as (out & g' & Hf).
  rewrite Hf. step_ok.
  apply forward_batch in Hf as ->; [|by right].
  change (batch_stress (batch_of_rows c2i ModeTrain rows))
    with (Ok (A:=list Z) ((λ r, default 0 (row_stress r)) <$> rows)).
  step_ok.
  change (b_num_syllables (batch_of_rows c2i ModeTrain rows))
    with (row_num_syllables <$> rows).
  set (L := λ r, word_logits m (Vocab.encode_word (row_word r) c2i)).
  rewrite (for_each_ext _
    (λ '(correct, total) i,
       h ← (valid_len ← Torch.item (row_num_syllables <$> rows) i;
            pred ← decode0 ((L <$> rows) !!! i) valid_len;
            s ← Torch.item ((λ r, default 0 (row_stress r)) <$> rows) i;
            Ok (bool_decide (pred = s - 1)));
       Ok (if h : bool then correct + 1 else correct, total + 1))).
  2:{ intros [c' t'] i. destruct (Torch.item (row_num_syllables <$> rows) i);
        simpl; [|done].
      destruct (decode0 _ _); simpl; [|done].
      by destruct (Torch.item _ i). }
  rewrite for_each_count, length_fmap.
  rewrite (map_result_seq _ (λ r,
             p ← decode0 (L r) (row_num_syllables r);
             Ok (bool_decide (p = default 0 (row_stress r) - 1)))); [done|].
  intros i r Hi. simpl. unfold Torch.item.
  rewrite !list_lookup_fmap, Hi. simpl.
  by rewrite (list_lookup_total_correct (L <$> rows) i (L r))
    by (by rewrite list_lookup_fmap, Hi).
Qed.

Lemma evaluate_rowwise m g c2i groups :
  Forall (Forall (accepted m c2i)) groups →
  evaluate_model m (batch_of_rows c2i ModeTrain <$> groups) g
  = (hs ← map_result (λ r,
             p ← decode0 (word_logits m (Vocab.encode_word (row_word r) c2i))
                         (row_num_syllables r);
             Ok (bool_decide (p = default 0 (row_stress r) - 1))) (mjoin groups);
     if bool_decide (hs = []) then Raise ZeroDivisionError
     else Ok (set_training false m, accuracy hs)).
Proof.
  intros Hacc. unfold evaluate_model.
  set (hit0 := λ r, p ← decode0 _ _; Ok (bool_decide (p = _))).
  match goal with
  | |- context [for_each ?F (0, 0) _] =>
      assert (Hloop : ∀ c t,
        for_each F (c, t) (batch_of_rows c2i ModeTrain <$> groups)
        = (hs ← map_result hit0 (mjoin groups);
           Ok (c + Z.of_nat (length (filter (λ h, h = true) hs)),
               t + Z.of_nat (length hs))))
  end.
  { induction Hacc as [|rows groups Hrows _ IH]; intros c t.
    - simpl. do 2 f_equal; lia.
    - rewrite fmap_cons. cbn [for_each].
      match goal with
      | |- mbind _ ?r = _ =>
          assert (Hb : r = (hs ← map_result hit0 rows;
                            Ok (c + Z.of_nat (length (filter (λ h, h = true) hs)),
                                t + Z.of_nat (length hs))))
      end.
      { by apply (evaluate_batch (set_training false m) g c2i rows c t). }
      rewrite Hb. cbn [mjoin list_join]. rewrite map_result_app.
      destruct (map_result hit0 rows) as [hs1|]; [|done]. do 2 step_ok.
      rewrite IH.
      destruct (map_result hit0 (mjoin groups)) as [hs2|]; [|done]. do 2 step_ok.
      rewrite filter_app, !length_app. do 2 f_equal; lia. }
  rewrite Hloop. destruct (map_result hit0 (mjoin groups)) as [hs|]; [|done].
  do 2 step_ok. rewrite !Z.add_0_l.
  destruct hs as [|h hs]; [done|].
  rewrite bool_decide_eq_false_2 by (rewrite length_cons; lia).
  by rewrite bool_decide_eq_false_2 by done.
Qed.

Lemma evaluate_accepted m g c2i groups res :
  evaluate_model m (batch_of_rows c2i ModeTrain <$> groups) g = Ok res →
  Forall (Forall (accepted m c2i)) groups.
Proof.
  unfold evaluate_model. intros He. bind_ok He. clear He.
  revert E. generalize (0, 0). intros st.
  revert st. induction groups as [|rows groups IH]; intros [c t] E; [constructor|].
  rewrite fmap_cons in E. cbn [for_each] in E. bind_ok E.
  constructor; [|by eapply IH].
  cbv beta iota in E0.
  match type of E0 with
  | mbind _ ?r = _ => destruct r as [[logits g']|] eqn:Hf; [|discriminate E0]
  end.
  apply forward_batch_accepted in Hf.
  eapply Forall_impl; [exact Hf|]. intros r. apply accepted_eval.
Qed.

Lemma hits_rows m c2i rows (hs : list bool) :
  Forall (λ r, is_Some (row_stress r)) rows →
  map_result (λ r,
      p ← decode0 (word_logits m (Vocab.encode_word (row_word r) c2i))
                  (row_num_syllables r);
      Ok (bool_decide (p = default 0 (row_stress r) - 1))) rows = Ok hs →
  hs = hit m c2i <$> rows.
Proof.
  intros Hlab Hm. apply map_result_Forall2 in Hm.
  induction Hm as [|r h rows hs Hh _ IH]; [done|].
  apply Forall_cons in Hlab as [Hr Hlab]. rewrite fmap_cons.
  f_equal; [by apply hit_decode0|by apply IH].
Qed.

End EvaluateRowwise.

Lemma accuracy_bounds (hs : list bool) :
  hs ≠ [] → (0 <= accuracy hs)%Q ∧ (accuracy hs <= 1)%Q.
Proof.
  intros Hne. unfold accuracy, Qle. cbn [Qnum Qden].
  pose proof (length_filter (λ h, h = true) hs) as Hle.
  assert (0 < length hs)%nat by (destruct hs; [done|simpl; lia]).
  rewrite Z2Pos.id by lia. lia.
Qed.

(** X11. The accuracy [evaluate_model] reports on the loader of a train
    data set is the fraction of rows whose predicted stress, the one
    [predict] would give the row, is the label of the row. The model
    comes back in evaluation mode with its parameters untouched, the
    accuracy lies between 0 and 1, and the evaluation returns only on a
    non-empty data set whose rows the encoder accepts. *)
Theorem evaluate_model_accuracy `{backend : Backend} (data : list Row)
    (vocab : option (gmap (list N) Z)) (ds : StressDataset) (bs : Z)
    (loader : list Batch) (m m' : StressModel weights) (g : generator) (acc : Q) :
  StressDataset_init data vocab ModeTrain = Ok ds →
  DataLoader ds bs (sequential ds) = Ok loader →
  evaluate_model m loader g = Ok (m', acc) →
  m' = set_training false m
  ∧ data ≠ []
  ∧ Forall (accepted m (char2idx ds)) data
  ∧ acc = accuracy (hit m (char2idx ds) <$> data)
  ∧ (0 <= acc)%Q ∧ (acc <= 1)%Q.
Proof.
  intros Hds Hl He.
  pose proof Hl as Hbs. apply DataLoader_ok in Hbs as [Hbs _].
  rewrite (DataLoader_rows _ _ _ _ _ _ data Hds Hbs) in Hl
    by (by eapply sequential_rows).
  injection Hl as <-.
  pose proof (evaluate_accepted _ _ _ _ _ He) as Hacc.
  rewrite evaluate_rowwise in He by done.
  rewrite chunks_join in He by lia.
  apply Forall_mjoin in Hacc. rewrite chunks_join in Hacc by lia.
  bind_ok He. case_bool_decide as Hne; [done|]. injection He as <- <-.
  apply StressDataset_init_ok in Hds as (_ & _ & _ & _ & _ & _ & Hlab & _).
  apply hits_rows in E; [|done]. subst a.
  split; [done|]. split; [by destruct data|]. split; [done|]. split; [done|].
  apply accuracy_bounds. by destruct data.
Qed.

Section EvaluateExample.

#[local] Existing Instance integer_backend.

Lemma evaluate_model_accuracy_witness :
  ∃ ds loader (m' : StressModel weights) acc,
    StressDataset_init example_train_csv None ModeTrain = Ok ds
    ∧ DataLoader ds 2 (sequential ds) = Ok loader
    ∧ evaluate_model example_model loader example_generator = Ok (m', acc)
    ∧ acc = accuracy (hit example_model (char2idx ds) <$> example_train_csv).
Proof.
  destruct (StressDataset_init example_train_csv None ModeTrain) as [ds|] eqn:Hds;
    [|by vm_compute in Hds].
  destruct (DataLoader ds 2 (sequential ds)) as [loader|] eqn:Hl.
  2:{ exfalso. injection Hds as <-. by vm_compute in Hl. }
  destruct (evaluate_model example_model loader example_generator)
    as [[m' acc]|] eqn:He.
  2:{ exfalso. injection Hds as <-. vm_compute in Hl. injection Hl as <-.
      by vm_compute in He. }
  exists ds, loader, m', acc.
  split; [reflexivity|]. split; [exact Hl|]. split; [exact He|].
  by destruct (evaluate_model_accuracy _ _ _ _ _ _ _ _ _ Hds Hl He)
    as (_ & _ & _ & -> & _).
Defined.

End EvaluateExample.

(** X12. Loading the state dictionary of one model into another returns
    exactly when the two have the same shape: vocabulary size, embedding
    and hidden width, class count and direction. The result is the
    receiving model with the parameters of the saved one: its own state
    dictionary is the one loaded, its training flag is kept. On any
    difference in shape the load raises [RuntimeError]. *)
Theorem state_dict_round_trip `{backend : Backend} (m m' : StressModel weights) :
  (∀ m'', load_state_dict m (state_dict m') = Ok m'' ↔
          shape m = shape m' ∧ m'' = set_params (params m') m)
  ∧ (shape m ≠ shape m' →
     load_state_dict m (state_dict m') = Raise RuntimeError)
  ∧ (∀ sd m'', load_state_dict m sd = Ok m'' →
       state_dict m'' = sd ∧ shape m'' = shape m ∧ training m'' = training m).
Proof.
  split; [|split].
  - intros m''. split.
    + intros Hl. apply load_state_dict_ok in Hl as [Hs ->].
      split; [|done]. symmetry. by apply param_shapes_inj.
    + intros [Hs ->]. unfold load_state_dict.
      rewrite bool_decide_eq_true_2; [done|].
      simpl. symmetry. by apply shape_param_shapes.
  - intros Hs. apply load_state_dict_mismatch. simpl. intros Hp.
    apply Hs. symmetry. by apply param_shapes_inj.
  - intros sd m'' Hl. apply load_state_dict_ok in Hl as [Hs ->].
    split; [|done]. destruct sd as [shapes data]. simpl in *.
    unfold state_dict. f_equal. rewrite Hs. by apply shape_param_shapes.
Qed.

Section RunFrame.

Context `{backend : Backend}.

Lemma main_train_files nb args train_csv (wd wd' : World) m :
  main_train nb args train_csv wd = Ok (m, wd') →
  files wd'
  = <[model_path args :=
        {| model_state_dict := state_dict m;
           ckpt_char2idx := (Vocab.build_vocab (row_word <$> train_csv)).1 |}]>
      (files wd).
Proof.
  unfold main_train. intros Hm. bind_ok Hm. destruct a as [[ds m0] g0]. simpl in Hm.
  bind_ok Hm. destruct a as [m1 g1]. simpl in Hm. injection Hm as <- <-.
  apply train_setup_ok in E as (Hds & _).
  apply StressDataset_init_columns in Hds as (_ & _ & Hvocab).
  simpl. by rewrite Hvocab.
Qed.

End RunFrame.

(** X13. In train mode a run of [main] that returns has written one
    checkpoint, the one at [model_path]: it holds the state dictionary of
    the trained model and the vocabulary built from the training words,
    every other checkpoint is as before, and no rows are produced. Rows
    are produced in predict mode only. A mode that is neither [train] nor
    [predict] does nothing at all, whatever the data. *)
Theorem main_frame `{backend : Backend} (nb : Notebook) (args : Args)
    (train_csv test_csv : list Row) (wd wd' : World)
    (out : option (list (Z * list N * Z))) :
  main nb args train_csv test_csv wd = Ok (wd', out) →
  (args_mode args = "train"%string →
     out = None
     ∧ (∃ m, main_train nb args train_csv wd = Ok (m, wd')
             ∧ files wd'
               = <[model_path args :=
                     {| model_state_dict := state_dict m;
                        ckpt_char2idx :=
                          (Vocab.build_vocab (row_word <$> train_csv)).1 |}]>
                   (files wd))
     ∧ ∀ path, path ≠ model_path args → files wd' !! path = files wd !! path)
  ∧ (is_Some out ↔ args_mode args = "predict"%string)
  ∧ (args_mode args ≠ "train"%string → args_mode args ≠ "predict"%string →
     wd' = wd
     ∧ ∀ train_csv' test_csv' wd0,
         main nb args train_csv' test_csv' wd0 = Ok (wd0, None)).
Proof.
  unfold main. intros Hm.
  destruct (decide (args_mode args = "train"%string)) as [Htrain|Htrain].
  - rewrite bool_decide_eq_true_2 in Hm by done.
    destruct (main_train nb args train_csv wd) as [[m wd1]|] eqn:Ht; [|done].
    simpl in Hm. injection Hm as <- <-.
    pose proof (main_train_files _ _ _ _ _ _ Ht) as Hfiles.
    split; [|split].
    + intros _. split; [done|]. split; [by exists m|].
      intros path Hpath. rewrite Hfiles. by apply lookup_insert_ne.
    + split; [by intros [? ?]|]. rewrite Htrain. done.
    + done.
  - rewrite bool_decide_eq_false_2 in Hm by done.
    destruct (decide (args_mode args = "predict"%string)) as [Hpred|Hpred].
    + rewrite bool_decide_eq_true_2 in Hm by done.
      destruct (main_predict nb args test_csv wd) as [[m rows]|]; [|done].
      simpl in Hm. injection Hm as <- <-.
      split; [done|]. split; [|done]. split; [done|]. by eexists.
    + rewrite bool_decide_eq_false_2 in Hm by done. injection Hm as <- <-.
      split; [done|]. split.
      * split; [by intros [? ?]|done].
      * intros _ _. split; [done|]. intros train_csv' test_csv' wd0.
        by rewrite !bool_decide_eq_false_2 by done.
Qed.

Section RunFrameExample.

#[local] Existing Instance integer_backend.

Lemma main_frame_witness :
  ∃ wd' out,
    main Test example_args example_train_csv [] example_world = Ok (wd', out)
    ∧ out = None
    ∧ ∀ path, path ≠ model_path example_args →
        files wd' !! path = files example_world !! path.
Proof.
  destruct (main Test example_args example_train_csv [] example_world)
    as [[wd' out]|] eqn:E; [|by vm_compute in E].
  exists wd', out. split; [reflexivity|].
  destruct (main_frame Test example_args example_train_csv [] example_world
              wd' out E) as (Htrain & _).
  destruct (Htrain eq_refl) as (Hout & _ & Hframe).
  split; [exact Hout|exact Hframe].
Defined.

End RunFrameExample.

(** ** The loss is a non-negative number *)

Section LossSign.

Implicit Types (v L : list R) (logits : list (list R)) (stresses syll : list Z).

Lemma exp_le_sum_exp v (t : nat) (x : R) :
  v !! t = Some x → (exp x <= Torch.sum_exp v)%R.
Proof.
  assert (Hnn : ∀ u, (0 <= Torch.sum_exp u)%R).
  { induction u as [|y u IH]; simpl; [lra|]. pose proof (exp_pos y). lra. }
  revert t. induction v as [|y v IH]; intros t Ht; [done|].
  destruct t as [|t]; simpl in *.
  - injection Ht as ->. specialize (Hnn v). lra.
  - specialize (IH t Ht). pose proof (exp_pos y). lra.
Qed.

Lemma categorical_cross_entropy_nonneg v (t : nat) :
  (t < length v)%nat → (0 <= categorical_cross_entropy v t)%R.
Proof.
  intros Ht. destruct (lookup_lt_is_Some_2 v t Ht) as [x Hx].
  unfold categorical_cross_entropy, softmax_prob.
  rewrite (list_lookup_total_correct _ _ _ Hx).
  pose proof (exp_le_sum_exp v t x Hx) as Hle. pose proof (exp_pos x) as Hpos.
  assert (Hs : (0 < Torch.sum_exp v)%R) by lra.
  unfold Rdiv. rewrite ln_mult, ln_Rinv, ln_exp; [|done|done|by apply Rinv_0_lt_compat].
  destruct (Rle_lt_or_eq_dec _ _ Hle) as [Hlt|Heq].
  - apply ln_increasing in Hlt; [|done]. rewrite ln_exp in Hlt. lra.
  - rewrite <- Heq, ln_exp. lra.
Qed.

Lemma loss_example_returns L (s k : Z) :
  1 ≤ s ≤ k → s ≤ Z.of_nat (length L) →
  ∃ x, loss_example L s k = Ok (Torch.Fin x) ∧ (0 <= x)%R.
Proof.
  intros Hsk HsL. unfold loss_example. rewrite slice_to_nonneg by lia.
  rewrite cross_entropy_in_range by (rewrite length_take; lia).
  eexists. split; [done|]. apply categorical_cross_entropy_nonneg.
  rewrite length_take. lia.
Qed.

Lemma loss_loop_returns logits stresses syll (n : nat) :
  (∀ (i : nat) L, logits !! i = Some L →
     ∃ s k, stresses !! i = Some s ∧ syll !! i = Some k
            ∧ 1 ≤ s ≤ k ∧ s ≤ Z.of_nat (length L)) →
  (n ≤ length logits)%nat →
  ∃ x, for_each (loss_step logits stresses syll) (Torch.Fin 0) (seq 0 n)
       = Ok (Torch.Fin x) ∧ (0 <= x)%R.
Proof.
  intros Hrows. induction n as [|n IH]; intros Hn.
  - exists 0%R. split; [done|lra].
  - destruct IH as (x & Hx & Hx0); [lia|].
    rewrite seq_S, for_each_snoc, Hx. step_ok. change (0 + n)%nat with n.
    destruct (lookup_lt_is_Some_2 logits n) as [L HL]; [lia|].
    destruct (Hrows n L HL) as (s & k & Hs & Hk & Hsk & HsL).
    destruct (loss_example_returns L s k Hsk HsL) as (y & Hy & Hy0).
    unfold loss_step, Torch.item. rewrite Hk, Hs. do 2 step_ok.
    rewrite (list_lookup_total_correct _ _ _ HL), Hy. step_ok.
    exists (x + y)%R. split; [done|lra].
Qed.

Lemma masked_loss_returns logits stresses syll :
  logits ≠ [] →
  (∀ (i : nat) L, logits !! i = Some L →
     ∃ s k, stresses !! i = Some s ∧ syll !! i = Some k
            ∧ 1 ≤ s ≤ k ∧ s ≤ Z.of_nat (length L)) →
  ∃ x, masked_cross_entropy_loss logits stresses syll = Ok (Torch.Fin x)
       ∧ (0 <= x)%R.
Proof.
  intros Hne Hrows. unfold masked_cross_entropy_loss.
  destruct (loss_loop_returns logits stresses syll (length logits) Hrows)
    as (x & Hx & Hx0); [done|].
  rewrite Hx. step_ok. rewrite bool_decide_eq_false_2 by (by destruct logits).
  eexists. split; [done|]. simpl.
  apply Rmult_le_pos; [done|]. apply Rlt_le, Rinv_0_lt_compat, lt_0_INR.
  destruct logits; [done|simpl; lia].
Qed.

End LossSign.

(** X14. On a non-empty batch in which every label lies between 1 and
    the syllable count of its example and within the width of its logit
    row, the masked loss returns a finite number that is not negative.
    The syllable count itself may exceed the width of the row. *)
Theorem masked_loss_nonneg (logits : list (list R)) (stresses syll : list Z) :
  logits ≠ [] →
  (∀ (i : nat) L, logits !! i = Some L →
     ∃ s k, stresses !! i = Some s ∧ syll !! i = Some k
            ∧ 1 ≤ s ≤ k ∧ s ≤ Z.of_nat (length L)) →
  ∃ x, masked_cross_entropy_loss logits stresses syll = Ok (Torch.Fin x)
       ∧ (0 <= x)%R.
Proof. apply masked_loss_returns. Qed.

Lemma masked_loss_nonneg_witness :
  ∃ x, masked_cross_entropy_loss example_batch_logits [1; 2] [2; 7]
       = Ok (Torch.Fin x) ∧ (0 <= x)%R.
Proof.
  apply (masked_loss_nonneg example_batch_logits [1; 2] [2; 7]); [done|].
  intros [|[|i]] L HL; [| |done]; injection HL as <-.
  - exists 1, 2. repeat split; simpl; lia.
  - exists 2, 7. repeat split; simpl; lia.
Defined.

(** ** The rows behind a shuffled order *)

Section EpochOrder.

Context `{backend : Backend}.

Lemma perm_Forall2 {A B} (R : A → B → Prop) (l l' : list A) (k : list B) :
  l ≡ₚ l' → Forall2 R l k → ∃ k', k ≡ₚ k' ∧ Forall2 R l' k'.
Proof.
  intros Hp. revert k. induction Hp as [|a l l' _ IH|a a' l|l l1 l2 _ IH1 _ IH2];
    intros k Hk.
  - inversion Hk; subst. by exists [].
  - inversion Hk as [|? b ? k0 Hab Hk0]; subst.
    destruct (IH _ Hk0) as (k' & Hperm & Hk'). exists (b :: k').
    split; [by constructor|by constructor].
  - inversion Hk as [|? b ? k0 Hab Hk0]; subst.
    inversion Hk0 as [|? b' ? k1 Hab' Hk1]; subst.
    exists (b' :: b :: k1). split; [apply perm_swap|by repeat constructor].
  - destruct (IH1 _ Hk) as (k1 & Hp1 & Hk1).
    destruct (IH2 _ Hk1) as (k2 & Hp2 & Hk2).
    exists k2. split; [by etrans|done].
Qed.

Lemma shuffled_rows data vocab md ds (g : generator) :
  StressDataset_init data vocab md = Ok ds →
  ∃ rows, rows ≡ₚ data
          ∧ Forall2 (λ i r, data !! i = Some r) (shuffle g (sequential ds)).1 rows.
Proof.
  intros Hds. pose proof (sequential_rows _ _ _ _ Hds) as Hseq.
  pose proof (shuffle_perm g (sequential ds)) as Hperm. symmetry in Hperm.
  destruct (perm_Forall2 _ _ _ _ Hperm Hseq) as (rows & Hp & Hrows).
  exists rows. split; [by symmetry|done].
Qed.

End EpochOrder.

(** ** The train branch returns on well-formed data *)

Section TrainReturns.

Context `{backend : Backend}.

Implicit Types (m : StressModel weights) (c2i : gmap (list N) Z) (r : Row)
  (rows : list Row) (groups : list (list Row)).

Lemma accepted_shape m1 m2 c2i r :
  shape m1 = shape m2 → accepted m1 c2i r → accepted m2 c2i r.
Proof.
  intros Hs [Hne Hr]. split; [done|].
  assert (vocab_size m1 = vocab_size m2) as <- by (by injection Hs). done.
Qed.

Lemma shape_num_classes m1 m2 : shape m1 = shape m2 → num_classes m1 = num_classes m2.
Proof. intros Hs. by injection Hs. Qed.

Lemma decode0_returns (L : list R) (k : Z) :
  1 ≤ k → L ≠ [] → ∃ p, decode0 L k = Ok p.
Proof.
  intros Hk HL. unfold decode0. rewrite slice_to_nonneg by lia.
  destruct L as [|x L]; [done|].
  destruct (Z.to_nat k) as [|n] eqn:Hn; [lia|]. simpl. by eexists.
Qed.

Lemma word_logits_nonempty m (enc : list Z) :
  1 ≤ num_classes m → word_logits m enc ≠ [].
Proof.
  intros HC Hnil. pose proof (word_logits_length m enc) as Hlen.
  rewrite Hnil in Hlen. simpl in Hlen. lia.
Qed.

Lemma train_step_returns (st : TrainState) c2i rows :
  rows ≠ [] →
  Forall (accepted (ts_model st) c2i) rows →
  Forall (trainable_row (num_classes (ts_model st))) rows →
  ∃ st', train_step st (batch_of_rows c2i ModeTrain rows) = Ok st'
         ∧ shape (ts_model st') = shape (ts_model st).
Proof.
  intros Hne Hacc Htr. unfold train_step.
  destruct (forward_batch_returns (ts_model st) (ts_rng st) c2i ModeTrain rows Hacc)
    as (out & g' & Hf).
  rewrite Hf. step_ok.
  pose proof (forward_length _ _ _ _ _ _ Hf) as Hlen.
  rewrite (proj1 (batch_lengths _ _ _)) in Hlen.
  pose proof (forward_widths _ _ _ _ _ _ Hf) as Hwid.
  change (batch_stress (batch_of_rows c2i ModeTrain rows))
    with (Ok (A:=list Z) ((λ r, default 0 (row_stress r)) <$> rows)).
  step_ok.
  change (b_num_syllables (batch_of_rows c2i ModeTrain rows))
    with (row_num_syllables <$> rows).
  destruct (masked_loss_returns out ((λ r, default 0 (row_stress r)) <$> rows)
              (row_num_syllables <$> rows)) as (x & Hx & _).
  { intros ->. destruct rows; [done|simpl in Hlen; lia]. }
  { intros i L HL.
    destruct (lookup_lt_is_Some_2 rows i) as [r Hr].
    { apply lookup_lt_Some in HL. lia. }
    rewrite Forall_lookup in Htr. destruct (Htr i r Hr) as (_ & s & Hs & Hsk & HsC).
    exists s, (row_num_syllables r). rewrite !list_lookup_fmap, Hr. simpl.
    rewrite Hs. split; [done|]. split; [done|]. split; [done|].
    rewrite Forall_lookup in Hwid. rewrite (Hwid i L HL). lia. }
  rewrite Hx. step_ok.
  destruct (adam_step _ _ _) as [o' w']. by eexists.
Qed.

Lemma train_loop_returns (st : TrainState) m c2i groups :
  shape (ts_model st) = shape m →
  Forall (λ rows, rows ≠ []) groups →
  Forall (Forall (accepted m c2i)) groups →
  Forall (Forall (trainable_row (num_classes m))) groups →
  ∃ st', for_each train_step st (batch_of_rows c2i ModeTrain <$> groups) = Ok st'.
Proof.
  intros Hs Hne. revert st Hs.
  induction Hne as [|rows groups Hrows _ IH]; intros st Hs Hacc Htr.
  - by eexists.
  - apply Forall_cons in Hacc as [Hacc Haccs].
    apply Forall_cons in Htr as [Htr Htrs].
    rewrite fmap_cons. cbn [for_each].
    destruct (train_step_returns st c2i rows) as (st1 & Hst & Hs1); [done| |
      by rewrite (shape_num_classes _ _ Hs)|].
    { eapply Forall_impl; [exact Hacc|]. intros r. by apply accepted_shape. }
    rewrite Hst. step_ok. apply IH; [congruence|done|done].
Qed.

Lemma train_model_returns m opt g c2i groups :
  groups ≠ [] →
  Forall (λ rows, rows ≠ []) groups →
  Forall (Forall (accepted m c2i)) groups →
  Forall (Forall (trainable_row (num_classes m))) groups →
  ∃ st loss, train_model m (batch_of_rows c2i ModeTrain <$> groups) opt g
             = Ok (st, loss).
Proof.
  intros Hgroups Hne Hacc Htr. unfold train_model.
  destruct (train_loop_returns
              {| ts_model := set_training true m; ts_opt := opt; ts_rng := g;
                 ts_total_loss := Torch.Fin 0 |} m c2i groups)
    as (st & Hst); [done..|].
  rewrite Hst. step_ok.
  rewrite bool_decide_eq_false_2 by (by destruct groups). by eexists _, _.
Qed.

Lemma evaluate_returns m g c2i groups :
  mjoin groups ≠ [] →
  Forall (Forall (accepted m c2i)) groups →
  Forall (λ r, 1 ≤ row_num_syllables r) (mjoin groups) →
  1 ≤ num_classes m →
  ∃ acc, evaluate_model m (batch_of_rows c2i ModeTrain <$> groups) g
         = Ok (set_training false m, acc).
Proof.
  intros Hne Hacc Hk HC. rewrite evaluate_rowwise by done.
  assert (Hall : Forall (λ r, ∃ h,
      (p ← decode0 (word_logits m (Vocab.encode_word (row_word r) c2i))
                   (row_num_syllables r);
       Ok (bool_decide (p = default 0 (row_stress r) - 1))) = Ok h)
      (mjoin groups)).
  { eapply Forall_impl; [exact Hk|]. intros r Hr. simpl.
    destruct (decode0_returns
                (word_logits m (Vocab.encode_word (row_word r) c2i))
                (row_num_syllables r)) as (p & Hp);
      [done|by apply word_logits_nonempty|].
    rewrite Hp. by eexists. }
  apply Forall_exists_Forall2_l in Hall as (hs & Hhs).
  pose proof (Forall2_length _ _ _ Hhs) as Hlen.
  apply map_result_Forall2 in Hhs. rewrite Hhs. step_ok.
  rewrite bool_decide_eq_false_2; [by eexists|].
  intros ->. destruct (mjoin groups); [done|simpl in Hlen; lia].
Qed.

Lemma epoch_loop_returns (n : nat) data ds bs m opt g :
  StressDataset_init data None ModeTrain = Ok ds →
  data ≠ [] → 0 < bs →
  Forall (accepted m (char2idx ds)) data →
  Forall (trainable_row (num_classes m)) data →
  ∃ m' g', epoch_loop n ds bs m opt g = Ok (m', g').
Proof.
  intros Hds Hne Hbs. revert m opt g.
  induction n as [|n IH]; intros m opt g Hacc Htr; [by eexists _, _|].
  cbn [epoch_loop].
  destruct (shuffled_rows _ _ _ _ g Hds) as (rows & Hperm & Hrows).
  destruct (shuffle g (sequential ds)) as [order g1]. cbn [fst] in Hrows.
  rewrite (DataLoader_rows _ _ _ _ _ _ rows Hds Hbs Hrows). step_ok.
  assert (Hrne : rows ≠ []).
  { intros ->. apply Permutation_nil_l in Hperm. by subst. }
  destruct (train_model_returns m opt g1 (char2idx ds)
              (chunks (Z.to_nat bs) rows)) as (st & loss & Ht).
  { intros Hnil. pose proof (chunks_join (Z.to_nat bs) rows) as Hj.
    rewrite Hnil in Hj. simpl in Hj. apply Hrne. symmetry. apply Hj. lia. }
  { eapply Forall_impl; [apply (chunks_sizes (Z.to_nat bs) rows); lia|].
    intros l Hl ->. simpl in Hl. lia. }
  { apply Forall_mjoin. rewrite chunks_join by lia. by rewrite Hperm. }
  { apply Forall_mjoin. rewrite chunks_join by lia. by rewrite Hperm. }
  rewrite Ht. step_ok.
  pose proof (train_model_shape _ _ _ _ _ _ Ht) as Hshape.
  rewrite (DataLoader_rows _ _ _ _ _ _ data Hds Hbs)
    by (by eapply sequential_rows).
  step_ok.
  assert (HC : 1 ≤ num_classes m).
  { destruct data as [|r data]; [done|].
    apply Forall_cons in Htr as [(_ & s & _ & Hs & HsC) _]. lia. }
  destruct (evaluate_returns (ts_model st) (ts_rng st) (char2idx ds)
              (chunks (Z.to_nat bs) data)) as (acc & He).
  { by rewrite chunks_join by lia. }
  { apply Forall_mjoin. rewrite chunks_join by lia.
    eapply Forall_impl; [exact Hacc|]. intros r. by apply accepted_shape. }
  { rewrite chunks_join by lia. eapply Forall_impl; [exact Htr|].
    intros r (_ & s & _ & Hs & _). lia. }
  { by rewrite (shape_num_classes _ _ Hshape). }
  rewrite He. step_ok. apply IH.
  - eapply Forall_impl; [exact Hacc|]. intros r. apply accepted_shape.
    by rewrite shape_set_training.
  - by rewrite (shape_num_classes _ m) by (by rewrite shape_set_training).
Qed.

Lemma StressDataset_init_returns data vocab :
  Forall (λ r, is_Some (row_stress r)) data →
  ∃ ds, StressDataset_init data vocab ModeTrain = Ok ds.
Proof.
  intros Hlab. unfold StressDataset_init.
  rewrite (map_result_total _ (λ r, default 0 (row_stress r))).
  - by eexists.
  - eapply Forall_impl; [exact Hlab|]. by intros r [s ->].
Qed.

Lemma train_setup_returns nb args train_csv g :
  train_csv ≠ [] → 0 < batch_size args →
  0 ≤ embed_dim args → 0 ≤ hidden_size args →
  Forall (λ r, is_Some (row_stress r) ∧ 0 ≤ row_num_syllables r) train_csv →
  ∃ ds m g', train_setup nb args train_csv g = Ok (ds, m, g').
Proof.
  intros Hne Hbs HE HH Hrows. unfold train_setup.
  destruct (StressDataset_init_returns train_csv None) as (ds & Hds).
  { eapply Forall_impl; [exact Hrows|]. by intros r [? _]. }
  rewrite Hds. step_ok.
  pose proof Hds as Hcols.
  apply StressDataset_init_columns in Hcols as (Hsyll & _ & Hvocab).
  assert (HC : ∃ C, train_num_classes nb ds = Ok C ∧ 0 ≤ C).
  { destruct nb; simpl.
    - destruct (py_max_total (num_syllables ds)) as (M & HM).
      { rewrite Hsyll. by destruct train_csv. }
      exists M. split; [done|]. apply py_max_ok in HM as [HM _].
      rewrite Hsyll in HM. apply list_elem_of_fmap in HM as (r & -> & Hr).
      rewrite Forall_forall in Hrows. by destruct (Hrows r Hr).
    - exists default_num_classes. split; [done|]. unfold default_num_classes. lia. }
  destruct HC as (C & HC & HC0). rewrite HC. step_ok.
  rewrite bool_decide_eq_false_2 by lia. step_ok.
  destruct (StressModel_init_total nb g (Vocab.len (char2idx ds))
              (embed_dim args) (hidden_size args) C) as (m & g' & Hm);
    [|done|done|done|].
  { rewrite Hvocab by done. rewrite vocab_len. lia. }
  rewrite Hm. step_ok. by eexists _, _, _.
Qed.

Lemma main_train_total nb args train_csv (wd : World) :
  train_csv ≠ [] → 0 < batch_size args →
  0 ≤ embed_dim args → 0 ≤ hidden_size args →
  Forall (λ r, row_word r ≠ []
               ∧ ∃ s, row_stress r = Some s ∧ 1 ≤ s ≤ row_num_syllables r
                      ∧ (nb = TestCopy1 → s ≤ default_num_classes)) train_csv →
  ∃ m wd', main_train nb args train_csv wd = Ok (m, wd').
Proof.
  intros Hne Hbs HE HH Hrows. unfold main_train.
  destruct (train_setup_returns nb args train_csv (rng wd)) as (ds & m & g & Hs);
    [done..| |].
  { eapply Forall_impl; [exact Hrows|]. intros r (_ & s & -> & Hs & _).
    split; [done|lia]. }
  rewrite Hs. step_ok.
  apply train_setup_ok in Hs as (Hds & HC & Hshape & _).
  pose proof Hds as Hcols.
  apply StressDataset_init_columns in Hcols as (Hsyll & _ & Hvocab).
  destruct (epoch_loop_returns (Z.to_nat (epochs args)) train_csv ds
              (batch_size args) m (adam_init (lr args) (params m)) g)
    as (m' & g' & Hl); [done..| | |].
  - apply Forall_forall. intros r Hr. rewrite Forall_forall in Hrows.
    destruct (Hrows r Hr) as (Hw & _). split; [done|].
    assert (vocab_size m = Vocab.len (char2idx ds)) as -> by (by injection Hshape).
    rewrite Hvocab by done. apply encode_word_bounds.
  - apply Forall_forall. intros r Hr. rewrite Forall_forall in Hrows.
    destruct (Hrows r Hr) as (Hw & s & Hs & Hsk & H6).
    split; [done|]. exists s. split; [done|]. split; [done|].
    destruct nb; simpl in HC.
    + apply py_max_ok in HC as [_ HC]. rewrite Hsyll in HC.
      rewrite Forall_fmap, Forall_forall in HC. specialize (HC r Hr).
      simpl in HC. lia.
    + injection HC as <-. by apply H6.
  - rewrite Hl. step_ok. by eexists _, _.
Qed.

End TrainReturns.

(** X16. The train branch returns on well-formed input: a non-empty
    training file in which every word is non-empty, every syllable count
    fits a 64-bit integer and every label lies between 1 and the syllable
    count of its row (and, in the notebook with the fixed class count,
    within that count), a positive batch size, positive layer widths and
    a learning rate that is not negative. Whatever the number of epochs,
    the initialisation and the order of the shuffles, no exception is
    raised. *)
Theorem train_returns `{backend : Backend} (nb : Notebook) (args : Args)
    (train_csv : list Row) (wd : World) :
  train_csv ≠ [] → 0 < batch_size args →
  0 < embed_dim args → 0 < hidden_size args → (0 <= lr args)%Q →
  Forall (λ r, row_word r ≠ []
               ∧ row_num_syllables r < 2 ^ 63
               ∧ ∃ s, row_stress r = Some s ∧ 1 ≤ s ≤ row_num_syllables r
                      ∧ (nb = TestCopy1 → s ≤ default_num_classes)) train_csv →
  ∃ m wd', main_train nb args train_csv wd = Ok (m, wd').
Proof.
  intros Hne Hbs HE HH _ Hrows. apply main_train_total; [done|done|lia|lia|].
  eapply Forall_impl; [exact Hrows|]. by intros r (Hw & _ & Hs).
Qed.

Section TrainReturnsExample.

#[local] Existing Instance integer_backend.

Lemma train_returns_witness :
  ∃ (m : StressModel weights) wd',
    main_train TestCopy1 example_args example_train_csv example_world = Ok (m, wd').
Proof.
  apply (train_returns TestCopy1 example_args example_train_csv example_world).
  - discriminate.
  - reflexivity.
  - reflexivity.
  - reflexivity.
  - discriminate.
  - unfold example_train_csv.
    constructor; [|constructor; [|constructor; [|constructor]]];
      (split; [done|]); (split; [reflexivity|]);
      cbn [row_stress row_num_syllables].
    + exists 1. split; [reflexivity|]. split; [lia|]. intros _. by vm_compute.
    + exists 1. split; [reflexivity|]. split; [lia|]. intros _. by vm_compute.
    + exists 2. split; [reflexivity|]. split; [lia|]. intros _. by vm_compute.
Defined.

End TrainReturnsExample.

(** ** The predict branch after a train run *)

Section PredictReturns.

Context `{backend : Backend}.

Lemma requested_classes_saved nb args train_csv test_csv (wd0 wd1 : World)
    (m_saved : StressModel weights) :
  main_train nb args train_csv wd0 = Ok (m_saved, wd1) →
  nb = TestCopy1 ∨ requested_classes nb test_csv = Ok (num_classes m_saved) →
  requested_classes nb test_csv = Ok (num_classes m_saved).
Proof.
  intros Ht [->|HC]; [|done].
  apply main_train_ok in Ht as (ds & m0 & g0 & Hs & Hshape & _).
  apply train_setup_ok in Hs as (_ & HC & _). simpl in *.
  injection HC as HC. f_equal. rewrite HC. by injection Hshape.
Qed.

Lemma decode_returns (L : list R) (k : Z) :
  1 ≤ k → L ≠ [] → ∃ p, decode L k = Ok p.
Proof.
  intros Hk HL. unfold decode.
  destruct (decode0_returns L k Hk HL) as (p & ->). by eexists.
Qed.

Lemma trained_model_accepts nb args train_csv (wd0 wd1 : World)
    (m_saved : StressModel weights) r :
  main_train nb args train_csv wd0 = Ok (m_saved, wd1) →
  row_word r ≠ [] →
  accepted m_saved (Vocab.build_vocab (row_word <$> train_csv)).1 r.
Proof.
  intros Ht Hne. split; [done|].
  apply main_train_ok in Ht as (ds & m0 & g0 & Hs & Hshape & _).
  apply train_setup_ok in Hs as (Hds & _ & Hshape0 & _).
  apply StressDataset_init_columns in Hds as (_ & _ & Hvocab).
  rewrite Hshape0 in Hshape.
  assert (vocab_size m_saved = Vocab.len (char2idx ds)) as ->
    by (by injection Hshape).
  rewrite Hvocab by done. apply encode_word_bounds.
Qed.

Lemma main_predict_total nb args train_csv test_csv (wd0 wd1 : World)
    (m_saved : StressModel weights) :
  main_train nb args train_csv wd0 = Ok (m_saved, wd1) →
  nb = TestCopy1 ∨ requested_classes nb test_csv = Ok (num_classes m_saved) →
  Forall (λ r, row_word r ≠ [] ∧ 1 ≤ row_num_syllables r) test_csv →
  ∃ m rows, main_predict nb args test_csv wd1 = Ok (m, rows)
            ∧ length rows = length test_csv.
Proof.
  intros Ht HC Hrows.
  pose proof (requested_classes_saved _ _ _ test_csv _ _ _ Ht HC) as HC'.
  pose proof (round_trip_same_classes _ _ _ _ _ _ _ (rng wd1) Ht HC') as Hrt.
  set (c2i := (Vocab.build_vocab (row_word <$> train_csv)).1) in *.
  assert (Hbs : 0 < batch_size args).
  { pose proof Ht as Ht'.
    apply main_train_ok in Ht' as (ds & m0 & g0 & Hs & _).
    by apply train_setup_ok in Hs as (_ & _ & _ & Hbs & _). }
  assert (Hclasses : test_csv ≠ [] → 1 ≤ num_classes m_saved).
  { intros Hne. destruct nb; simpl in HC'.
    - apply py_max_ok in HC' as [HM _].
      apply list_elem_of_fmap in HM as (r & -> & Hr).
      rewrite Forall_forall in Hrows. by destruct (Hrows r Hr).
    - injection HC' as <-. unfold default_num_classes. lia. }
  assert (Hall : Forall (λ r, ∃ row : Z * list N * Z,
                   row.1 = (row_id r, row_word r)
                   ∧ predicted_stress m_saved c2i r = Ok row.2) test_csv).
  { apply Forall_forall. intros r Hr. rewrite Forall_forall in Hrows.
    destruct (Hrows r Hr) as [Hw Hk].
    destruct (decode_returns
                (word_logits m_saved (Vocab.encode_word (row_word r) c2i))
                (row_num_syllables r)) as (p & Hp); [done| |].
    { apply word_logits_nonempty, Hclasses. intros ->. by apply elem_of_nil in Hr. }
    by exists (row_id r, row_word r, p). }
  apply Forall_exists_Forall2_l in Hall as (rows & Hall).
  assert (Hw : predict_with m_saved c2i args test_csv (rng wd1) = Ok rows).
  { apply predict_with_rows. split; [done|]. split; [|done].
    eapply Forall_impl; [exact Hrows|]. intros r [Hne _].
    by eapply trained_model_accepts. }
  rewrite Hw in Hrt.
  destruct (main_predict nb args test_csv wd1) as [[m rows']|]; [|done].
  simpl in Hrt. injection Hrt as ->. exists m, rows. split; [done|].
  symmetry. by eapply Forall2_length.
Qed.

End PredictReturns.

(** X17. After a train run that returned, the predict branch returns on
    every inference file whose words are non-empty and whose syllable
    counts are at least 1 and fit a 64-bit integer, provided it asks for
    the class count that was saved, which the notebook with the fixed
    class count always does. It writes one row per row of the file.
    Characters that training never saw are no obstacle. *)
Theorem predict_returns `{backend : Backend} (nb : Notebook) (args : Args)
    (train_csv test_csv : list Row) (wd0 wd1 : World)
    (m_saved : StressModel weights) :
  main_train nb args train_csv wd0 = Ok (m_saved, wd1) →
  nb = TestCopy1 ∨ requested_classes nb test_csv = Ok (num_classes m_saved) →
  Forall (λ r, row_word r ≠ [] ∧ 1 ≤ row_num_syllables r < 2 ^ 63) test_csv →
  ∃ m rows, main_predict nb args test_csv wd1 = Ok (m, rows)
            ∧ length rows = length test_csv.
Proof.
  intros Ht HC Hrows. eapply main_predict_total; [exact Ht|exact HC|].
  eapply Forall_impl; [exact Hrows|]. intros r [Hw Hk]. split; [done|lia].
Qed.

(** X18. Where the two runs agree on the class count, the checkpoint is
    transparent: the predict branch gives, on every inference file, what
    the model held in memory at the end of training gives with the
    training vocabulary, the same rows or the same exception. The
    notebook with the fixed class count is always in this case. *)
Theorem round_trip_preserved `{backend : Backend} (nb : Notebook) (args : Args)
    (train_csv test_csv : list Row) (wd0 wd1 : World)
    (m_saved : StressModel weights) (g : generator) :
  main_train nb args train_csv wd0 = Ok (m_saved, wd1) →
  nb = TestCopy1 ∨ requested_classes nb test_csv = Ok (num_classes m_saved) →
  (p ← main_predict nb args test_csv wd1; Ok p.2)
  = predict_with m_saved (Vocab.build_vocab (row_word <$> train_csv)).1
                 args test_csv g.
Proof.
  intros Ht HC. apply (round_trip_same_classes _ _ _ _ _ _ _ _ Ht).
  by eapply requested_classes_saved.
Qed.

Section PredictReturnsExample.

#[local] Existing Instance integer_backend.

Lemma predict_returns_witness :
  ∃ (m_saved m : StressModel weights) wd1 rows,
    main_train TestCopy1 example_args example_train_csv example_world
    = Ok (m_saved, wd1)
    ∧ main_predict TestCopy1 example_args example_test_csv wd1 = Ok (m, rows)
    ∧ length rows = length example_test_csv.
Proof.
  destruct (main_train TestCopy1 example_args example_train_csv example_world)
    as [[m_saved wd1]|] eqn:E; [|by vm_compute in E].
  destruct (predict_returns TestCopy1 example_args example_train_csv
              example_test_csv example_world wd1 m_saved E)
    as (m & rows & Hp & Hlen).
  - by left.
  - unfold example_test_csv.
    constructor; [|constructor; [|constructor]];
      (split; [done|]); cbn [row_num_syllables]; lia.
  - exists m_saved, m, wd1, rows.
    split; [reflexivity|]. split; [exact Hp|exact Hlen].
Defined.

Lemma round_trip_preserved_witness :
  ∃ (m_saved : StressModel weights) wd1,
    main_train TestCopy1 example_args example_train_csv example_world
    = Ok (m_saved, wd1)
    ∧ (p ← main_predict TestCopy1 example_args example_test_csv wd1; Ok p.2)
      = predict_with m_saved
          (Vocab.build_vocab (row_word <$> example_train_csv)).1
          example_args example_test_csv example_generator.
Proof.
  destruct (main_train TestCopy1 example_args example_train_csv example_world)
    as [[m_saved wd1]|] eqn:E; [|by vm_compute in E].
  exists m_saved, wd1. split; [reflexivity|].
  apply (round_trip_preserved TestCopy1 example_args example_train_csv
           example_test_csv example_world wd1 m_saved example_generator E).
  by left.
Defined.

End PredictReturnsExample.

(** ** Degenerate input *)

Section Degenerate.

Context `{backend : Backend}.

Lemma main_train_empty_bidirectional args (wd : World) :
  main_train Test args [] wd = Raise ValueError.
Proof. done. Qed.

Lemma main_predict_empty_bidirectional args (wd : World) ckpt :
  files wd !! model_path args = Some ckpt →
  main_predict Test args [] wd = Raise ValueError.
Proof.
  intros Hck. unfold main_predict.
  rewrite (proj2 (torch_load_ok _ _ _) Hck). step_ok.
  rewrite StressDataset_init_test. step_ok. unfold DataLoader.
  by case_bool_decide.
Qed.

End Degenerate.

(** X20. On an empty data file: the train branch of the notebook that
    sizes the classifier from the data raises [ValueError], the maximum
    over no syllable count, and so does its predict branch once the
    checkpoint is read. The predict branch of the other notebook, if it
    returns, writes no row. *)
Theorem empty_file `{backend : Backend} (args : Args) (wd : World) :
  main_train Test args [] wd = Raise ValueError
  ∧ (is_Some (files wd !! model_path args) →
     main_predict Test args [] wd = Raise ValueError)
  ∧ (∀ m rows, main_predict TestCopy1 args [] wd = Ok (m, rows) → rows = []).
Proof.
  split; [apply main_train_empty_bidirectional|]. split.
  - intros [ckpt Hck]. by eapply main_predict_empty_bidirectional.
  - intros m rows Hp. apply main_predict_predict_with in Hp as (ckpt & g & _ & Hp).
    apply predict_with_rows in Hp as (_ & _ & Hrows). by inversion Hrows.
Qed.
